(** * Verification of graph_rag_project: tools.py and utils_strand.py

    A shallow embedding of the text-processing and graph-partitioning code
    of the repository:
    - [PyStr], [PyFloat]: the operations of Python's [str] and [float]
      that the code calls,
    - [Parser]: [parse_extraction_output] of tools.py,
    - [Chunk]: [chunk_text] of utils_strand.py,
    - [Json]: [extract_json] and [generate_community_report_with_llm],
      with [Decoder], a decoder of JSON texts to run them on,
    - [Extraction]: [extract_entities_with_llm],
    - [Communities]: [calculate_communities].

    A Python [str] is a list of characters; a character is a code point
    below 256.  Python exceptions are values of [exn], carried by
    [result]; a loop or recursion that may not end takes fuel and returns
    an [option].  The definitions come first, the theorems follow. *)

From Stdlib Require Import ZArith Ascii String List Lia.
From stdpp Require Import base tactics option list gmap strings sorting.

Local Open Scope Z_scope.

(** ** Exceptions *)

Inductive exn : Set :=
  | ValueError
  | TypeError
  | IndexError
  | RuntimeError
  | OverflowError
  | JSONDecodeError.

#[global] Instance exn_eq_dec : EqDecision exn.
Proof. solve_decision. Defined.

Inductive result (A : Type) : Type :=
  | Ok (a : A)
  | Raise (e : exn).
Arguments Ok {A} a.
Arguments Raise {A} e.

#[global] Instance result_ret : MRet result := fun _ a => Ok a.

#[global] Instance result_bind : MBind result := fun _ _ k r =>
  match r with
  | Ok a => k a
  | Raise e => Raise e
  end.

(** [try: r except e: h] for the one exception class [e]. *)
Definition catch {A} (e : exn) (r : result A) (h : result A) : result A :=
  match r with
  | Ok a => Ok a
  | Raise e' => if decide (e' = e) then h else Raise e'
  end.

(** [try: r except Exception: h] *)
Definition catch_all {A} (r : result A) (h : result A) : result A :=
  match r with
  | Ok a => Ok a
  | Raise _ => h
  end.

(** ** Python strings *)

Module PyStr.

Abbreviation str := (list ascii).

Definition lit (s : string) : str := list_ascii_of_string s.

Definition len (s : str) : Z := Z.of_nat (length s).

Definition code (c : ascii) : N := N_of_ascii c.

(** [str.isspace] on one character: the code points below 256 that
    Python classifies as whitespace. *)
Definition isspace (c : ascii) : bool :=
  let n := code c in
  ((9 <=? n) && (n <=? 13) || (28 <=? n) && (n <=? 32)
   || (n =? 133) || (n =? 160))%N.

Definition ascii_eqb (a b : ascii) : bool := Ascii.eqb a b.

Fixpoint str_eqb (a b : str) : bool :=
  match a, b with
  | [], [] => true
  | x :: a', y :: b' => ascii_eqb x y && str_eqb a' b'
  | _, _ => false
  end.

(** [s.startswith(p)] *)
Fixpoint startswith (p s : str) : bool :=
  match p, s with
  | [], _ => true
  | x :: p', y :: s' => ascii_eqb x y && startswith p' s'
  | _ :: _, [] => false
  end.

(** [s.endswith(p)] *)
Definition endswith (p s : str) : bool := startswith (rev p) (rev s).

(** [sub in s] *)
Fixpoint contains (sub s : str) : bool :=
  startswith sub s ||
  match s with
  | [] => false
  | _ :: s' => contains sub s'
  end.

(** [s.find(sub)]: the lowest index where [sub] occurs, [None] for -1. *)
Fixpoint find (sub s : str) : option nat :=
  if startswith sub s then Some 0%nat
  else match s with
       | [] => None
       | _ :: s' => S <$> find sub s'
       end.

(** A slice bound as Python normalises it: negative bounds count from the
    end, and every bound is clipped to [0, len]. *)
Definition clip (n : Z) (i : Z) : nat :=
  Z.to_nat (if i <? 0 then Z.max 0 (i + n) else Z.min i n).

(** [s[a:b]] *)
Definition slice (s : str) (a b : Z) : str :=
  let i := clip (len s) a in
  let j := clip (len s) b in
  take (j - i)%nat (drop i s).

(** [s.find(sub, start)], -1 when there is no occurrence. *)
Definition find_from (sub s : str) (start : Z) : Z :=
  let st := if start <? 0 then Z.max 0 (start + len s) else start in
  if len s <? st then -1
  else match find sub (drop (Z.to_nat st) s) with
       | Some i => st + Z.of_nat i
       | None => -1
       end.

Fixpoint lstrip_by (p : ascii -> bool) (s : str) : str :=
  match s with
  | [] => []
  | c :: s' => if p c then lstrip_by p s' else s
  end.

Definition rstrip_by (p : ascii -> bool) (s : str) : str :=
  rev (lstrip_by p (rev s)).

Definition strip_by (p : ascii -> bool) (s : str) : str :=
  rstrip_by p (lstrip_by p s).

(** [s.strip()] *)
Definition strip (s : str) : str := strip_by isspace s.

Definition mem (c : ascii) (chars : str) : bool :=
  existsb (ascii_eqb c) chars.

(** [s.strip(chars)] *)
Definition strip_chars (chars s : str) : str :=
  strip_by (fun c => mem c chars) s.

(** [str.lower] on one character (code points below 256). *)
Definition lower_char (c : ascii) : ascii :=
  let n := code c in
  if ((65 <=? n) && (n <=? 90)
      || (192 <=? n) && (n <=? 222) && negb (n =? 215))%N
  then ascii_of_N (n + 32) else c.

Definition lower (s : str) : str := map lower_char s.

(** [s.split(sep)] for a non-empty [sep]: the text is cut at the leftmost
    occurrences of [sep], which do not overlap.  [skip] counts the
    characters of an occurrence still to be passed, [cur] is the piece
    being read, last character first. *)
Fixpoint split_go (sep : str) (skip : nat) (cur : str) (s : str) : list str :=
  match s with
  | [] => [rev cur]
  | c :: s' =>
      match skip with
      | S k => split_go sep k cur s'
      | O =>
          if startswith sep s
          then rev cur :: split_go sep (length sep - 1) [] s'
          else split_go sep 0 (c :: cur) s'
      end
  end.

Definition split (sep s : str) : result (list str) :=
  match sep with
  | [] => Raise ValueError
  | _ => Ok (split_go sep 0 [] s)
  end.

(** [s.replace(old, new)] for a non-empty [old]. *)
Fixpoint replace_go (old new : str) (skip : nat) (s : str) : str :=
  match s with
  | [] => []
  | c :: s' =>
      match skip with
      | S k => replace_go old new k s'
      | O =>
          if startswith old s
          then new ++ replace_go old new (length old - 1) s'
          else c :: replace_go old new 0 s'
      end
  end.

Definition replace (old new s : str) : str := replace_go old new 0 s.

(** [s.removeprefix(p)] and [s.removesuffix(p)] *)
Definition removeprefix (p s : str) : str :=
  if startswith p s then drop (length p) s else s.

Definition removesuffix (p s : str) : str :=
  if endswith p s then take (length s - length p) s else s.

(** The delimiter [sep] occurs in [f ++ sep] at its end only: written
    after [f], it is found where it was written. *)
Definition delimited (sep f : str) : Prop :=
  find sep (f ++ sep) = Some (length f).

#[global] Instance delimited_dec sep f : Decision (delimited sep f).
Proof. unfold delimited. apply _. Defined.

End PyStr.

(** ** Python floats *)

Module PyFloat.
Import PyStr.

(** A value of Python's [float]: a binary64 number [m * 2^e], an infinity
    or a NaN. *)
Inductive pyfloat : Set :=
  | Finite (m e : Z)
  | Infinite (negative : bool)
  | NaN.

#[global] Instance pyfloat_eq_dec : EqDecision pyfloat.
Proof. solve_decision. Defined.

(** [f.is_integer()] *)
Definition is_integer (f : pyfloat) : bool :=
  match f with
  | Finite m e => if 0 <=? e then true else m mod 2 ^ (- e) =? 0
  | _ => false
  end.

(** [int(f)]: truncation towards zero; an infinity raises
    [OverflowError], a NaN raises [ValueError]. *)
Definition int_of_float (f : pyfloat) : result Z :=
  match f with
  | Finite m e => Ok (if 0 <=? e then m * 2 ^ e else Z.quot m (2 ^ (- e)))
  | Infinite _ => Raise OverflowError
  | NaN => Raise ValueError
  end.

(** The binary64 number nearest to [m * 10^e10] (ties to even), for
    [0 <= m]. *)
Definition round64 (negative : bool) (m e10 : Z) : pyfloat :=
  if m =? 0 then Finite 0 0
  else
    let num := m * 10 ^ Z.max e10 0 in
    let den := 10 ^ Z.max (- e10) 0 in
    let e1 := Z.log2 num - Z.log2 den - 53 in
    let scaled e := if 0 <=? e then (num, den * 2 ^ e) else (num * 2 ^ (- e), den) in
    let q1 := let '(n, d) := scaled e1 in n / d in
    let e := Z.max (if 2 ^ 53 <=? q1 then e1 + 1 else e1) (-1074) in
    let '(n, d) := scaled e in
    let q := n / d in
    let r := n mod d in
    let q := if (d <? 2 * r) || ((d =? 2 * r) && Z.odd q) then q + 1 else q in
    if (971 <? e) || ((e =? 971) && (q =? 2 ^ 53)) then Infinite negative
    else if q =? 0 then Finite 0 0
    else Finite (if negative then - q else q) e.

Definition digit_val (c : ascii) : option Z :=
  let n := code c in
  if ((48 <=? n) && (n <=? 57))%N then Some (Z.of_N n - 48) else None.

(** [digit (["_"] digit)*] after its first digit: the digits read so far
    are accumulated in [acc], their number in [cnt]. *)
Fixpoint digits_tail (acc : Z) (cnt : Z) (s : str) : Z * Z * str :=
  match s with
  | c :: s' =>
      match digit_val c with
      | Some d => digits_tail (10 * acc + d) (cnt + 1) s'
      | None =>
          if ascii_eqb c "_" then
            match s' with
            | c' :: s'' =>
                match digit_val c' with
                | Some d => digits_tail (10 * acc + d) (cnt + 1) s''
                | None => (acc, cnt, s)
                end
            | [] => (acc, cnt, s)
            end
          else (acc, cnt, s)
      end
  | [] => (acc, cnt, s)
  end.

(** [digitpart], continuing the number [acc]. *)
Definition digitpart (acc : Z) (s : str) : option (Z * Z * str) :=
  match s with
  | c :: s' =>
      match digit_val c with
      | Some d => Some (digits_tail (10 * acc + d) 1 s')
      | None => None
      end
  | [] => None
  end.

Definition sign (s : str) : bool * str :=
  match s with
  | c :: s' =>
      if ascii_eqb c "-" then (true, s')
      else if ascii_eqb c "+" then (false, s')
      else (false, s)
  | [] => (false, s)
  end.

(** [exponent ::= ("e" | "E") [sign] digitpart], absent when [s] is
    empty. *)
Definition exponent (s : str) : option Z :=
  match s with
  | [] => Some 0
  | c :: s' =>
      if ascii_eqb c "e" || ascii_eqb c "E" then
        let '(neg, s'') := sign s' in
        match digitpart 0 s'' with
        | Some (x, _, []) => Some (if neg then - x else x)
        | _ => None
        end
      else None
  end.

(** [floatnumber]: mantissa and decimal exponent. *)
Definition floatnumber (s : str) : option (Z * Z) :=
  match digitpart 0 s with
  | Some (i, _, rest) =>
      match rest with
      | c :: rest' =>
          if ascii_eqb c "." then
            match digitpart i rest' with
            | Some (m, k, rest'') => x ← exponent rest''; Some (m, x - k)
            | None => x ← exponent rest'; Some (i, x)
            end
          else x ← exponent rest; Some (i, x)
      | [] => Some (i, 0)
      end
  | None =>
      match s with
      | c :: rest' =>
          if ascii_eqb c "." then
            '(m, k, rest'') ← digitpart 0 rest';
            x ← exponent rest''; Some (m, x - k)
          else None
      | [] => None
      end
  end.

(** [float(s)] for a string [s], as the language reference gives its
    grammar: surrounding whitespace is removed, then
    [[sign] (floatnumber | "inf" | "infinity" | "nan")], the words in any
    case.  [None] stands for [ValueError]. *)
Definition float_of_str (s : str) : option pyfloat :=
  let '(neg, body) := sign (strip s) in
  let word := lower body in
  if str_eqb word (lit "inf") || str_eqb word (lit "infinity")
  then Some (Infinite neg)
  else if str_eqb word (lit "nan") then Some NaN
  else '(m, x) ← floatnumber body; Some (round64 neg m x).

End PyFloat.

(** ** tools.py: [parse_extraction_output] *)

Module Parser.
Import PyStr PyFloat.

Definition newline : str := ["010"%char].
Definition tab : str := ["009"%char].
Definition dquote : ascii := "034"%char.
Definition squote : ascii := "039"%char.

Definition completion_marker : str := lit "{completion_delimiter}".
Definition record_placeholder : str := lit "{record_delimiter}".
Definition tuple_placeholder : str := lit "{tuple_delimiter}".

(** The value stored under [relationship_strength]: an [int], a [float]
    or the token itself. *)
Inductive strength : Set :=
  | SInt (z : Z)
  | SFloat (f : pyfloat)
  | SStr (s : str).

(** The dicts appended to [parsed_records]; the constructor is the value
    of the key [record_type]. *)
Inductive record : Set :=
  | Entity (entity_name entity_type entity_description : str)
  | Relationship (source_entity target_entity relationship_description : str)
                 (relationship_strength : strength).

Definition is_entity (r : record) : bool :=
  match r with Entity _ _ _ => true | _ => false end.

Definition is_relationship (r : record) : bool :=
  match r with Relationship _ _ _ _ => true | _ => false end.

Section WithFloat.

(** The builtin [float] on strings; [None] stands for [ValueError]. *)
Variable float : str -> option pyfloat.

Definition py_float (s : str) : result pyfloat :=
  match float s with
  | Some f => Ok f
  | None => Raise ValueError
  end.

(** Lines 268-274: the [try] block converting [tokens[4]]. *)
Definition coerce_strength (token : str) : result strength :=
  catch ValueError
    (strength ← py_float token;
     if is_integer strength
     then z ← int_of_float strength; Ok (SInt z)
     else Ok (SFloat strength))
    (Ok (SStr token)).

(** Lines 208-210. *)
Definition strip_completion (output_str : str) : str :=
  if contains completion_marker output_str
  then replace completion_marker [] output_str
  else output_str.

(** Lines 214-221. *)
Definition resolve_record_delimiter (output_str : str)
    (record_delimiter : option str) : str :=
  match record_delimiter with
  | Some d => d
  | None =>
      if contains record_placeholder output_str then record_placeholder
      else if contains (lit "|") output_str then lit "|"
      else newline
  end.

(** Lines 224-230. *)
Definition resolve_tuple_delimiter (output_str : str)
    (tuple_delimiter : option str) : str :=
  match tuple_delimiter with
  | Some d => d
  | None =>
      if contains tuple_placeholder output_str then tuple_placeholder
      else if contains (lit ";") output_str then lit ";"
      else tab
  end.

(** Line 233. *)
Definition raw_records (output_str record_delimiter : str) : result (list str) :=
  parts ← split record_delimiter output_str;
  Ok (map strip parts).

(** Lines 241-246: the tokens of one non-empty record. *)
Definition tokenize (tuple_delimiter rec : str) : result (list str) :=
  let rec :=
    if startswith (lit "(") rec && endswith (lit ")") rec
    then slice rec 1 (-1) else rec in
  let rec := strip rec in
  parts ← split tuple_delimiter rec;
  Ok (map strip parts).

(** Line 251. *)
Definition record_type (token : str) : str :=
  lower (strip_chars [" "%char; dquote; squote] token).

(** Lines 237-285: the body of the loop for one record; [None] when the
    body ends in [continue] without appending. *)
Definition parse_record (tuple_delimiter rec : str) : result (option record) :=
  match rec with
  | [] => Ok None
  | _ =>
      tokens ← tokenize tuple_delimiter rec;
      match tokens with
      | [] => Ok None
      | token0 :: _ =>
          let rec_type := record_type token0 in
          if str_eqb rec_type (lit "entity") then
            match tokens with
            | [_; t1; t2; t3] => Ok (Some (Entity t1 t2 t3))
            | _ => Ok None
            end
          else if str_eqb rec_type (lit "relationship") then
            match tokens with
            | [_; t1; t2; t3; t4] =>
                strength ← coerce_strength t4;
                Ok (Some (Relationship t1 t2 t3 strength))
            | _ => Ok None
            end
          else Ok None
      end
  end.

(** Lines 235-285: the loop over [raw_records]. *)
Fixpoint parse_loop (tuple_delimiter : str) (records : list str)
    (parsed_records : list record) : result (list record) :=
  match records with
  | [] => Ok parsed_records
  | rec :: records' =>
      r ← parse_record tuple_delimiter rec;
      parse_loop tuple_delimiter records'
        (match r with
         | Some x => parsed_records ++ [x]
         | None => parsed_records
         end)
  end.

Definition parse_extraction_output (output_str : str)
    (record_delimiter tuple_delimiter : option str)
    : result (list record * list record) :=
  let output_str := strip_completion output_str in
  let output_str := strip output_str in
  let record_delimiter := resolve_record_delimiter output_str record_delimiter in
  let tuple_delimiter := resolve_tuple_delimiter output_str tuple_delimiter in
  records ← raw_records output_str record_delimiter;
  parsed_records ← parse_loop tuple_delimiter records [];
  let nodes := filter (fun el => is_entity el = true) parsed_records in
  let relationships := filter (fun el => is_relationship el = true) parsed_records in
  Ok (nodes, relationships).

End WithFloat.

(** The expected format of the docstring of [parse_extraction_output]:
    [("entity"<td><name><td><type><td><description>)] and
    [("relationship"<td><source><td><target><td><description><td><strength>)],
    the records separated by the record delimiter.  A record to serialize
    is the list of its fields after the first token. *)
Inductive raw_record : Set :=
  | RawEntity (name type description : str)
  | RawRelationship (source target description strength : str).

Definition fields (r : raw_record) : list str :=
  match r with
  | RawEntity n t d => [n; t; d]
  | RawRelationship s t d w => [s; t; d; w]
  end.

Definition head_token (r : raw_record) : str :=
  match r with
  | RawEntity _ _ _ => dquote :: lit "entity" ++ [dquote]
  | RawRelationship _ _ _ _ => dquote :: lit "relationship" ++ [dquote]
  end.

(** [sep.join(parts)] *)
Fixpoint join (sep : str) (parts : list str) : str :=
  match parts with
  | [] => []
  | [x] => x
  | x :: parts' => x ++ sep ++ join sep parts'
  end.

Definition serialize_body (td : str) (r : raw_record) : str :=
  join td (head_token r :: fields r).

Definition serialize_record (td : str) (r : raw_record) : str :=
  lit "(" ++ serialize_body td r ++ lit ")".

Definition serialize (rd td : str) (rs : list raw_record) : str :=
  join rd (map (serialize_record td) rs).

(** A text between one pair of parentheses. *)
Definition bracketed (s : str) : Prop :=
  exists body, s = "("%char :: body ++ [")"%char].

(** A record that the format can carry: its fields have no whitespace at
    either end, its last field is not empty, and the delimiters occur in
    the serialized text only where [serialize] writes them. *)
Definition well_formed (rd td : str) (r : raw_record) : Prop :=
  Forall (fun f => strip f = f) (fields r)
  /\ last (fields r) <> Some []
  /\ Forall (delimited td) (head_token r :: fields r)
  /\ delimited rd (serialize_record td r).

#[global] Instance well_formed_dec rd td r : Decision (well_formed rd td r).
Proof. unfold well_formed. apply _. Defined.

(** The records a caller gets for the raw record [r] when the round trip
    succeeds: the same fields, the strength as [float] coerces it. *)
Definition strength_of (float : str -> option pyfloat) (token : str) : strength :=
  match float token with
  | Some f =>
      if is_integer f
      then match int_of_float f with Ok z => SInt z | Raise _ => SStr token end
      else SFloat f
  | None => SStr token
  end.

Definition expected (float : str -> option pyfloat) (r : raw_record) : record :=
  match r with
  | RawEntity n t d => Entity n t d
  | RawRelationship s t d w => Relationship s t d (strength_of float w)
  end.

(** The rule of the specification for one record, on its tokens: the
    first token selects the shape, [entity] with exactly 4 fields,
    [relationship] with exactly 5; everything else is dropped. *)
Definition select (float : str -> option pyfloat) (tokens : list str)
    : option record :=
  match tokens with
  | [] => None
  | token0 :: _ =>
      if decide (record_type token0 = lit "entity") then
        if decide (length tokens = 4%nat) then
          Some (Entity (tokens !!! 1%nat) (tokens !!! 2%nat) (tokens !!! 3%nat))
        else None
      else if decide (record_type token0 = lit "relationship") then
        if decide (length tokens = 5%nat) then
          Some (Relationship (tokens !!! 1%nat) (tokens !!! 2%nat)
                  (tokens !!! 3%nat) (strength_of float (tokens !!! 4%nat)))
        else None
      else None
  end.

(** The tokens of a record: one layer of parentheses removed, split on the
    tuple delimiter, every field trimmed. *)
Definition tokens_of (tuple_delimiter rec : str) : list str :=
  let rec :=
    if startswith (lit "(") rec && endswith (lit ")") rec
    then slice rec 1 (-1) else rec in
  map strip (split_go tuple_delimiter 0 [] (strip rec)).

Definition survivor (float : str -> option pyfloat) (tuple_delimiter rec : str)
    : option record :=
  match rec with
  | [] => None
  | _ => select float (tokens_of tuple_delimiter rec)
  end.

(** The detection policy of the specification, on a text. *)
Definition detect_record_delimiter (text : str) : str :=
  if contains record_placeholder text then record_placeholder
  else if contains (lit "|") text then lit "|"
  else newline.

Definition detect_tuple_delimiter (text : str) : str :=
  if contains tuple_placeholder text then tuple_placeholder
  else if contains (lit ";") text then lit ";"
  else tab.

(** A record whose fields have no white space at either end; for the
    strength, when it is kept as a string. *)
Definition trimmed_fields (r : record) : Prop :=
  match r with
  | Entity n t d => strip n = n /\ strip t = t /\ strip d = d
  | Relationship s t d w =>
      strip s = s /\ strip t = t /\ strip d = d
      /\ forall x, w = SStr x -> strip x = x
  end.

(** Texts used as concrete inputs. *)
Module Examples.

Definition quoted (s : string) : str := dquote :: lit s ++ [dquote].

(** [("entity"|A|TYPE|desc)#("entity"|B|TYPE)#("entity"|C|TYPE|desc2)] *)
Definition three_records : str :=
  lit "(" ++ quoted "entity" ++ lit "|A|TYPE|desc)#("
  ++ quoted "entity" ++ lit "|B|TYPE)#("
  ++ quoted "entity" ++ lit "|C|TYPE|desc2)".

(** [("relationship";A;B;x;9)] *)
Definition one_relationship : str :=
  lit "(" ++ quoted "relationship" ++ lit ";A;B;x;9)".

(** An entity whose name is written with a leading blank. *)
Definition padded : list raw_record :=
  [RawEntity (lit " A") (lit "T") (lit "d")].

Definition two_kinds : list raw_record :=
  [RawEntity (lit "A") (lit "T") (lit "first");
   RawRelationship (lit "A") (lit "B") (lit "knows") (lit "2.5");
   RawEntity (lit "B") (lit "T") (lit "second");
   RawRelationship (lit "B") (lit "A") (lit "knows") (lit "9")].

(** Two records around a record placeholder that only appears once the
    completion marker inside it is removed. *)
Definition hidden_placeholder : str :=
  serialize_record (lit ";") (RawEntity (lit "A") (lit "T") (lit "d"))
  ++ lit "{record_{completion_delimiter}delimiter}"
  ++ serialize_record (lit ";") (RawEntity (lit "B") (lit "T") (lit "e")).

(** An answer in the format that [create_extraction_prompt] asks for: the
    records of [two_kinds] between ["|"], the fields between [";"], and the
    completion delimiter of the prompt, two newlines, at the end. *)
Definition prompt_answer : str :=
  serialize (lit "|") (lit ";") two_kinds ++ newline ++ newline.

End Examples.

End Parser.

(** ** utils_strand.py: [chunk_text] *)

Module Chunk.
Import PyStr.

Definition space : ascii := " "%char.

(** The inner [while left_index >= 0] loop, entered with
    [left_index = n - 1]: it returns the value of [prev_whitespace] when
    the loop is left.  [text[left_index]] raises [IndexError] beyond the
    end of the text. *)
Fixpoint scan_left (text : str) (n : nat) : result Z :=
  match n with
  | O => Ok 0
  | S k =>
      match text !! k with
      | None => Raise IndexError
      | Some c =>
          if ascii_eqb c space then Ok (Z.of_nat k) else scan_left text k
      end
  end.

(** One iteration of the outer loop at [index]: the chunk appended and the
    next value of [index]. *)
Definition chunk_step (text : str) (chunk_size overlap : Z)
    (split_on_whitespace_only : bool) (index : Z) : result (str * Z) :=
  if split_on_whitespace_only then
    prev_whitespace ← scan_left text (Z.to_nat (index - overlap + 1));
    let next_whitespace := find_from [space] text (index + chunk_size) in
    let next_whitespace :=
      if next_whitespace =? -1 then len text else next_whitespace in
    let chunk := strip (slice text prev_whitespace next_whitespace) in
    Ok (chunk, next_whitespace + 1)
  else
    let start := Z.max 0 (index - overlap + 1) in
    let end_ := Z.min (index + chunk_size + overlap) (len text) in
    let chunk := strip (slice text start end_) in
    Ok (chunk, index + chunk_size).

(** The [while index < len(text)] loop; [None] when [fuel] iterations were
    not enough to leave it. *)
Fixpoint chunk_loop (fuel : nat) (text : str) (chunk_size overlap : Z)
    (split_on_whitespace_only : bool) (index : Z) (chunks : list str)
    : option (result (list str)) :=
  if index <? len text then
    match fuel with
    | O => None
    | S fuel' =>
        match chunk_step text chunk_size overlap split_on_whitespace_only index with
        | Raise e => Some (Raise e)
        | Ok (chunk, index') =>
            chunk_loop fuel' text chunk_size overlap split_on_whitespace_only
              index' (chunks ++ [chunk])
        end
    end
  else Some (Ok chunks).

Definition chunk_text (fuel : nat) (text : str) (chunk_size overlap : Z)
    (split_on_whitespace_only : bool) : option (result (list str)) :=
  chunk_loop fuel text chunk_size overlap split_on_whitespace_only 0 [].

(** The chunk number [i] of the branch without [split_on_whitespace_only]:
    lines 98-100 at [index = i * chunk_size]. *)
Definition window (text : str) (chunk_size overlap : Z) (i : nat) : str :=
  let index := Z.of_nat i * chunk_size in
  strip (slice text (Z.max 0 (index - overlap + 1))
           (Z.min (index + chunk_size + overlap) (len text))).

(** The length of the text divided by [chunk_size], rounded up. *)
Definition chunk_count (text : str) (chunk_size : Z) : nat :=
  Z.to_nat ((len text + chunk_size - 1) / chunk_size).

End Chunk.

(** ** tools.py: [extract_json] and [generate_community_report_with_llm] *)

Module Json.
Import PyStr PyFloat.

(** The values [json.loads] returns.  A [dict] keeps its keys in
    insertion order. *)
#[warnings="-register-all"]
Inductive json : Set :=
  | JNull
  | JBool (b : bool)
  | JInt (z : Z)
  | JFloat (f : pyfloat)
  | JStr (s : str)
  | JList (l : list json)
  | JDict (d : list (str * json)).

Definition newline : ascii := "010"%char.
Definition fence : str := lit "```".
Definition fence_json : str := lit "```json".

(** The literal [5.0]. *)
Definition five : pyfloat := round64 false 5 0.

(** Lines 700-706. *)
Definition fallback : json :=
  JDict [(lit "title", JStr (lit "Unknown Community"));
         (lit "summary", JStr (lit "Failed to parse community summary"));
         (lit "rating", JFloat five);
         (lit "rating_explanation",
          JStr (lit "Default rating due to parsing failure"));
         (lit "findings", JList [])].

(** *** The regular expression of line 652

    [re.search(r'```json\s*\n(.*?)\n```', text, re.DOTALL)], as the
    backtracking matcher runs it. *)

(** The pattern after [\s*] has taken [k] characters of [rest]: a newline,
    then the shortest group that is followed by a newline and a fence. *)
Definition group_after (rest : str) (k : nat) : option str :=
  match drop k rest with
  | c :: body =>
      if ascii_eqb c newline
      then j ← find (newline :: fence) body; Some (take j body)
      else None
  | [] => None
  end.

(** [\s*] is greedy: it gives back one character at a time. *)
Fixpoint backtrack (rest : str) (k : nat) : option str :=
  match group_after rest k with
  | Some g => Some g
  | None =>
      match k with
      | O => None
      | S k' => backtrack rest k'
      end
  end.

Fixpoint space_run (s : str) : nat :=
  match s with
  | c :: s' => if isspace c then S (space_run s') else O
  | [] => O
  end.

(** The match at the start of [s], if any: its group 1. *)
Definition match_here (s : str) : option str :=
  if startswith fence_json s
  then let rest := drop (length fence_json) s in
       backtrack rest (space_run rest)
  else None.

(** The leftmost match: [json_match.group(1)], or [None]. *)
Fixpoint fence_search (s : str) : option str :=
  match match_here s with
  | Some g => Some g
  | None =>
      match s with
      | [] => None
      | _ :: s' => fence_search s'
      end
  end.

(** *** The scans of lines 660-673 and 680-693 *)

(** The [for] loop over [text[start:]]: the number of characters up to
    and including the one at which the loop breaks, [None] when it runs to
    the end of the text. *)
Fixpoint scan_balanced (opening closing : ascii) (count : Z) (s : str)
    : option nat :=
  match s with
  | [] => None
  | c :: s' =>
      if ascii_eqb c opening
      then S <$> scan_balanced opening closing (count + 1) s'
      else if ascii_eqb c closing
      then let count := count - 1 in
           if count =? 0 then Some 1%nat
           else S <$> scan_balanced opening closing count s'
      else S <$> scan_balanced opening closing count s'
  end.

(** [json_str] when [opening] occurs in the text ([text[start:end]], empty
    when the loop did not break), [None] when it does not occur. *)
Definition balanced_span (opening closing : ascii) (text : str) : option str :=
  start ← find [opening] text;
  let rest := drop start text in
  Some (match scan_balanced opening closing 0 rest with
        | Some n => take n rest
        | None => []
        end).

(** The nesting depth at the end of [s], as the scan counts it: the
    occurrences of [opening] minus those of [closing]. *)
Fixpoint depth (opening closing : ascii) (s : str) : Z :=
  match s with
  | [] => 0
  | c :: s' =>
      (if ascii_eqb c opening then 1
       else if ascii_eqb c closing then -1 else 0)
      + depth opening closing s'
  end.

(** Line 645. *)
Definition unfenced (text : str) : str :=
  strip (removesuffix fence (removeprefix fence_json text)).

(** What an LLM backend returns: an object with a [text] attribute, an
    object with a [content] attribute, a [str], or another object, given
    by its [str()]. *)
Inductive response : Set :=
  | WithText (text : str)
  | WithContent (content : str)
  | Plain (s : str)
  | Other (repr : str).

(** Lines 636-641 and 851-856. *)
Definition to_text (r : response) : str :=
  match r with
  | WithText s => s
  | WithContent s => s
  | Plain s => s
  | Other s => s
  end.

Section WithDecoder.

(** [json.loads] on a string, of the standard library; [None] stands for
    [json.JSONDecodeError]. *)
Variable json_loads : str -> option json.

Definition loads (s : str) : result json :=
  match json_loads s with
  | Some v => Ok v
  | None => Raise JSONDecodeError
  end.

(** [json.loads] on a Python object: anything but a string raises
    [TypeError]. *)
Definition loads_object (v : json) : result json :=
  match v with
  | JStr s => loads s
  | _ => Raise TypeError
  end.

(** One [try ... except json.JSONDecodeError: pass] block: [Some v] when
    the block returns [v], [None] when control reaches the next block. *)
Definition attempt (block : result (option json)) : result (option json) :=
  catch JSONDecodeError block (Ok None).

Definition parse_candidate (candidate : option str) : result (option json) :=
  match candidate with
  | Some s => v ← loads s; Ok (Some v)
  | None => Ok None
  end.

(** Lines 633-706. *)
Definition extract_json (text : response) : result json :=
  let text := to_text text in
  r ← attempt (v ← loads (unfenced text); Ok (Some v));
  match r with
  | Some v => Ok v
  | None =>
  r ← attempt (parse_candidate (strip <$> fence_search text));
  match r with
  | Some v => Ok v
  | None =>
  r ← attempt (parse_candidate (balanced_span "{" "}" text));
  match r with
  | Some v => Ok v
  | None =>
  r ← attempt (parse_candidate (balanced_span "[" "]" text));
  match r with
  | Some v => Ok v
  | None => Ok fallback
  end end end end.

(** The cascade in the words of the specification: the texts tried, in
    order, and the first of them that parses. *)
Definition candidates (text : str) : list str :=
  [unfenced text]
  ++ option_list (strip <$> fence_search text)
  ++ option_list (balanced_span "{" "}" text)
  ++ option_list (balanced_span "[" "]" text).

Definition first_parse (text : str) : json :=
  default fallback (head (omap json_loads (candidates text))).

Section WithBackend.

Variables nodes_t relationships_t : Type.
Variable UTILS_AVAILABLE STRANDS_AVAILABLE : bool.
Variable get_summarize_community_prompt : nodes_t -> relationships_t -> str.
(** The call of the language model. *)
Variable chat_bedrock : str -> result response.

(** Lines 829-867. *)
Definition generate_community_report_with_llm
    (nodes : nodes_t) (relationships : relationships_t) : result json :=
  if negb UTILS_AVAILABLE then Raise RuntimeError
  else
    let prompt := get_summarize_community_prompt nodes relationships in
    catch_all
      (response ←
         (if STRANDS_AVAILABLE
          then response ← chat_bedrock prompt; Ok (to_text response)
          else Raise RuntimeError);
       json_str ← extract_json (Plain response);
       loads_object json_str)
      (Ok (JDict [])).

End WithBackend.
End WithDecoder.

End Json.

(** ** tools.py: [extract_entities_with_llm] *)

Module Extraction.
Import PyStr PyFloat Parser Json.

Section WithBackend.

Variable float : str -> option pyfloat.
Variable UTILS_AVAILABLE STRANDS_AVAILABLE : bool.
Variable create_extraction_prompt : str -> str -> str.
(** The call of the language model. *)
Variable chat_bedrock : str -> result response.

(** Lines 789-826. *)
Definition extract_entities_with_llm (text entity_types : str)
    : result (list record * list record) :=
  if negb UTILS_AVAILABLE then Raise RuntimeError
  else
    let prompt := create_extraction_prompt entity_types text in
    catch_all
      (response ←
         (if STRANDS_AVAILABLE
          then response ← chat_bedrock prompt; Ok (to_text response)
          else Raise RuntimeError);
       parse_extraction_output float response None None)
      (Ok ([], [])).

End WithBackend.
End Extraction.

(** ** A decoder of JSON texts

    The grammar that [json.loads] accepts, for the texts whose strings
    stay below code point 256: the instance of [json_loads] at which the
    statements about [extract_json] are evaluated. *)

Module Decoder.
Import PyStr PyFloat Json.

Definition dquote : ascii := "034"%char.
Definition backslash : ascii := "092"%char.

Definition is_ws (c : ascii) : bool :=
  ascii_eqb c " " || ascii_eqb c "009" || ascii_eqb c "010" || ascii_eqb c "013".

Definition skip_ws (s : str) : str := lstrip_by is_ws s.

Definition hex_val (c : ascii) : option Z :=
  let n := Z.of_N (code c) in
  if (48 <=? n) && (n <=? 57) then Some (n - 48)
  else if (97 <=? n) && (n <=? 102) then Some (n - 87)
  else if (65 <=? n) && (n <=? 70) then Some (n - 55)
  else None.

Definition unescape (c : ascii) : option ascii :=
  if ascii_eqb c dquote then Some dquote
  else if ascii_eqb c backslash then Some backslash
  else if ascii_eqb c "/" then Some "/"%char
  else if ascii_eqb c "b" then Some "008"%char
  else if ascii_eqb c "f" then Some "012"%char
  else if ascii_eqb c "n" then Some "010"%char
  else if ascii_eqb c "r" then Some "013"%char
  else if ascii_eqb c "t" then Some "009"%char
  else None.

(** The characters of a string after its opening quote. *)
Fixpoint scanstring (acc : str) (s : str) : option (str * str) :=
  match s with
  | [] => None
  | c :: s' =>
      if ascii_eqb c dquote then Some (rev acc, s')
      else if ascii_eqb c backslash then
        match s' with
        | e :: s'' =>
            if ascii_eqb e "u" then
              match s'' with
              | h1 :: h2 :: h3 :: h4 :: s3 =>
                  a ← hex_val h1; b ← hex_val h2;
                  c ← hex_val h3; d ← hex_val h4;
                  let n := ((a * 16 + b) * 16 + c) * 16 + d in
                  if n <? 256
                  then scanstring (ascii_of_N (Z.to_N n) :: acc) s3
                  else None
              | _ => None
              end
            else
              match unescape e with
              | Some x => scanstring (x :: acc) s''
              | None => None
              end
        | [] => None
        end
      else if (code c <? 32)%N then None
      else scanstring (c :: acc) s'
  end.

Fixpoint digits (acc cnt : Z) (s : str) : Z * Z * str :=
  match s with
  | c :: s' =>
      match digit_val c with
      | Some d => digits (10 * acc + d) (cnt + 1) s'
      | None => (acc, cnt, s)
      end
  | [] => (acc, cnt, s)
  end.

Definition starts_with_digit (s : str) : bool :=
  match s with
  | c :: _ => bool_decide (is_Some (digit_val c))
  | [] => false
  end.

(** A number: an optional minus, [0] or digits that do not begin with [0],
    an optional fraction (a point and digits), an optional exponent. *)
Definition number (s : str) : option (json * str) :=
  let '(neg, s1) :=
    match s with
    | c :: r => if ascii_eqb c "-" then (true, r) else (false, s)
    | [] => (false, s)
    end in
  match s1 with
  | c :: r =>
      match digit_val c with
      | None => None
      | Some d =>
          let '(i, _, r1) := if d =? 0 then (0, 1, r) else digits d 1 r in
          let '(m, k, r2, has_frac) :=
            match r1 with
            | p :: r' =>
                if ascii_eqb p "." && starts_with_digit r'
                then let '(m, k, r2) := digits i 0 r' in (m, k, r2, true)
                else (i, 0, r1, false)
            | [] => (i, 0, r1, false)
            end in
          let '(x, r3, has_exp) :=
            match r2 with
            | e :: r' =>
                if ascii_eqb e "e" || ascii_eqb e "E" then
                  let '(eneg, r'') := sign r' in
                  if starts_with_digit r''
                  then let '(x, _, r3) := digits 0 0 r'' in
                       (if eneg then - x else x, r3, true)
                  else (0, r2, false)
                else (0, r2, false)
            | [] => (0, r2, false)
            end in
          if has_frac || has_exp
          then Some (JFloat (round64 neg m (x - k)), r3)
          else Some (JInt (if neg then - i else i), r3)
      end
  | [] => None
  end.

(** [d[k] = v] on a dict kept in insertion order. *)
Fixpoint dict_set (d : list (str * json)) (k : str) (v : json)
    : list (str * json) :=
  match d with
  | [] => [(k, v)]
  | (k', v') :: d' =>
      if str_eqb k' k then (k, v) :: d' else (k', v') :: dict_set d' k v
  end.

Definition word (w : string) (v : json) (s : str) : option (json * str) :=
  if startswith (lit w) s then Some (v, drop (length (lit w)) s) else None.

Fixpoint value (fuel : nat) (s : str) : option (json * str) :=
  match fuel with
  | O => None
  | S fuel' =>
      match s with
      | [] => None
      | c :: r =>
          if ascii_eqb c dquote then
            '(x, r') ← scanstring [] r; Some (JStr x, r')
          else if ascii_eqb c "{" then
            match skip_ws r with
            | c' :: r' =>
                if ascii_eqb c' "}" then Some (JDict [], r')
                else members fuel' (c' :: r') []
            | [] => None
            end
          else if ascii_eqb c "[" then
            match skip_ws r with
            | c' :: r' =>
                if ascii_eqb c' "]" then Some (JList [], r')
                else elements fuel' (c' :: r') []
            | [] => None
            end
          else
            match word "null" JNull s with
            | Some x => Some x
            | None =>
            match word "true" (JBool true) s with
            | Some x => Some x
            | None =>
            match word "false" (JBool false) s with
            | Some x => Some x
            | None =>
            match number s with
            | Some x => Some x
            | None =>
            match word "NaN" (JFloat NaN) s with
            | Some x => Some x
            | None =>
            match word "Infinity" (JFloat (Infinite false)) s with
            | Some x => Some x
            | None => word "-Infinity" (JFloat (Infinite true)) s
            end end end end end end
      end
  end
with members (fuel : nat) (s : str) (acc : list (str * json))
    : option (json * str) :=
  match fuel with
  | O => None
  | S fuel' =>
      match s with
      | q :: r =>
          if ascii_eqb q dquote then
            '(k, r1) ← scanstring [] r;
            match skip_ws r1 with
            | colon :: r2 =>
                if ascii_eqb colon ":" then
                  '(v, r3) ← value fuel' (skip_ws r2);
                  let acc := dict_set acc k v in
                  match skip_ws r3 with
                  | sep :: r4 =>
                      if ascii_eqb sep "," then members fuel' (skip_ws r4) acc
                      else if ascii_eqb sep "}" then Some (JDict acc, r4)
                      else None
                  | [] => None
                  end
                else None
            | [] => None
            end
          else None
      | [] => None
      end
  end
with elements (fuel : nat) (s : str) (acc : list json) : option (json * str) :=
  match fuel with
  | O => None
  | S fuel' =>
      '(v, r1) ← value fuel' s;
      let acc := acc ++ [v] in
      match skip_ws r1 with
      | sep :: r2 =>
          if ascii_eqb sep "," then elements fuel' (skip_ws r2) acc
          else if ascii_eqb sep "]" then Some (JList acc, r2)
          else None
      | [] => None
      end
  end.

(** A whole text: one value between optional whitespace. *)
Definition json_decode (s : str) : option json :=
  let s := skip_ws s in
  '(v, r) ← value (2 * length s + 2) s;
  match skip_ws r with
  | [] => Some v
  | _ => None
  end.

(** The fenced text of the specification:
    a fence with [json], a newline, [{"title":"X","rating":3}], a newline
    and a fence. *)
Definition title_x : str :=
  lit "{" ++ dquote :: lit "title" ++ dquote :: lit ":" ++ dquote :: lit "X"
  ++ dquote :: lit "," ++ dquote :: lit "rating" ++ dquote :: lit ":3}".

Definition fenced_title_x : str :=
  fence_json ++ [newline] ++ title_x ++ [newline] ++ fence.

Definition title_x_value : json :=
  JDict [(lit "title", JStr (lit "X")); (lit "rating", JInt 3)].

Definition plain_prose : str := lit "The community could not be summarised.".

(** A response with a sentence, the fenced object and a sentence. *)
Definition report_in_prose : str :=
  (lit "Here is the report:" ++ [newline]) ++ fence_json
  ++ newline :: title_x ++ (newline :: fence) ++ newline :: lit "Thank you.".

End Decoder.

(** ** tools.py: [calculate_communities] *)

Module Communities.

Local Open Scope nat_scope.

(** A row of the query of line 339: the name of an entity and the names
    collected from its neighbours, where a name can be [None]. *)
Definition row : Type := string * list (option string).

(** [d[k] = v] on a dict kept in insertion order. *)
Fixpoint dict_set {V} (d : list (string * V)) (k : string) (v : V)
    : list (string * V) :=
  match d with
  | [] => [(k, v)]
  | (k', v') :: d' =>
      if decide (k' = k) then (k, v) :: d' else (k', v') :: dict_set d' k v
  end.

(** Lines 349-354: the loop over the rows. *)
Fixpoint read_rows (rows : list row)
    (entities_data : list (string * list string)) (all_entities : gset string)
    : list (string * list string) * gset string :=
  match rows with
  | [] => (entities_data, all_entities)
  | (entity, cs) :: rows' =>
      let connections := omap id cs in
      read_rows rows'
        (dict_set entities_data entity connections)
        (all_entities ∪ {[entity]} ∪ list_to_set connections)
  end.

(** Lines 359-364: [find], with path compression.  [parent] is threaded
    through the calls; [None] when [fuel] nested calls were not enough. *)
Fixpoint find_rec (fuel : nat) (parent : gmap string string) (x : string)
    : option (gmap string string * string) :=
  match fuel with
  | O => None
  | S fuel' =>
      let parent :=
        match parent !! x with
        | None => <[x := x]> parent
        | Some _ => parent
        end in
      let px := default x (parent !! x) in
      if decide (px = x) then Some (parent, px)
      else
        '(parent, r) ← find_rec fuel' parent px;
        Some (<[x := r]> parent, r)
  end.

(** A chain of parent links passes through distinct keys of [parent]. *)
Definition find (parent : gmap string string) (x : string)
    : option (gmap string string * string) :=
  find_rec (S (size parent)) parent x.

(** Lines 366-369. *)
Definition union (parent : gmap string string) (x y : string)
    : option (gmap string string) :=
  '(parent, px) ← find parent x;
  '(parent, py) ← find parent y;
  Some (if decide (px = py) then parent else <[px := py]> parent).

(** Lines 373-374. *)
Fixpoint union_all (parent : gmap string string) (entity : string)
    (connections : list string) : option (gmap string string) :=
  match connections with
  | [] => Some parent
  | connected :: connections' =>
      parent ← union parent entity connected;
      union_all parent entity connections'
  end.

(** Lines 372-374. *)
Fixpoint union_loop (parent : gmap string string)
    (entities_data : list (string * list string)) : option (gmap string string) :=
  match entities_data with
  | [] => Some parent
  | (entity, connections) :: entities_data' =>
      parent ← union_all parent entity connections;
      union_loop parent entities_data'
  end.

(** Lines 380-382 on the dict [communities], kept in insertion order. *)
Fixpoint group_add (communities : list (string * list string))
    (root entity : string) : list (string * list string) :=
  match communities with
  | [] => [(root, [entity])]
  | (r, members) :: communities' =>
      if decide (r = root) then (r, members ++ [entity]) :: communities'
      else (r, members) :: group_add communities' root entity
  end.

(** Lines 378-382. *)
Fixpoint group_loop (parent : gmap string string) (entities : list string)
    (communities : list (string * list string))
    : option (list (string * list string)) :=
  match entities with
  | [] => Some communities
  | entity :: entities' =>
      '(parent, root) ← find parent entity;
      group_loop parent entities' (group_add communities root entity)
  end.

(** [sorted(groups, key=len, reverse=True)]: the sort is stable, so the
    result is the one of any stable sort; here by insertion, from the
    right. *)
Fixpoint insert_desc (g : list string) (sorted : list (list string))
    : list (list string) :=
  match sorted with
  | [] => [g]
  | h :: sorted' =>
      if decide (length g < length h) then h :: insert_desc g sorted'
      else g :: sorted
  end.

Definition sorted_desc (groups : list (list string)) : list (list string) :=
  foldr insert_desc [] groups.

(** Lines 388-390. *)
Definition assign_group (i : nat) (community : list string)
    (community_assignment : gmap string nat) : gmap string nat :=
  foldl (fun m entity => <[entity := i]> m) community_assignment community.

Fixpoint assign_loop (i : nat) (community_list : list (list string))
    (community_assignment : gmap string nat) : gmap string nat :=
  match community_list with
  | [] => community_assignment
  | community :: community_list' =>
      assign_loop (S i) community_list'
        (assign_group i community community_assignment)
  end.

(** Lines 405-406. *)
Definition histogram (sizes : list nat) : gmap nat nat :=
  foldl (fun d size => <[size := default 0 (d !! size) + 1]> d) ∅ sizes.

Definition list_max (l : list nat) : nat := foldr Nat.max 0 l.

Definition list_min (l : list nat) : nat :=
  match l with
  | [] => 0
  | x :: l' => foldr Nat.min x l'
  end.

(** The dict returned, with the data written to the store at lines
    393-400, the entities in the order of [community_assignment.items()]
    left aside. *)
Record outcome : Type := {
  community_assignment : gmap string nat;
  communityCount : nat;
  communityDistribution : gmap nat nat;
  nodeCount : nat;
  relationshipCount : nat;
  largest_community_size : nat;
  smallest_community_size : nat
}.

Definition entities_data (rows : list row) : list (string * list string) :=
  (read_rows rows [] ∅).1.

Definition all_entities (rows : list row) : gset string :=
  (read_rows rows [] ∅).2.

(** The dict [communities] after line 382.  The entities of the set
    [all_entities] are visited in the order of [elements], an enumeration
    of the set that lists each member once; nothing else is used of it. *)
Definition communities (rows : list row) : option (list (string * list string)) :=
  parent ← union_loop ∅ (entities_data rows);
  group_loop parent (elements (all_entities rows)) [].

Definition community_list (rows : list row) : option (list (list string)) :=
  groups ← communities rows;
  Some (sorted_desc groups.*2).

(** Lines 345-415, on the rows that the query returned. *)
Definition calculate_communities (rows : list row) : option outcome :=
  community_list ← community_list rows;
  let community_sizes := length <$> community_list in
  Some {|
    community_assignment := assign_loop 0 community_list ∅;
    communityCount := length community_list;
    communityDistribution := histogram community_sizes;
    nodeCount := size (all_entities rows);
    relationshipCount :=
      sum_list (length <$> (entities_data rows).*2) / 2;
    largest_community_size := list_max community_sizes;
    smallest_community_size := list_min community_sizes
  |}.

(** *** The graph of the rows *)

(** [v] is in the list of neighbours of [u]. *)
Definition adjacent (rows : list row) (u v : string) : Prop :=
  exists cs, (u, cs) ∈ rows /\ Some v ∈ cs.

(** Connected by a path of relationship edges, in either direction. *)
Definition connected (rows : list row) : relation string :=
  rtsc (adjacent rows).

(** An entity row, or a name inside some list of neighbours. *)
Definition mentioned (rows : list row) (e : string) : Prop :=
  (exists cs, (e, cs) ∈ rows) \/ (exists u, adjacent rows u e).

(** *** Parent links *)

(** [x] reaches the root [r] in [n] parent links; a name without entry
    in [parent] is a root, as [find] makes it one. *)
Inductive reach (parent : gmap string string) : string -> string -> nat -> Prop :=
  | reach_root x :
      parent !! x = None \/ parent !! x = Some x -> reach parent x x 0
  | reach_step x y r n :
      parent !! x = Some y -> y <> x -> reach parent y r n ->
      reach parent x r (S n).

Definition root (parent : gmap string string) (x r : string) : Prop :=
  exists n, reach parent x r n.

(** No cycle of parent links: every name has a root. *)
Definition forest (parent : gmap string string) : Prop :=
  forall x, exists r, root parent x r.

(** Two states of [parent] that give every name the same root. *)
Definition same_roots (p p' : gmap string string) : Prop :=
  forall x r, root p x r <-> root p' x r.

(** In the same tree. *)
Definition joined (parent : gmap string string) (x y : string) : Prop :=
  exists r, root parent x r /\ root parent y r.

(** The pairs that [union_loop] passes to [union], in order. *)
Definition edges (entities_data : list (string * list string))
    : list (string * string) :=
  entities_data ≫= fun '(entity, connections) => pair entity <$> connections.

Definition edge_of (es : list (string * string)) (u v : string) : Prop :=
  (u, v) ∈ es.

(** The invariant of the loop of unions: [parent] is a forest whose trees
    are the components of the edges processed. *)
Definition components_of (p : gmap string string) (es : list (string * string))
    : Prop :=
  forest p /\ forall a b, joined p a b <-> rtsc (edge_of es) a b.

(** The dict [communities] while the entities [l] have been visited: its
    keys are distinct roots, a group holds entities of its root, and the
    groups together hold [l]. *)
Definition grouping (p : gmap string string)
    (comm : list (string * list string)) (l : list string) : Prop :=
  NoDup comm.*1
  /\ (forall r ms, (r, ms) ∈ comm -> ms <> [] /\ forall e, e ∈ ms -> root p e r)
  /\ mjoin comm.*2 ≡ₚ l.

Definition by_size_desc (a b : list string) : Prop := (length b <= length a)%nat.

Definition row_data (r : row) : string * list string := (r.1, omap id r.2).

(** Four components, of sizes 5, 3, 3 and 1. *)
Definition sizes_5_3_3_1 : list row :=
  [("a1", [Some "a2"; Some "a3"]); ("a2", [Some "a1"]);
   ("a3", [Some "a1"; Some "a4"]); ("a4", [Some "a3"; Some "a5"]);
   ("a5", [Some "a4"]);
   ("b1", [Some "b2"]); ("b2", [Some "b1"; Some "b3"]); ("b3", [Some "b2"]);
   ("c1", [Some "c2"; Some "c3"]); ("c2", [Some "c1"]); ("c3", [Some "c1"]);
   ("d1", [])]%string.

(** [A] lists [B], but [B] does not list [A]. *)
Definition asymmetric : list row :=
  [("A", [Some "B"]); ("B", [])]%string.

(** A state of [parent]: [a] under [b] under the root [c]. *)
Definition chain : gmap string string :=
  {[ "a" := "b"; "b" := "c"; "c" := "c" ]}%string.

End Communities.

(** * Theorems *)

Import PyStr.

(** ** [chunk_text] *)

Section ChunkTermination.
Import Chunk.

Lemma find_le_length sub s i : find sub s = Some i -> (i <= length s)%nat.
Proof.
  revert i; induction s as [|c s IH]; intros i; simpl.
  - destruct (startswith sub []); [|discriminate]. intros [= <-]. lia.
  - destruct (startswith sub (c :: s)).
    + intros [= <-]. lia.
    + destruct (find sub s) as [j|]; simpl; [|discriminate].
      intros [= <-]. specialize (IH j eq_refl). lia.
Qed.

Lemma find_from_range sub s start :
  0 <= start ->
  find_from sub s start = -1 \/
  (start <= find_from sub s start <= len s).
Proof.
  intros Hs. unfold find_from.
  destruct (start <? 0) eqn:E; [apply Z.ltb_lt in E; lia|].
  destruct (len s <? start) eqn:E2; [by left|].
  apply Z.ltb_ge in E2.
  destruct (find sub (drop (Z.to_nat start) s)) as [i|] eqn:F; [|by left].
  right. apply find_le_length in F. rewrite length_drop in F.
  unfold len in *. lia.
Qed.

Lemma scan_left_ok text n :
  (n <= length text)%nat -> exists p, scan_left text n = Ok p.
Proof.
  induction n as [|k IH]; intros Hn; simpl; [by eexists|].
  destruct (text !! k) as [c|] eqn:L.
  - destruct (ascii_eqb c space); [by eexists|]. apply IH. lia.
  - apply lookup_ge_None in L. lia.
Qed.

Lemma chunk_step_progress text chunk_size overlap flag index :
  1 <= chunk_size -> 0 <= overlap -> 0 <= index < len text ->
  exists chunk index',
    chunk_step text chunk_size overlap flag index = Ok (chunk, index')
    /\ index < index'.
Proof.
  intros Hc Ho Hi. unfold chunk_step. destruct flag.
  - destruct (scan_left_ok text (Z.to_nat (index - overlap + 1))) as [p ->].
    { unfold len in Hi. lia. }
    simpl. do 2 eexists. split; [reflexivity|].
    destruct (find_from_range [space] text (index + chunk_size)) as [->| H];
      [lia | simpl; lia |].
    destruct (find_from [space] text (index + chunk_size) =? -1) eqn:E; lia.
  - do 2 eexists. split; [reflexivity|]. lia.
Qed.

Lemma chunk_loop_terminates text chunk_size overlap flag :
  1 <= chunk_size -> 0 <= overlap ->
  forall fuel index chunks,
    0 <= index -> (Z.to_nat (len text - index) <= fuel)%nat ->
    exists out,
      forall fuel', (fuel <= fuel')%nat ->
        chunk_loop fuel' text chunk_size overlap flag index chunks = Some (Ok out).
Proof.
  intros Hc Ho. induction fuel as [|fuel IH]; intros index chunks Hi Hf.
  - exists chunks. intros fuel' _.
    assert ((index <? len text) = false) as E by (apply Z.ltb_ge; lia).
    destruct fuel'; simpl; by rewrite E.
  - destruct (index <? len text) eqn:E.
    + apply Z.ltb_lt in E.
      destruct (chunk_step_progress text chunk_size overlap flag index)
        as (chunk & index' & Hstep & Hlt); [lia | lia | lia |].
      destruct (IH index' (chunks ++ [chunk])) as [out Hout]; [lia | lia |].
      exists out. intros [|fuel'] Hle; [lia|]. simpl.
      assert ((index <? len text) = true) as -> by (apply Z.ltb_lt; lia).
      rewrite Hstep. apply Hout; lia.
    + exists chunks. intros fuel' _. destruct fuel'; simpl; by rewrite E.
Qed.

(** C10: for every text, every [chunk_size >= 1] and [overlap >= 0], in
    both branches, each iteration of the loop of [chunk_text] runs without
    an exception and strictly increases [index], and [chunk_text] leaves
    the loop and returns a list of chunks as soon as it is given one
    iteration per character of the text. *)
Theorem chunk_text_terminates (text : str) (chunk_size overlap : Z) (flag : bool) :
  1 <= chunk_size -> 0 <= overlap ->
  (forall index, 0 <= index < len text ->
     exists chunk index',
       chunk_step text chunk_size overlap flag index = Ok (chunk, index')
       /\ index < index')
  /\ exists chunks,
       forall fuel, (length text <= fuel)%nat ->
         chunk_text fuel text chunk_size overlap flag = Some (Ok chunks).
Proof.
  intros Hc Ho. split.
  - intros index Hi. by apply chunk_step_progress.
  - destruct (chunk_loop_terminates text chunk_size overlap flag Hc Ho
                (length text) 0 []) as [out Hout].
    + lia.
    + unfold len. lia.
    + exists out. intros fuel Hf. by apply Hout.
Qed.

(** The theorem at the text "aa bb cc dd", chunk size 3 and overlap 1. *)
Lemma chunk_text_terminates_witness :
  (forall index, 0 <= index < len (lit "aa bb cc dd") ->
     exists chunk index',
       chunk_step (lit "aa bb cc dd") 3 1 true index = Ok (chunk, index')
       /\ index < index')
  /\ exists chunks,
       forall fuel, (length (lit "aa bb cc dd") <= fuel)%nat ->
         chunk_text fuel (lit "aa bb cc dd") 3 1 true = Some (Ok chunks).
Proof. apply (chunk_text_terminates (lit "aa bb cc dd") 3 1 true); lia. Defined.

End ChunkTermination.

(** ** Python strings: occurrences, splitting and trimming *)

Section StrFacts.

Lemma ascii_eqb_true a b : ascii_eqb a b = true <-> a = b.
Proof. apply Ascii.eqb_eq. Qed.

Lemma ascii_eqb_refl a : ascii_eqb a a = true.
Proof. by apply ascii_eqb_true. Qed.

Lemma str_eqb_true a b : str_eqb a b = true <-> a = b.
Proof.
  revert b; induction a as [|x a IH]; intros [|y b]; simpl; try easy.
  rewrite andb_true_iff, ascii_eqb_true, IH. split.
  - by intros [-> ->].
  - by intros [= -> ->].
Qed.

Lemma str_eqb_decide a b : str_eqb a b = bool_decide (a = b).
Proof.
  destruct (str_eqb a b) eqn:E.
  - apply str_eqb_true in E. by rewrite bool_decide_eq_true_2.
  - rewrite bool_decide_eq_false_2; [done|].
    intros H. apply str_eqb_true in H. congruence.
Qed.

Lemma startswith_true p s : startswith p s = true <-> exists r, s = p ++ r.
Proof.
  revert s; induction p as [|x p IH]; intros s; simpl.
  - split; [by exists s | done].
  - destruct s as [|y s].
    + split; [done | by intros [r Hr]].
    + rewrite andb_true_iff, ascii_eqb_true, IH. split.
      * intros [-> [r ->]]. by exists r.
      * intros [r [= -> ->]]. split; [done | by exists r].
Qed.

Lemma startswith_app p r : startswith p (p ++ r) = true.
Proof. apply startswith_true. by exists r. Qed.

Lemma startswith_mono p a b : startswith p a = true -> startswith p (a ++ b) = true.
Proof.
  rewrite !startswith_true. intros [r ->]. exists (r ++ b). by rewrite app_assoc.
Qed.

Lemma startswith_app_long p a b :
  (length p <= length a)%nat -> startswith p (a ++ b) = startswith p a.
Proof.
  revert a; induction p as [|x p IH]; intros [|y a] Hl; simpl in *; try done.
  - lia.
  - rewrite IH; [done | lia].
Qed.

Lemma startswith_length p s : startswith p s = true -> (length p <= length s)%nat.
Proof.
  rewrite startswith_true. intros [r ->]. rewrite length_app. lia.
Qed.

Lemma contains_true p s : contains p s = true <-> exists a b, s = a ++ p ++ b.
Proof.
  induction s as [|c s IH]; simpl.
  - rewrite orb_false_r, startswith_true. split.
    + intros [r Hr]. by exists [], r.
    + intros (a & b & H). destruct a; [by exists b|]. discriminate.
  - rewrite orb_true_iff, startswith_true, IH. split.
    + intros [[r Hr] | (a & b & ->)]; [by exists [], r | by exists (c :: a), b].
    + intros (a & b & H). destruct a as [|x a]; simpl in H.
      * left. by exists b.
      * injection H as -> ->. right. by exists a, b.
Qed.

Lemma contains_false p s :
  contains p s = false <-> forall a b, s <> a ++ p ++ b.
Proof.
  rewrite <- not_true_iff_false, contains_true. split.
  - intros H a b E. apply H. by exists a, b.
  - intros H (a & b & E). by apply (H a b).
Qed.

(** [find] returns the first position where the pattern starts. *)
Lemma find_Some sub s n :
  find sub s = Some n ->
  startswith sub (drop n s) = true
  /\ forall i, (i < n)%nat -> startswith sub (drop i s) = false.
Proof.
  revert n; induction s as [|c s IH]; intros n; simpl.
  - destruct (startswith sub []) eqn:E; [|done]. intros [= <-]. split; [done|lia].
  - destruct (startswith sub (c :: s)) eqn:E.
    + intros [= <-]. split; [done | lia].
    + destruct (find sub s) as [k|]; [|done]. simpl. intros [= <-].
      destruct (IH k eq_refl) as [H1 H2]. split; [done|].
      intros [|i] Hi; simpl; [done | apply H2; lia].
Qed.

Lemma find_None sub s i : find sub s = None -> startswith sub (drop i s) = false.
Proof.
  revert i; induction s as [|c s IH]; intros i; simpl.
  - destruct (startswith sub []) eqn:E; [done|]. by rewrite drop_nil.
  - destruct (startswith sub (c :: s)) eqn:E; [done|].
    destruct (find sub s) as [k|] eqn:F; [done|]. intros _.
    destruct i; simpl; [done | by apply IH].
Qed.

Lemma find_None_contains sub s : find sub s = None <-> contains sub s = false.
Proof.
  induction s as [|c s IH]; simpl.
  - destruct (startswith sub []); simpl; split; congruence.
  - destruct (startswith sub (c :: s)); simpl; [split; congruence|].
    rewrite <- IH. destruct (find sub s); simpl; split; congruence.
Qed.

(** Passing the rest of an occurrence. *)
Lemma split_go_skip sep k cur s :
  (k <= length s)%nat -> split_go sep k cur s = split_go sep 0 cur (drop k s).
Proof.
  revert s; induction k as [|k IH]; intros s Hk; [done|].
  destruct s as [|c s]; simpl in *; [lia|]. apply IH. lia.
Qed.

(** No occurrence starts inside [f]: the whole of [f] joins the piece. *)
Lemma split_go_prefix sep f cur rest :
  (forall i, (i < length f)%nat -> startswith sep (drop i (f ++ rest)) = false) ->
  split_go sep 0 cur (f ++ rest) = split_go sep 0 (rev f ++ cur) rest.
Proof.
  revert cur; induction f as [|c f IH]; intros cur H; [done|].
  pose proof (H 0%nat ltac:(simpl; lia)) as H0. simpl in H0.
  simpl. rewrite H0, IH.
  - by rewrite <- app_assoc.
  - intros i Hi. apply (H (S i)). simpl. lia.
Qed.

Lemma delimited_no_start sep f rest i :
  delimited sep f -> (i < length f)%nat ->
  startswith sep (drop i (f ++ sep ++ rest)) = false.
Proof.
  intros Hd Hi. apply find_Some in Hd as [_ Hd]. specialize (Hd i Hi).
  rewrite app_assoc, drop_app_le by (rewrite length_app; lia).
  rewrite startswith_app_long; [done|].
  rewrite length_drop, length_app. lia.
Qed.

Lemma delimited_no_start_last sep f i :
  delimited sep f -> (i < length f)%nat ->
  startswith sep (drop i f) = false.
Proof.
  intros Hd Hi. apply find_Some in Hd as [_ Hd]. specialize (Hd i Hi).
  rewrite drop_app_le in Hd by lia.
  destruct (startswith sep (drop i f)) eqn:E; [|done].
  by rewrite (startswith_mono _ _ _ E) in Hd.
Qed.

Lemma split_go_delimited sep f rest :
  sep <> [] -> delimited sep f ->
  split_go sep 0 [] (f ++ sep ++ rest) = f :: split_go sep 0 [] rest.
Proof.
  intros Hne Hd. rewrite split_go_prefix.
  - destruct sep as [|c sep]; [done|]. rewrite app_nil_r.
    pose proof (startswith_app (c :: sep) rest) as E.
    change ((c :: sep) ++ rest) with (c :: sep ++ rest) in *.
    cbn [split_go]. rewrite E, rev_involutive.
    f_equal. rewrite split_go_skip.
    + simpl. by rewrite Nat.sub_0_r, drop_app_length.
    + simpl. rewrite length_app. lia.
  - intros i Hi. by apply delimited_no_start.
Qed.

Lemma split_go_last sep f :
  delimited sep f -> split_go sep 0 [] f = [f].
Proof.
  intros Hd. rewrite <- (app_nil_r f) at 1. rewrite split_go_prefix.
  - simpl. by rewrite app_nil_r, rev_involutive.
  - intros i Hi. rewrite app_nil_r. by apply delimited_no_start_last.
Qed.

Lemma split_go_nonempty sep k cur s : split_go sep k cur s <> [].
Proof.
  revert k cur; induction s as [|c s IH]; intros k cur; simpl; [done|].
  destruct k; [|apply IH]. destruct (startswith sep (c :: s)); [done | apply IH].
Qed.

Lemma split_Ok sep s : sep <> [] -> split sep s = Ok (split_go sep 0 [] s).
Proof. by destruct sep. Qed.

Lemma lstrip_by_head p s c t : lstrip_by p s = c :: t -> p c = false.
Proof.
  induction s as [|x s IH]; simpl; [done|].
  destruct (p x) eqn:E; [done|]. by intros [= <- _].
Qed.

Lemma lstrip_by_id p c s : p c = false -> lstrip_by p (c :: s) = c :: s.
Proof. intros H. simpl. by rewrite H. Qed.

Lemma strip_by_bracketed p a s b :
  p a = false -> p b = false -> strip_by p (a :: s ++ [b]) = a :: s ++ [b].
Proof.
  intros Ha Hb. unfold strip_by, rstrip_by. rewrite lstrip_by_id by done.
  assert (rev (a :: s ++ [b]) = b :: rev (a :: s)) as E.
  { change (a :: s ++ [b]) with ((a :: s) ++ [b]). by rewrite rev_app_distr. }
  rewrite E, lstrip_by_id by done. rewrite <- E. apply rev_involutive.
Qed.

Lemma strip_by_nil p : strip_by p [] = [].
Proof. done. Qed.

Lemma length_lstrip_by p s : (length (lstrip_by p s) <= length s)%nat.
Proof.
  induction s as [|c s IH]; simpl; [lia|]. destruct (p c); simpl; lia.
Qed.

(** A trimmed non-empty string begins and ends with a character that the
    trimming keeps. *)
Lemma strip_by_fixed_ends p f :
  strip_by p f = f -> f <> [] ->
  (exists c t, f = c :: t /\ p c = false)
  /\ (exists t c, f = t ++ [c] /\ p c = false).
Proof.
  intros Hf Hne. unfold strip_by, rstrip_by in Hf. split.
  - destruct f as [|x f]; [done|]. exists x, f. split; [done|].
    destruct (p x) eqn:Hx; [|done]. exfalso.
    apply (f_equal (@length ascii)) in Hf. rewrite length_rev in Hf.
    pose proof (length_lstrip_by p (rev (lstrip_by p (x :: f)))) as H1.
    rewrite length_rev in H1. simpl in *. rewrite Hx in *.
    pose proof (length_lstrip_by p f). lia.
  - destruct (lstrip_by p (rev (lstrip_by p f))) as [|c t] eqn:E.
    + simpl in Hf. congruence.
    + apply lstrip_by_head in E as Hc. simpl in Hf.
      exists (rev t), c. done.
Qed.

Lemma slice_inner a body b : slice (a :: body ++ [b]) 1 (-1) = body.
Proof.
  unfold slice, clip, len.
  assert ((1 <? 0) = false) as -> by done.
  assert ((-1 <? 0) = true) as -> by done.
  simpl length. rewrite length_app. simpl length.
  replace (Z.to_nat (Z.min 1 (Z.of_nat (S (length body + 1))))) with 1%nat by lia.
  replace (Z.to_nat (Z.max 0 (-1 + Z.of_nat (S (length body + 1)))))
    with (S (length body)) by lia.
  replace (S (length body) - 1)%nat with (length body) by lia.
  change (drop 1 (a :: body ++ [b])) with (body ++ [b]).
  by rewrite take_app_length.
Qed.

(** Trimming does not change whether a pattern occurs, when the pattern
    begins and ends with a character that the trimming keeps. *)
Lemma bool_eq_iff (a b : bool) : (a = true <-> b = true) -> a = b.
Proof. destruct a, b; intuition congruence. Qed.

Lemma contains_rev sub s : contains (rev sub) (rev s) = contains sub s.
Proof.
  apply bool_eq_iff. rewrite !contains_true. split.
  - intros (a & b & H). exists (rev b), (rev a).
    apply (f_equal (@rev ascii)) in H.
    by rewrite rev_involutive, !rev_app_distr, rev_involutive, <- app_assoc in H.
  - intros (a & b & ->). exists (rev b), (rev a).
    by rewrite !rev_app_distr, <- app_assoc.
Qed.

Lemma contains_lstrip_by p a sub s :
  p a = false -> contains (a :: sub) (lstrip_by p s) = contains (a :: sub) s.
Proof.
  intros Ha. induction s as [|c s IH]; [done|].
  cbn [lstrip_by]. destruct (p c) eqn:Hc; [|done].
  rewrite IH. cbn [contains startswith].
  destruct (ascii_eqb a c) eqn:E; [|done].
  apply ascii_eqb_true in E. congruence.
Qed.

Lemma contains_strip_by p a sub b s :
  p a = false -> p b = false ->
  contains (a :: sub ++ [b]) (strip_by p s) = contains (a :: sub ++ [b]) s.
Proof.
  intros Ha Hb. unfold strip_by, rstrip_by.
  assert (rev (a :: sub ++ [b]) = b :: rev (a :: sub)) as E.
  { change (a :: sub ++ [b]) with ((a :: sub) ++ [b]). by rewrite rev_app_distr. }
  rewrite <- contains_rev, rev_involutive, E, contains_lstrip_by by done.
  rewrite <- E, contains_rev. by apply contains_lstrip_by.
Qed.

Lemma contains_strip_by_char p a s :
  p a = false -> contains [a] (strip_by p s) = contains [a] s.
Proof.
  intros Ha. unfold strip_by, rstrip_by.
  rewrite <- contains_rev, rev_involutive. simpl rev at 1.
  rewrite contains_lstrip_by by done.
  change [a] with (rev [a]). rewrite contains_rev.
  by apply contains_lstrip_by.
Qed.

End StrFacts.

(** ** [parse_extraction_output] *)

Section ParserFacts.
Import PyFloat Parser.

Variable float : str -> option pyfloat.

Lemma coerce_strength_Ok token :
  coerce_strength float token = Ok (strength_of float token).
Proof.
  unfold coerce_strength, strength_of, py_float.
  destruct (float token) as [f|]; [|done]. simpl.
  destruct (is_integer f) eqn:E; [|done].
  destruct f; simpl in *; done.
Qed.

Lemma tokenize_Ok td rec :
  td <> [] -> tokenize td rec = Ok (tokens_of td rec).
Proof. intros H. unfold tokenize, tokens_of. by rewrite split_Ok. Qed.

Lemma tokens_of_nonempty td rec : tokens_of td rec <> [].
Proof.
  unfold tokens_of. intros H. apply fmap_nil_inv in H.
  by apply split_go_nonempty in H.
Qed.

(** The body of the loop never raises and agrees with the rule [select]. *)
Lemma parse_record_survivor td rec :
  td <> [] -> parse_record float td rec = Ok (survivor float td rec).
Proof.
  intros Htd. unfold parse_record, survivor. destruct rec as [|c rec]; [done|].
  rewrite tokenize_Ok by done. simpl.
  pose proof (tokens_of_nonempty td (c :: rec)) as Hne.
  destruct (tokens_of td (c :: rec)) as [|t0 ts]; [done|]. clear Hne.
  unfold select. rewrite !str_eqb_decide.
  destruct (decide (record_type t0 = lit "entity")) as [He|He].
  - rewrite bool_decide_eq_true_2 by done.
    destruct ts as [|t1 [|t2 [|t3 [|t4 ts]]]]; done.
  - rewrite bool_decide_eq_false_2 by done.
    destruct (decide (record_type t0 = lit "relationship")) as [Hr|Hr].
    + rewrite bool_decide_eq_true_2 by done.
      destruct ts as [|t1 [|t2 [|t3 [|t4 [|t5 ts]]]]]; try done.
      simpl. by rewrite coerce_strength_Ok.
    + by rewrite bool_decide_eq_false_2 by done.
Qed.

Lemma parse_loop_omap td records acc :
  td <> [] ->
  parse_loop float td records acc = Ok (acc ++ omap (survivor float td) records).
Proof.
  intros Htd. revert acc; induction records as [|rec records IH]; intros acc.
  - simpl. by rewrite app_nil_r.
  - cbn [parse_loop]. rewrite parse_record_survivor by done. simpl.
    rewrite IH. destruct (survivor float td rec); simpl; [|done].
    by rewrite <- app_assoc.
Qed.

Lemma resolve_record_delimiter_nonempty text rd :
  rd <> Some [] -> resolve_record_delimiter text rd <> [].
Proof.
  unfold resolve_record_delimiter. destruct rd as [d|].
  - intros H ->. done.
  - intros _. repeat case_match; done.
Qed.

Lemma resolve_tuple_delimiter_nonempty text td :
  td <> Some [] -> resolve_tuple_delimiter text td <> [].
Proof.
  unfold resolve_tuple_delimiter. destruct td as [d|].
  - intros H ->. done.
  - intros _. repeat case_match; done.
Qed.

(** The whole function as a filter over the records of the text. *)
Lemma parse_extraction_output_survivors text rd td :
  rd <> Some [] -> td <> Some [] ->
  let cleaned := strip (strip_completion text) in
  let records :=
    map strip (split_go (resolve_record_delimiter cleaned rd) 0 [] cleaned) in
  let kept := omap (survivor float (resolve_tuple_delimiter cleaned td)) records in
  parse_extraction_output float text rd td =
    Ok (filter (fun el => is_entity el = true) kept,
        filter (fun el => is_relationship el = true) kept).
Proof.
  intros Hrd Htd. simpl. unfold parse_extraction_output, raw_records.
  rewrite split_Ok by by apply resolve_record_delimiter_nonempty.
  simpl. rewrite parse_loop_omap by by apply resolve_tuple_delimiter_nonempty.
  done.
Qed.

(** C5: for every input text (an explicit delimiter, when given, being a
    non-empty string), [parse_extraction_output] raises nothing and
    returns the records that survive the rule, the entities and the
    relationships each in their order of appearance: every record is
    judged on its own tokens, and a record is dropped exactly when it is
    empty, or its first token reads [entity] and it has not exactly 4
    fields, or its first token reads [relationship] and it has not exactly
    5 fields, or its first token reads anything else. *)
Theorem parse_drops_malformed (text : str) (rd td : option str) :
  rd <> Some [] -> td <> Some [] ->
  let cleaned := strip (strip_completion text) in
  let td' := resolve_tuple_delimiter cleaned td in
  let records :=
    map strip (split_go (resolve_record_delimiter cleaned rd) 0 [] cleaned) in
  let kept := omap (survivor float td') records in
  parse_extraction_output float text rd td =
    Ok (filter (fun el => is_entity el = true) kept,
        filter (fun el => is_relationship el = true) kept)
  /\ forall rec,
       let tokens := tokens_of td' rec in
       let first := record_type (default [] (head tokens)) in
       (survivor float td' rec = None <->
          rec = []
          \/ (first = lit "entity" /\ length tokens <> 4%nat)
          \/ (first = lit "relationship" /\ length tokens <> 5%nat)
          \/ (first <> lit "entity" /\ first <> lit "relationship"))
       /\ (forall r, survivor float td' rec = Some r ->
             parse_record float td' rec = Ok (Some r)
             /\ match r with
                | Entity n t d => tokens = [default [] (head tokens); n; t; d]
                | Relationship s t d w =>
                    exists w', tokens = [default [] (head tokens); s; t; d; w']
                end).
Proof.
  intros Hrd Htd cleaned td' records kept. split.
  - by apply parse_extraction_output_survivors.
  - intros rec tokens first.
    assert (td' <> []) as Htd' by by apply resolve_tuple_delimiter_nonempty.
    pose proof (tokens_of_nonempty td' rec) as Hne.
    pose proof (parse_record_survivor td' rec Htd') as Hrec.
    subst first tokens. unfold survivor, select in *.
    destruct (tokens_of td' rec) as [|t0 ts]; [done|]. simpl head. simpl default.
    split.
    + destruct rec as [|c rec]; [by intuition|].
      assert (lit "entity" <> lit "relationship") as Hd by done.
      repeat case_decide; split; intros HH; try done;
        try (destruct HH as [?|[[? ?]|[[? ?]|[? ?]]]]; congruence);
        right; intuition congruence.
    + intros r Hr. split.
      * by rewrite Hrec, Hr.
      * destruct rec as [|c rec]; [done|].
        repeat case_decide; try done; injection Hr as <-;
          destruct ts as [|t1 [|t2 [|t3 [|t4 [|t5 ts]]]]]; try done.
        by exists t4.
Qed.

(** C7: for every record with the five tokens of a relationship, the
    loop body raises nothing and stores under [relationship_strength]: an
    [int], when [float] parses the fifth token to a value without
    fractional part; that [float] value, when it has a fractional part (or
    is infinite or a NaN); the fifth token itself, which is a trimmed
    field, when [float] raises [ValueError]. *)
Theorem strength_coercion (td rec t0 t1 t2 t3 t4 : str) :
  rec <> [] ->
  tokenize td rec = Ok [t0; t1; t2; t3; t4] ->
  record_type t0 = lit "relationship" ->
  exists w,
    parse_record float td rec = Ok (Some (Relationship t1 t2 t3 w))
    /\ (exists field, t4 = strip field)
    /\ match float t4 with
       | Some f =>
           if is_integer f
           then exists z, int_of_float f = Ok z /\ w = SInt z
           else w = SFloat f
       | None => w = SStr t4
       end.
Proof.
  intros Hne Htok Hty. exists (strength_of float t4). split; [|split].
  - unfold parse_record. destruct rec as [|c rec]; [done|].
    rewrite Htok. simpl. rewrite Hty. simpl.
    by rewrite coerce_strength_Ok.
  - unfold tokenize in Htok.
    destruct (split td _) as [parts|]; [|done]. simpl in Htok.
    injection Htok as Htok.
    destruct parts as [|p0 [|p1 [|p2 [|p3 [|p4 parts]]]]]; try done.
    injection Htok as _ _ _ _ <- _. by eexists.
  - unfold strength_of. destruct (float t4) as [f|]; [|done].
    destruct (is_integer f) eqn:E; [|done].
    destruct f as [m e| |]; try done. simpl. by eexists.
Qed.

(** C6, amended: with the delimiters not supplied, the policy is applied
    to the text left after the completion markers are removed: the call
    is the call with the delimiters that [detect_record_delimiter] and
    [detect_tuple_delimiter] find in that text; the trimming between the
    removal and the detection does not change what they find; and a text
    without completion marker is examined as it is. *)
Theorem delimiter_detection (text : str) :
  parse_extraction_output float text None None =
    parse_extraction_output float text
      (Some (detect_record_delimiter (strip_completion text)))
      (Some (detect_tuple_delimiter (strip_completion text)))
  /\ resolve_record_delimiter (strip (strip_completion text)) None =
       detect_record_delimiter (strip_completion text)
  /\ resolve_tuple_delimiter (strip (strip_completion text)) None =
       detect_tuple_delimiter (strip_completion text)
  /\ (contains completion_marker text = false -> strip_completion text = text).
Proof.
  assert (forall t, resolve_record_delimiter (strip t) None =
                    detect_record_delimiter t) as Hr.
  { intros t. unfold resolve_record_delimiter, detect_record_delimiter, strip.
    change record_placeholder
      with ("{"%char :: lit "record_delimiter" ++ ["}"%char]).
    rewrite contains_strip_by by done.
    change (lit "|") with ["|"%char].
    by rewrite contains_strip_by_char by done. }
  assert (forall t, resolve_tuple_delimiter (strip t) None =
                    detect_tuple_delimiter t) as Ht.
  { intros t. unfold resolve_tuple_delimiter, detect_tuple_delimiter, strip.
    change tuple_placeholder
      with ("{"%char :: lit "tuple_delimiter" ++ ["}"%char]).
    rewrite contains_strip_by by done.
    change (lit ";") with [";"%char].
    by rewrite contains_strip_by_char by done. }
  split; [|split; [|split]].
  - unfold parse_extraction_output. cbv zeta. rewrite Hr, Ht. done.
  - apply Hr.
  - apply Ht.
  - intros H. unfold strip_completion. by rewrite H.
Qed.

(** *** The round trip *)

Lemma join_split sep parts :
  sep <> [] -> parts <> [] -> Forall (delimited sep) parts ->
  split_go sep 0 [] (join sep parts) = parts.
Proof.
  intros Hsep Hne Hall. induction Hall as [|x l Hx Hl IH]; [done|].
  destruct l as [|y l].
  - simpl. by apply split_go_last.
  - change (join sep (x :: y :: l)) with (x ++ sep ++ join sep (y :: l)).
    rewrite split_go_delimited by done. f_equal. by apply IH.
Qed.

Lemma join_cons_head sep a x l : join sep ((a :: x) :: l) = a :: join sep (x :: l).
Proof. by destruct l. Qed.

Lemma join_snoc_last sep parts t c :
  exists X, join sep (parts ++ [t ++ [c]]) = X ++ [c].
Proof.
  induction parts as [|x parts [X IH]].
  - by exists t.
  - destruct parts as [|y parts].
    + exists (x ++ sep ++ t). simpl. by rewrite <- !app_assoc.
    + exists (x ++ sep ++ X).
      change (join sep ((x :: y :: parts) ++ [t ++ [c]]))
        with (x ++ sep ++ join sep ((y :: parts) ++ [t ++ [c]])).
      rewrite IH. by rewrite <- !app_assoc.
Qed.

Lemma bracketed_serialize_record td r : bracketed (serialize_record td r).
Proof. by exists (serialize_body td r). Qed.

Lemma join_bracketed sep x l :
  bracketed x -> Forall bracketed l -> bracketed (join sep (x :: l)).
Proof.
  intros Hx Hl. revert x Hx. induction Hl as [|y l Hy Hl IH]; intros x Hx.
  - done.
  - change (join sep (x :: y :: l)) with (x ++ sep ++ join sep (y :: l)).
    destruct Hx as [bx ->]. destruct (IH y Hy) as [b ->].
    exists (bx ++ [")"%char] ++ sep ++ "("%char :: b).
    simpl. f_equal. repeat (rewrite <- app_assoc; simpl). done.
Qed.

Lemma strip_bracketed s : bracketed s -> strip s = s.
Proof. intros [b ->]. by apply strip_by_bracketed. Qed.

Lemma strip_serialize rd td rs : strip (serialize rd td rs) = serialize rd td rs.
Proof.
  unfold serialize. destruct rs as [|r rs]; [done|].
  apply strip_bracketed. cbn [map]. apply join_bracketed.
  - apply bracketed_serialize_record.
  - apply Forall_forall. intros x Hx. apply list_elem_of_fmap in Hx as [r' [-> _]].
    apply bracketed_serialize_record.
Qed.

Lemma tokens_of_serialize rd td r :
  td <> [] -> well_formed rd td r ->
  tokens_of td (serialize_record td r) = head_token r :: fields r.
Proof.
  intros Htd (Htrim & Hlast & Hdel & _). unfold tokens_of, serialize_record.
  assert (startswith (lit "(") (lit "(" ++ serialize_body td r ++ lit ")") = true)
    as -> by done.
  assert (endswith (lit ")") (lit "(" ++ serialize_body td r ++ lit ")") = true)
    as ->.
  { unfold endswith. change (lit "(" ++ serialize_body td r ++ lit ")")
      with (("("%char :: serialize_body td r) ++ [")"%char]).
    by rewrite rev_app_distr. }
  cbn [andb]. change (lit "(" ++ serialize_body td r ++ lit ")")
    with ("("%char :: serialize_body td r ++ [")"%char]).
  rewrite slice_inner.
  assert (strip (serialize_body td r) = serialize_body td r) as ->.
  { assert (exists fs f, fields r = fs ++ [f]) as (fs & f & Hf).
    { destruct r as [n t d|a b d w];
        [by exists [n; t], d | by exists [a; b; d], w]. }
    rewrite Hf, last_snoc in Hlast.
    assert (strip f = f) as Hfs.
    { rewrite Forall_forall in Htrim. apply Htrim. rewrite Hf.
      apply elem_of_app. right. by apply list_elem_of_singleton. }
    destruct (strip_by_fixed_ends isspace f Hfs) as [_ (t & c & -> & Hc)];
      [congruence|].
    assert (exists X, serialize_body td r = dquote :: X ++ [c]) as [X ->].
    { unfold serialize_body. rewrite Hf.
      assert (exists h, head_token r = dquote :: h) as [h ->]
        by (destruct r; by eexists).
      rewrite join_cons_head.
      destruct (join_snoc_last td (h :: fs) t c) as [X HX].
      exists X. f_equal. exact HX. }
    by apply strip_by_bracketed. }
  unfold serialize_body. rewrite join_split; [|done|done|done].
  cbn [map]. f_equal.
  - by destruct r.
  - clear -Htrim. induction Htrim as [|x l Hx Hl IH]; [done|].
    cbn [map]. by rewrite Hx, IH.
Qed.

Lemma survivor_serialize rd td r :
  td <> [] -> well_formed rd td r ->
  survivor float td (serialize_record td r) = Some (expected float r).
Proof.
  intros Htd Hwf. unfold survivor.
  pose proof (tokens_of_serialize rd td r Htd Hwf) as Htok.
  destruct (serialize_record td r) as [|c s] eqn:E; [done|].
  rewrite Htok. by destruct r.
Qed.

Lemma survivors_serialize rd td rs :
  td <> [] -> Forall (well_formed rd td) rs ->
  omap (survivor float td) (map strip (map (serialize_record td) rs))
  = map (expected float) rs.
Proof.
  intros Htd Hwf. induction Hwf as [|x l Hx Hl IH]; [done|].
  simpl. rewrite strip_bracketed by apply bracketed_serialize_record.
  rewrite (survivor_serialize rd) by done. f_equal. apply IH.
Qed.

(** C4, amended: for delimiters that are non-empty strings and records
    that are [well_formed] (fields without whitespace at either end, the
    last one not empty, the delimiters occurring in the serialized text
    only where the format puts them), serialized into a text in which the
    completion marker does not occur, [parse_extraction_output] called
    with those delimiters recovers every record with its fields, the
    entities and the relationships each in their order of appearance, the
    strength of a relationship as [float] coerces its field. *)
Theorem parser_round_trip (rd td : str) (rs : list raw_record) :
  rd <> [] -> td <> [] ->
  Forall (well_formed rd td) rs ->
  contains completion_marker (serialize rd td rs) = false ->
  parse_extraction_output float (serialize rd td rs) (Some rd) (Some td) =
    Ok (filter (fun el => is_entity el = true) (map (expected float) rs),
        filter (fun el => is_relationship el = true) (map (expected float) rs)).
Proof.
  intros Hrd Htd Hwf Hmark.
  rewrite parse_extraction_output_survivors by congruence.
  cbv zeta. unfold strip_completion. rewrite Hmark, strip_serialize.
  cbn [resolve_record_delimiter resolve_tuple_delimiter].
  destruct rs as [|r rs]; [done|].
  unfold serialize. rewrite join_split; [|done|done|].
  - by rewrite (survivors_serialize rd).
  - apply Forall_fmap. eapply Forall_impl; [exact Hwf|].
    intros x (_ & _ & _ & H). exact H.
Qed.

End ParserFacts.

(** *** Concrete inputs *)

Section ParserExamples.
Import PyFloat Parser Parser.Examples.

(** The theorem at the text of three records, the second with 3 fields:
    the first and the third are returned. *)
Lemma parse_drops_malformed_witness :
  Some (lit "#") <> Some [] /\ Some (lit "|") <> Some []
  /\ parse_extraction_output float_of_str three_records
       (Some (lit "#")) (Some (lit "|"))
     = Ok ([Entity (lit "A") (lit "TYPE") (lit "desc");
            Entity (lit "C") (lit "TYPE") (lit "desc2")], []).
Proof.
  assert (Some (lit "#") <> Some []) as H1 by done.
  assert (Some (lit "|") <> Some []) as H2 by done.
  split; [exact H1|]. split; [exact H2|].
  destruct (parse_drops_malformed float_of_str three_records
              (Some (lit "#")) (Some (lit "|")) H1 H2) as [E _].
  rewrite E. vm_compute. reflexivity.
Defined.

(** The theorem at the record [("relationship";A;B;x;9)]: the strength is
    the [int] 9. *)
Lemma strength_coercion_witness :
  one_relationship <> []
  /\ tokenize (lit ";") one_relationship
     = Ok [quoted "relationship"; lit "A"; lit "B"; lit "x"; lit "9"]
  /\ record_type (quoted "relationship") = lit "relationship"
  /\ exists w,
       parse_record float_of_str (lit ";") one_relationship
       = Ok (Some (Relationship (lit "A") (lit "B") (lit "x") w))
       /\ (exists field, lit "9" = strip field)
       /\ match float_of_str (lit "9") with
          | Some f =>
              if is_integer f
              then exists z, int_of_float f = Ok z /\ w = SInt z
              else w = SFloat f
          | None => w = SStr (lit "9")
          end.
Proof.
  assert (one_relationship <> []) as H1 by done.
  assert (tokenize (lit ";") one_relationship
          = Ok [quoted "relationship"; lit "A"; lit "B"; lit "x"; lit "9"])
    as H2 by (vm_compute; reflexivity).
  assert (record_type (quoted "relationship") = lit "relationship")
    as H3 by (vm_compute; reflexivity).
  split; [exact H1|]. split; [exact H2|]. split; [exact H3|].
  exact (strength_coercion float_of_str _ _ _ _ _ _ _ H1 H2 H3).
Defined.

(** C4, as stated, fails: the fields of [padded] contain neither
    delimiter, and the name [" A"] comes back as ["A"]. *)
Lemma parser_round_trip_padded :
  Forall (fun r => Forall (fun f => contains (lit "|") f = false
                                    /\ contains (lit ";") f = false)
                     (fields r)) padded
  /\ parse_extraction_output float_of_str
       (serialize (lit "|") (lit ";") padded) (Some (lit "|")) (Some (lit ";"))
     = Ok ([Entity (lit "A") (lit "T") (lit "d")], [])
  /\ parse_extraction_output float_of_str
       (serialize (lit "|") (lit ";") padded) (Some (lit "|")) (Some (lit ";"))
     <> Ok (filter (fun el => is_entity el = true)
              (map (expected float_of_str) padded),
            filter (fun el => is_relationship el = true)
              (map (expected float_of_str) padded)).
Proof.
  split; [|split].
  - repeat constructor.
  - vm_compute. reflexivity.
  - vm_compute. discriminate.
Defined.

(** The amended theorem at [two_kinds], with the delimiters ["|"] and
    [";"]. *)
Lemma parser_round_trip_witness :
  lit "|" <> [] /\ lit ";" <> []
  /\ Forall (well_formed (lit "|") (lit ";")) two_kinds
  /\ contains completion_marker (serialize (lit "|") (lit ";") two_kinds) = false
  /\ parse_extraction_output float_of_str
       (serialize (lit "|") (lit ";") two_kinds) (Some (lit "|")) (Some (lit ";"))
     = Ok ([Entity (lit "A") (lit "T") (lit "first");
            Entity (lit "B") (lit "T") (lit "second")],
           [Relationship (lit "A") (lit "B") (lit "knows")
              (SFloat (Finite 5629499534213120 (-51)));
            Relationship (lit "B") (lit "A") (lit "knows") (SInt 9)]).
Proof.
  assert (lit "|" <> []) as H1 by done.
  assert (lit ";" <> []) as H2 by done.
  assert (Forall (well_formed (lit "|") (lit ";")) two_kinds) as H3.
  { apply (bool_decide_unpack _). vm_compute. reflexivity. }
  assert (contains completion_marker
            (serialize (lit "|") (lit ";") two_kinds) = false) as H4
    by (vm_compute; reflexivity).
  split; [exact H1|]. split; [exact H2|]. split; [exact H3|].
  split; [exact H4|].
  rewrite (parser_round_trip float_of_str _ _ _ H1 H2 H3 H4).
  vm_compute. reflexivity.
Defined.

(** C6, as stated, fails: [hidden_placeholder] contains neither the
    record placeholder nor a pipe, so the policy applied to the input
    gives the newline, while the code splits on the placeholder and
    returns both entities. *)
Lemma delimiter_detection_hidden_placeholder :
  contains record_placeholder hidden_placeholder = false
  /\ contains (lit "|") hidden_placeholder = false
  /\ detect_record_delimiter hidden_placeholder = newline
  /\ resolve_record_delimiter (strip (strip_completion hidden_placeholder)) None
     = record_placeholder
  /\ parse_extraction_output float_of_str hidden_placeholder None None
     = Ok ([Entity (lit "A") (lit "T") (lit "d");
            Entity (lit "B") (lit "T") (lit "e")], [])
  /\ parse_extraction_output float_of_str hidden_placeholder
       (Some (detect_record_delimiter hidden_placeholder))
       (Some (detect_tuple_delimiter hidden_placeholder))
     = Ok ([], []).
Proof. repeat split; vm_compute; reflexivity. Defined.

End ParserExamples.

(** ** [extract_json] and [generate_community_report_with_llm] *)

Section JsonFacts.
Import PyFloat Json Decoder.

Variable json_loads : str -> option json.

Lemma fence_search_None text :
  contains fence_json text = false -> fence_search text = None.
Proof.
  induction text as [|c text IH]; intros H.
  - done.
  - cbn [contains] in H. apply orb_false_iff in H as [H1 H2].
    cbn [fence_search]. unfold match_here. rewrite H1. by apply IH.
Qed.


(** The cascade of [try] blocks returns the first candidate that
    [json.loads] accepts. *)
Lemma extract_json_first_parse r :
  extract_json json_loads r = Ok (first_parse json_loads (to_text r)).
Proof.
  unfold extract_json, first_parse, candidates, attempt, parse_candidate, loads.
  destruct (json_loads (unfenced (to_text r))) as [v|] eqn:E1; simpl;
    rewrite E1; [done|].
  destruct (fence_search (to_text r)) as [g|]; simpl.
  { destruct (json_loads (strip g)) as [v|] eqn:E2; simpl; [done|].
    destruct (balanced_span "{" "}" (to_text r)) as [b|]; simpl.
    { destruct (json_loads b) as [v|] eqn:E3; simpl; [done|].
      destruct (balanced_span "[" "]" (to_text r)) as [a|]; simpl; [|done].
      by destruct (json_loads a). }
    destruct (balanced_span "[" "]" (to_text r)) as [a|]; simpl; [|done].
    by destruct (json_loads a). }
  destruct (balanced_span "{" "}" (to_text r)) as [b|]; simpl.
  { destruct (json_loads b) as [v|] eqn:E3; simpl; [done|].
    destruct (balanced_span "[" "]" (to_text r)) as [a|]; simpl; [|done].
    by destruct (json_loads a). }
  destruct (balanced_span "[" "]" (to_text r)) as [a|]; simpl; [|done].
  by destruct (json_loads a).
Qed.


Section Report.

Variables nodes_t relationships_t : Type.
Variable get_summarize_community_prompt : nodes_t -> relationships_t -> str.
Variable chat_bedrock : str -> result response.

(** What the function returns when both backends are available:
    [json.loads] is applied to the value that [extract_json] has already
    parsed, so only a JSON string that itself holds a JSON text gets
    through. *)
Lemma generate_community_report_value nodes relationships :
  generate_community_report_with_llm json_loads nodes_t relationships_t
    true true get_summarize_community_prompt chat_bedrock nodes relationships
  = Ok (match chat_bedrock (get_summarize_community_prompt nodes relationships) with
        | Raise _ => JDict []
        | Ok response =>
            match first_parse json_loads (to_text response) with
            | JStr s => default (JDict []) (json_loads s)
            | _ => JDict []
            end
        end).
Proof.
  unfold generate_community_report_with_llm. simpl.
  destruct (chat_bedrock _) as [response|e]; simpl; [|done].
  rewrite extract_json_first_parse. simpl.
  destruct (first_parse json_loads (to_text response)); simpl; try done.
  unfold loads. by destruct (json_loads s).
Qed.

(** C1, on the code: when the invocation of the language model succeeds
    and nothing in the response parses as JSON, [extract_json] returns the
    fallback report, and [generate_community_report_with_llm] returns the
    empty dict all the same. *)
Theorem report_unparsable_response_is_empty nodes relationships response :
  chat_bedrock (get_summarize_community_prompt nodes relationships) = Ok response ->
  first_parse json_loads (to_text response) = fallback ->
  extract_json json_loads (Plain (to_text response)) = Ok fallback
  /\ generate_community_report_with_llm json_loads nodes_t relationships_t
       true true get_summarize_community_prompt chat_bedrock nodes relationships
     = Ok (JDict []).
Proof.
  intros Hchat Hparse. split.
  - rewrite extract_json_first_parse. simpl. by rewrite Hparse.
  - by rewrite generate_community_report_value, Hchat, Hparse.
Qed.

End Report.
End JsonFacts.

Section JsonExamples.
Import PyFloat Json Decoder.


(** A text that is a JSON value by itself is returned by the first block,
    whatever else it lacks. *)
Lemma extract_json_bare_number :
  extract_json json_decode (Plain (lit "42")) = Ok (JInt 42).
Proof. vm_compute. reflexivity. Qed.

(** A well-formed report is lost in the same way as the fallback. *)
Lemma report_valid_response_is_lost :
  extract_json json_decode (Plain fenced_title_x) = Ok title_x_value
  /\ generate_community_report_with_llm json_decode unit unit true true
       (fun _ _ => lit "prompt") (fun _ => Ok (Plain fenced_title_x)) () ()
     = Ok (JDict []).
Proof. split; vm_compute; reflexivity. Qed.

(** The theorem with the decoder and a language model that answers
    [plain_prose]: the function returns the empty dict. *)
Lemma report_unparsable_response_is_empty_witness :
  first_parse json_decode plain_prose = fallback
  /\ extract_json json_decode (Plain plain_prose) = Ok fallback
  /\ generate_community_report_with_llm json_decode unit unit true true
       (fun _ _ => lit "prompt") (fun _ => Ok (Plain plain_prose)) () ()
     = Ok (JDict []).
Proof.
  assert (first_parse json_decode plain_prose = fallback) as H
    by (vm_compute; reflexivity).
  split; [exact H|].
  exact (report_unparsable_response_is_empty json_decode unit unit
           (fun _ _ => lit "prompt") (fun _ => Ok (Plain plain_prose))
           () () (Plain plain_prose) eq_refl H).
Defined.

End JsonExamples.

(** ** [calculate_communities] *)

Section CommunityFacts.
Import Communities.
Local Open Scope nat_scope.

Implicit Types p : gmap string string.

Lemma reach_fun p x r n r' n' :
  reach p x r n -> reach p x r' n' -> r = r' /\ n = n'.
Proof.
  intros H. revert r' n'. induction H as [x Hx|x y r n Hxy Hne Hy IH];
    intros r' n' H'; inversion H' as [? Hx'|? y' ? m Hxy' Hne' Hy']; subst.
  - done.
  - destruct Hx as [Hx|Hx]; congruence.
  - destruct Hx' as [Hx'|Hx']; congruence.
  - assert (y' = y) as -> by congruence.
    by destruct (IH _ _ Hy') as [-> ->].
Qed.

Lemma reach_root_fixed p x r n :
  reach p x r n -> p !! r = None \/ p !! r = Some r.
Proof. induction 1; auto. Qed.

Lemma reach_root_self p x r n : reach p x r n -> reach p r r 0.
Proof. intros H. constructor. by eapply reach_root_fixed. Qed.

Lemma reach_nonroot p x r n : reach p x r (S n) -> x <> r.
Proof.
  intros H. inversion H as [|? y ? ? Hxy Hne Hy]; subst.
  intros ->. apply reach_root_fixed in Hy. destruct Hy; congruence.
Qed.

(** The names on the way from [x] to its root, the root left out: they
    are distinct keys. *)
Lemma reach_chain p x r n :
  reach p x r n ->
  exists l : list string,
    length l = n /\ NoDup l
    /\ forall z, z ∈ l -> is_Some (p !! z) /\ exists m, (0 < m <= n)%nat /\ reach p z r m.
Proof.
  induction 1 as [x Hx|x y r n Hxy Hne Hy (l & Hlen & Hnd & Hl)].
  - exists []. split; [done|]. split; [constructor|]. intros z Hz. by apply elem_of_nil in Hz.
  - exists (x :: l). split; [simpl; by rewrite Hlen|]. split.
    + constructor; [|done]. intros Hx. destruct (Hl x Hx) as [_ (m & Hm & Hr)].
      assert (reach p x r (S n)) as Hr' by by econstructor.
      destruct (reach_fun _ _ _ _ _ _ Hr Hr') as [_ ->]. lia.
    + intros z Hz. apply elem_of_cons in Hz as [->|Hz].
      * split; [by rewrite Hxy|]. exists (S n). split; [lia|]. by econstructor.
      * destruct (Hl z Hz) as [Hs (m & Hm & Hr)]. split; [done|].
        exists m. split; [lia | done].
Qed.

Lemma reach_le_size p x r n : reach p x r n -> (n <= size p)%nat.
Proof.
  intros H. destruct (reach_chain _ _ _ _ H) as (l & <- & Hnd & Hl).
  rewrite <- size_dom. unfold size, set_size. simpl.
  apply submseteq_length, NoDup_submseteq; [done|].
  intros z Hz. apply elem_of_elements, elem_of_dom. by apply Hl.
Qed.

Lemma reach_insert_fresh p x z r n :
  p !! x = None -> reach p z r n -> reach (<[x := x]> p) z r n.
Proof.
  intros Hx. induction 1 as [z Hz|z y r n Hzy Hne Hy IH].
  - constructor. destruct (decide (x = z)) as [->|Hxz].
    + right. by rewrite lookup_insert_eq.
    + by rewrite lookup_insert_ne.
  - apply (reach_step _ z y); [|done|exact IH].
    rewrite lookup_insert_ne; [done|]. congruence.
Qed.

(** Path compression: [x] is linked to its root. *)
Lemma reach_compress p x r n z rz m :
  reach p x r n -> x <> r -> reach p z rz m ->
  exists m', (m' <= m)%nat /\ reach (<[x := r]> p) z rz m'.
Proof.
  intros Hx Hne. induction 1 as [z Hz|z y rz m Hzy Hney Hy (m' & Hm' & IH)].
  - exists 0%nat. split; [done|]. constructor.
    destruct (decide (x = z)) as [->|Hxz].
    + inversion Hx; subst; [done|]. destruct Hz; congruence.
    + by rewrite lookup_insert_ne.
  - destruct (decide (x = z)) as [->|Hxz].
    + assert (reach p z rz (S m)) as Hz by by econstructor.
      destruct (reach_fun _ _ _ _ _ _ Hx Hz) as [-> ->].
      exists 1%nat. split; [lia|]. apply (reach_step _ z rz).
      * by rewrite lookup_insert_eq.
      * done.
      * constructor. rewrite lookup_insert_ne by done.
        by eapply reach_root_fixed.
    + exists (S m'). split; [lia|]. apply (reach_step _ z y); [|done|exact IH].
      by rewrite lookup_insert_ne.
Qed.

(** [find] with enough fuel: it returns the root, which is then a key,
    and shortens or keeps every chain. *)
Lemma find_rec_reach p x r n fuel :
  reach p x r n -> (n < fuel)%nat ->
  exists p',
    find_rec fuel p x = Some (p', r)
    /\ p' !! r = Some r
    /\ forall z rz m, reach p z rz m ->
         exists m', (m' <= m)%nat /\ reach p' z rz m'.
Proof.
  intros H. revert fuel. induction H as [x Hx|x y r n Hxy Hne Hy IH];
    intros [|fuel] Hfuel; try lia.
  - cbn [find_rec]. destruct Hx as [Hx|Hx]; rewrite Hx.
    + rewrite lookup_insert_eq. simpl. rewrite decide_True by done.
      eexists. split; [done|]. split; [by rewrite lookup_insert_eq|].
      intros z rz m Hz. exists m. split; [done|]. by apply reach_insert_fresh.
    + rewrite Hx. simpl. rewrite decide_True by done.
      eexists. split; [done|]. split; [done|]. intros z rz m Hz. by exists m.
  - cbn [find_rec]. rewrite Hxy. rewrite Hxy. simpl.
    rewrite decide_False by done.
    destruct (IH fuel ltac:(lia)) as (p' & -> & Hr & Hpres). simpl.
    assert (reach p x r (S n)) as Hx by by econstructor.
    pose proof (reach_nonroot _ _ _ _ Hx) as Hxr.
    eexists. split; [done|]. split; [by rewrite lookup_insert_ne|].
    intros z rz m Hz. destruct (Hpres _ _ _ Hz) as (m1 & Hm1 & Hz1).
    destruct (Hpres _ _ _ Hx) as (n1 & Hn1 & Hx1).
    destruct (reach_compress _ _ _ _ _ _ _ Hx1 Hxr Hz1) as (m2 & Hm2 & Hz2).
    exists m2. split; [lia | done].
Qed.

Lemma shortening_same_roots p p' :
  forest p ->
  (forall z rz m, reach p z rz m -> exists m', (m' <= m)%nat /\ reach p' z rz m') ->
  same_roots p p' /\ forest p'.
Proof.
  intros Hf Hpres.
  assert (forall z rz, root p z rz -> root p' z rz) as Hfw.
  { intros z rz [m Hz]. destruct (Hpres _ _ _ Hz) as (m' & _ & Hz'). by exists m'. }
  split.
  - intros z rz. split; [apply Hfw|].
    intros [m' Hz']. destruct (Hf z) as [r0 Hr0].
    destruct (Hfw _ _ Hr0) as [m0 Hz0].
    destruct (reach_fun _ _ _ _ _ _ Hz' Hz0) as [-> _]. done.
  - intros z. destruct (Hf z) as [r0 Hr0]. exists r0. by apply Hfw.
Qed.

Lemma find_root p x :
  forest p ->
  exists p' r,
    find p x = Some (p', r)
    /\ root p x r /\ p' !! r = Some r /\ same_roots p p' /\ forest p'.
Proof.
  intros Hf. destruct (Hf x) as (r & n & Hx).
  destruct (find_rec_reach p x r n (S (size p)) Hx) as (p' & Hfind & Hr & Hpres).
  { apply reach_le_size in Hx. lia. }
  exists p', r. split; [done|]. split; [by exists n|]. split; [done|].
  by apply shortening_same_roots.
Qed.

Lemma root_fun p x r r' : root p x r -> root p x r' -> r = r'.
Proof. intros [n H] [n' H']. by destruct (reach_fun _ _ _ _ _ _ H H'). Qed.

Lemma joined_roots p a b ra rb :
  root p a ra -> root p b rb -> joined p a b <-> ra = rb.
Proof.
  intros Ha Hb. split.
  - intros (r & Ha' & Hb').
    by rewrite (root_fun _ _ _ _ Ha Ha'), (root_fun _ _ _ _ Hb Hb').
  - intros ->. by exists rb.
Qed.

Lemma same_roots_joined p p' a b :
  same_roots p p' -> joined p a b <-> joined p' a b.
Proof.
  intros H. unfold joined. split; intros (r & Ha & Hb); exists r;
    split; by apply H.
Qed.

(** Line 369: the root [px] is linked to the root [py]. *)
Lemma reach_link p px py z rz m :
  (p !! px = None \/ p !! px = Some px) ->
  (p !! py = None \/ p !! py = Some py) ->
  px <> py -> reach p z rz m ->
  exists m', reach (<[px := py]> p) z (if decide (rz = px) then py else rz) m'.
Proof.
  intros Hpx Hpy Hne. induction 1 as [z Hz|z y rz m Hzy Hney Hy [m' IH]].
  - destruct (decide (z = px)) as [->|Hzpx].
    + exists 1%nat. apply (reach_step _ px py).
      * by rewrite lookup_insert_eq.
      * done.
      * constructor. by rewrite lookup_insert_ne.
    + exists 0%nat. constructor. by rewrite lookup_insert_ne.
  - exists (S m'). apply (reach_step _ z y); [|done|exact IH].
    rewrite lookup_insert_ne; [done|]. intros ->. destruct Hpx; congruence.
Qed.

Lemma union_joined p x y :
  forest p ->
  exists p',
    union p x y = Some p' /\ forest p'
    /\ forall a b,
         joined p' a b <->
         joined p a b \/ (joined p a x /\ joined p y b)
         \/ (joined p a y /\ joined p x b).
Proof.
  intros Hf. unfold union.
  destruct (find_root p x Hf) as (p1 & rx & -> & Hx & _ & H1 & Hf1). simpl.
  destruct (find_root p1 y Hf1) as (p2 & ry & -> & Hy & _ & H2 & Hf2). simpl.
  assert (same_roots p p2) as H12.
  { intros z r. rewrite (H1 z r). apply H2. }
  assert (root p y ry) as Hy0 by by apply H1.
  eexists. split; [done|].
  assert (forall a b, joined p a b \/ (joined p a x /\ joined p y b)
                      \/ (joined p a y /\ joined p x b) <->
            exists ra rb, root p a ra /\ root p b rb
              /\ (ra = rb \/ (ra = rx /\ rb = ry) \/ (ra = ry /\ rb = rx))) as Hrhs.
  { intros a b. destruct (Hf a) as [ra Ha]. destruct (Hf b) as [rb Hb].
    rewrite (joined_roots p a b ra rb), (joined_roots p a x ra rx),
      (joined_roots p y b ry rb), (joined_roots p a y ra ry),
      (joined_roots p x b rx rb) by done.
    split.
    - intros H. exists ra, rb. intuition congruence.
    - intros (ra' & rb' & Ha' & Hb' & H).
      rewrite (root_fun _ _ _ _ Ha Ha'), (root_fun _ _ _ _ Hb Hb').
      intuition congruence. }
  destruct (decide (rx = ry)) as [->|Hne].
  - split; [done|]. intros a b. rewrite Hrhs, <- (same_roots_joined p p2) by done.
    destruct (Hf a) as [ra Ha]. destruct (Hf b) as [rb Hb].
    rewrite (joined_roots p a b ra rb) by done. split.
    + intros ->. exists rb, rb. auto.
    + intros (ra' & rb' & Ha' & Hb' & H).
      rewrite (root_fun _ _ _ _ Ha Ha'), (root_fun _ _ _ _ Hb Hb').
      intuition congruence.
  - assert (forall z rz, root p z rz ->
              root (<[rx := ry]> p2) z (if decide (rz = rx) then ry else rz)) as Hl.
    { intros z rz Hz. apply H12 in Hz as [m Hz].
      apply (reach_link p2 rx ry z rz m); [| |done|done].
      - apply H12 in Hx as [? Hx]. by eapply reach_root_fixed.
      - apply H12 in Hy0 as [? Hy0]. by eapply reach_root_fixed. }
    split.
    + intros z. destruct (Hf z) as [rz Hz]. eexists. by apply Hl.
    + intros a b. rewrite Hrhs.
      destruct (Hf a) as [ra Ha]. destruct (Hf b) as [rb Hb].
      rewrite (joined_roots _ a b _ _ (Hl _ _ Ha) (Hl _ _ Hb)). split.
      * intros H. exists ra, rb. split; [done|]. split; [done|].
        repeat case_decide; subst; auto.
      * intros (ra' & rb' & Ha' & Hb' & H).
        rewrite (root_fun _ _ _ _ Ha Ha'), (root_fun _ _ _ _ Hb Hb').
        repeat case_decide; intuition congruence.
Qed.

(** One more edge in an undirected graph. *)
Lemma rtsc_add_edge (R R' : relation string) x y a b :
  (forall u v, R' u v <-> R u v \/ (u = x /\ v = y)) ->
  rtsc R' a b <->
  rtsc R a b \/ (rtsc R a x /\ rtsc R y b) \/ (rtsc R a y /\ rtsc R x b).
Proof.
  intros HR. split.
  - induction 1 as [a|a a' b Hstep _ IH].
    + left. reflexivity.
    + assert (rtsc R a a' \/ (a = x /\ a' = y) \/ (a = y /\ a' = x)) as Hs.
      { destruct Hstep as [H|H]; apply HR in H as [H|[-> ->]]; auto.
        - left. by apply rtsc_lr.
        - left. by apply rtsc_rl. }
      destruct Hs as [Hs|[[-> ->]|[-> ->]]].
      * destruct IH as [IH|[[IH1 IH2]|[IH1 IH2]]].
        -- left. by etrans.
        -- right; left. split; [by etrans | done].
        -- right; right. split; [by etrans | done].
      * destruct IH as [IH|[[IH1 IH2]|[IH1 IH2]]].
        -- right; left. split; [reflexivity | done].
        -- right; left. split; [reflexivity | done].
        -- left. done.
      * destruct IH as [IH|[[IH1 IH2]|[IH1 IH2]]].
        -- right; right. split; [reflexivity | done].
        -- left. done.
        -- right; right. split; [reflexivity | done].
  - assert (forall u v, rtsc R u v -> rtsc R' u v) as Hmono.
    { intros u v. apply rtc_subrel. intros u' v' [H|H]; [left|right];
        apply HR; auto. }
    assert (rtsc R' x y) as Hxy by (apply rtsc_lr, HR; auto).
    intros [H|[[H1 H2]|[H1 H2]]].
    + by apply Hmono.
    + etrans; [by apply Hmono|]. etrans; [exact Hxy|]. by apply Hmono.
    + etrans; [by apply Hmono|]. etrans; [symmetry; exact Hxy|]. by apply Hmono.
Qed.

Lemma components_of_empty : components_of ∅ [].
Proof.
  assert (forall x, root (∅ : gmap string string) x x) as Hroot.
  { intros x. exists 0%nat. constructor. left. apply lookup_empty. }
  split.
  - intros x. by exists x.
  - intros a b. rewrite (joined_roots ∅ a b a b) by done. split.
    + intros ->. reflexivity.
    + induction 1 as [|a a' b [H|H] _ _]; [done| |];
        unfold edge_of in H; by apply elem_of_nil in H.
Qed.

Lemma union_components p es x y :
  components_of p es ->
  exists p', union p x y = Some p' /\ components_of p' (es ++ [(x, y)]).
Proof.
  intros [Hf Hj]. destruct (union_joined p x y Hf) as (p' & Hu & Hf' & Hj').
  exists p'. split; [done|]. split; [done|]. intros a b.
  rewrite Hj', !Hj. symmetry. apply rtsc_add_edge.
  intros u v. unfold edge_of. rewrite elem_of_app, list_elem_of_singleton.
  split; intros [H|H]; auto.
  - injection H as -> ->. auto.
  - destruct H as [-> ->]. auto.
Qed.

Lemma union_all_components p es entity connections :
  components_of p es ->
  exists p',
    union_all p entity connections = Some p'
    /\ components_of p' (es ++ (pair entity <$> connections)).
Proof.
  revert p es. induction connections as [|c cs IH]; intros p es H.
  - exists p. split; [done|]. by rewrite app_nil_r.
  - cbn [union_all]. destruct (union_components p es entity c H) as (p1 & -> & H1).
    simpl. destruct (IH p1 _ H1) as (p' & -> & H').
    exists p'. split; [done|]. by rewrite <- app_assoc in H'.
Qed.

Lemma union_loop_components p es entities_data :
  components_of p es ->
  exists p',
    union_loop p entities_data = Some p'
    /\ components_of p' (es ++ edges entities_data).
Proof.
  revert p es. induction entities_data as [|[e cs] ed IH]; intros p es H.
  - exists p. split; [done|]. unfold edges. simpl. by rewrite app_nil_r.
  - cbn [union_loop].
    destruct (union_all_components p es e cs H) as (p1 & -> & H1). simpl.
    destruct (IH p1 _ H1) as (p' & -> & H').
    exists p'. split; [done|]. unfold edges in *. simpl.
    by rewrite app_assoc.
Qed.

(** *** Grouping *)

Lemma group_add_keys comm r e k :
  k ∈ (group_add comm r e).*1 <-> k ∈ comm.*1 \/ k = r.
Proof.
  induction comm as [|[r0 ms] comm IH]; simpl.
  - rewrite list_elem_of_singleton. split; [auto|]. intros [H|H]; [|done].
    by apply elem_of_nil in H.
  - case_decide as Hr; simpl; rewrite !elem_of_cons.
    + subst. tauto.
    + rewrite IH. tauto.
Qed.

Lemma group_add_NoDup comm r e :
  NoDup comm.*1 -> NoDup (group_add comm r e).*1.
Proof.
  induction comm as [|[r0 ms] comm IH]; simpl; intros H.
  - apply NoDup_singleton.
  - apply NoDup_cons in H as [H1 H2]. case_decide as Hr; simpl.
    + by apply NoDup_cons.
    + apply NoDup_cons. split; [|by apply IH].
      rewrite group_add_keys. intros [?|?]; [done | congruence].
Qed.

Lemma group_add_members comm r e r' ms' :
  (r', ms') ∈ group_add comm r e ->
  (r', ms') ∈ comm
  \/ (r' = r /\ exists ms, ms' = ms ++ [e] /\ ((r, ms) ∈ comm \/ ms = [])).
Proof.
  induction comm as [|[r0 ms] comm IH]; simpl.
  - rewrite list_elem_of_singleton. intros [= -> ->]. right.
    split; [done|]. exists []. auto.
  - case_decide as Hr; rewrite !elem_of_cons.
    + intros [[= -> ->]|H]; [|auto]. right. split; [done|].
      exists ms. subst. rewrite elem_of_cons. auto.
    + intros [H|H]; [auto|]. destruct (IH H) as [H'|(-> & ms0 & -> & H')]; [auto|].
      right. split; [done|]. exists ms0. rewrite elem_of_cons. tauto.
Qed.

Lemma group_add_join comm r e :
  mjoin (group_add comm r e).*2 ≡ₚ mjoin comm.*2 ++ [e].
Proof.
  induction comm as [|[r0 ms] comm IH]; simpl; [done|].
  case_decide as Hr; simpl.
  - rewrite <- !app_assoc. f_equiv. apply Permutation_app_comm.
  - by rewrite IH, app_assoc.
Qed.

Lemma group_add_grouping p comm l r e :
  grouping p comm l -> root p e r -> grouping p (group_add comm r e) (l ++ [e]).
Proof.
  intros (Hnd & Hms & Hl) He. split; [by apply group_add_NoDup|]. split.
  - intros r' ms' H. apply group_add_members in H as [H|(-> & ms & -> & H)].
    + by apply Hms.
    + split; [by destruct ms|]. intros e' He'.
      apply elem_of_app in He' as [He'|He'].
      * destruct H as [H| ->]; [by apply (Hms _ _ H)|]. by apply elem_of_nil in He'.
      * apply list_elem_of_singleton in He' as ->. done.
  - by rewrite group_add_join, Hl.
Qed.

Lemma grouping_same_roots p p' comm l :
  same_roots p p' -> grouping p comm l -> grouping p' comm l.
Proof.
  intros H (Hnd & Hms & Hl). split; [done|]. split; [|done].
  intros r ms Hr. destruct (Hms r ms Hr) as [H1 H2]. split; [done|].
  intros e He. apply H. by apply H2.
Qed.

Lemma group_loop_grouping p entities comm l :
  forest p -> grouping p comm l ->
  exists comm',
    group_loop p entities comm = Some comm'
    /\ grouping p comm' (l ++ entities).
Proof.
  revert p comm l. induction entities as [|e es IH]; intros p comm l Hf Hg.
  - exists comm. split; [done|]. by rewrite app_nil_r.
  - cbn [group_loop].
    destruct (find_root p e Hf) as (p' & r & -> & He & _ & Hsame & Hf'). simpl.
    pose proof (group_add_grouping p comm l r e Hg He) as Hg'.
    destruct (IH p' _ _ Hf' (grouping_same_roots _ _ _ _ Hsame Hg'))
      as (comm' & -> & Hg'').
    exists comm'. split; [done|]. rewrite <- app_assoc in Hg''.
    apply (grouping_same_roots p' p); [|done].
    intros x rx. symmetry. apply Hsame.
Qed.

(** The dict [communities]: the groups are the components of the edges
    that were passed to [union], over the entities of the set. *)
Lemma communities_grouping rows :
  exists p comm,
    communities rows = Some comm
    /\ components_of p (edges (entities_data rows))
    /\ grouping p comm (elements (all_entities rows)).
Proof.
  unfold communities.
  destruct (union_loop_components ∅ [] (entities_data rows) components_of_empty)
    as (p & -> & Hc). simpl in *.
  destruct (group_loop_grouping p (elements (all_entities rows)) [] [])
    as (comm & -> & Hg).
  - apply Hc.
  - split; [constructor|]. split; [|done]. intros r ms H. by apply elem_of_nil in H.
  - by exists p, comm.
Qed.

(** *** Sorting by size *)

Lemma insert_desc_Permutation g s : insert_desc g s ≡ₚ g :: s.
Proof.
  induction s as [|h s IH]; simpl; [done|]. case_decide; [|done].
  rewrite IH. apply Permutation_swap.
Qed.

Lemma sorted_desc_Permutation l : sorted_desc l ≡ₚ l.
Proof.
  induction l as [|g l IH]; simpl; [done|].
  by rewrite insert_desc_Permutation, IH.
Qed.

Lemma insert_desc_sorted g s :
  StronglySorted by_size_desc s -> StronglySorted by_size_desc (insert_desc g s).
Proof.
  induction 1 as [|h s Hs IH Hh]; simpl.
  - repeat constructor.
  - case_decide as Hlt.
    + constructor; [done|]. rewrite insert_desc_Permutation.
      constructor; [unfold by_size_desc; lia | done].
    + constructor; [by constructor|]. constructor; [unfold by_size_desc; lia|].
      eapply Forall_impl; [exact Hh|]. unfold by_size_desc. intros; lia.
Qed.

Lemma sorted_desc_sorted l : StronglySorted by_size_desc (sorted_desc l).
Proof.
  induction l as [|g l IH]; simpl; [constructor|]. by apply insert_desc_sorted.
Qed.

Lemma StronglySorted_lookup {A} (R : relation A) l i j a b :
  StronglySorted R l -> l !! i = Some a -> l !! j = Some b -> (i < j)%nat -> R a b.
Proof.
  intros H. revert i j. induction H as [|x l Hl IH Hx]; intros i j Hi Hj Hij.
  - done.
  - destruct j as [|j]; [lia|]. destruct i as [|i]; simpl in *.
    + injection Hi as <-. rewrite Forall_forall in Hx. apply Hx.
      by eapply list_elem_of_lookup_2.
    + apply (IH i j); [done|done|lia].
Qed.



(** *** Identifiers *)

Lemma assign_group_lookup i g m e :
  assign_group i g m !! e = if decide (e ∈ g) then Some i else m !! e.
Proof.
  unfold assign_group. revert m. induction g as [|x g IH]; intros m; cbn [foldl].
  - rewrite decide_False; [done|]. apply not_elem_of_nil.
  - rewrite IH. destruct (decide (e ∈ g)) as [Hg|Hg].
    + rewrite decide_True; [done|]. by apply elem_of_cons; right.
    + destruct (decide (e = x)) as [->|Hx].
      * rewrite lookup_insert_eq, decide_True; [done|]. by apply elem_of_cons; left.
      * rewrite lookup_insert_ne by done.
        rewrite decide_False; [done|]. rewrite elem_of_cons. tauto.
Qed.

Lemma assign_loop_lookup i groups m e k :
  NoDup (mjoin groups) ->
  (assign_loop i groups m !! e = Some k) <->
  (exists j g, groups !! j = Some g /\ e ∈ g /\ k = (i + j)%nat)
  \/ ((e ∉ mjoin groups) /\ m !! e = Some k).
Proof.
  revert i m. induction groups as [|g groups IH]; intros i m Hnd.
  - simpl. split.
    + intros H. right. split; [apply not_elem_of_nil | done].
    + intros [(j & g & H & _)|[_ H]]; [done | done].
  - simpl in Hnd. apply NoDup_app in Hnd as (Hg & Hdisj & Hgs).
    cbn [assign_loop]. rewrite IH by done. rewrite assign_group_lookup. split.
    + intros [(j & g' & Hj & He & ->)|[Hne H]].
      * left. exists (S j), g'. split; [done|]. split; [done|lia].
      * destruct (decide (e ∈ g)) as [He|He].
        -- injection H as <-. left. exists 0%nat, g. split; [done|]. split; [done|lia].
        -- right. split; [|done]. simpl. rewrite elem_of_app. tauto.
    + intros [(j & g' & Hj & He & ->)|[Hne H]].
      * destruct j as [|j]; simpl in Hj.
        -- injection Hj as <-. right. split.
           ++ intros He'. by apply (Hdisj e).
           ++ rewrite decide_True by done. f_equal. lia.
        -- left. exists j, g'. split; [done|]. split; [done|lia].
      * simpl in Hne. rewrite elem_of_app in Hne. right. split; [tauto|].
        rewrite decide_False by tauto. done.
Qed.

(** *** The rows *)

Lemma rtsc_iff (R R' : relation string) a b :
  (forall u v, R u v <-> R' u v) -> rtsc R a b <-> rtsc R' a b.
Proof.
  intros H. split; apply rtc_subrel; intros u v [Huv|Huv]; [left|right|left|right];
    by apply H.
Qed.

Lemma mentioned_cons e0 cs rows e :
  mentioned ((e0, cs) :: rows) e <-> (e = e0 \/ Some e ∈ cs) \/ mentioned rows e.
Proof.
  unfold mentioned, adjacent. split.
  - intros [[cs' H]|(u & cs' & H & Hin)]; apply elem_of_cons in H as [H|H].
    + injection H as -> ->. auto.
    + right. left. by exists cs'.
    + injection H as -> ->. auto.
    + right. right. by exists u, cs'.
  - intros [[->|H]|[[cs' H]|(u & cs' & H & Hin)]].
    + left. exists cs. apply elem_of_cons. auto.
    + right. exists e0, cs. split; [apply elem_of_cons; auto | done].
    + left. exists cs'. apply elem_of_cons. auto.
    + right. exists u, cs'. split; [apply elem_of_cons; auto | done].
Qed.

Lemma elem_of_omap_id (cs : list (option string)) e :
  e ∈ omap id cs <-> Some e ∈ cs.
Proof.
  rewrite list_elem_of_omap. split.
  - intros (x & Hx & <-). done.
  - intros H. by exists (Some e).
Qed.

Lemma read_rows_all rows ed all e :
  e ∈ (read_rows rows ed all).2 <-> e ∈ all \/ mentioned rows e.
Proof.
  revert ed all. induction rows as [|[e0 cs] rows IH]; intros ed all.
  - simpl. split; [auto|]. intros [H|[[cs H]|(u & cs & H & _)]]; [done| |];
      by apply elem_of_nil in H.
  - cbn [read_rows]. rewrite IH, mentioned_cons.
    rewrite !elem_of_union, elem_of_singleton, elem_of_list_to_set, elem_of_omap_id.
    tauto.
Qed.

Lemma all_entities_mentioned rows e : e ∈ all_entities rows <-> mentioned rows e.
Proof.
  unfold all_entities. rewrite read_rows_all. split; [|auto].
  intros [H|H]; [|done]. by apply not_elem_of_empty in H.
Qed.

Lemma dict_set_fresh {V} (d : list (string * V)) k v :
  k ∉ d.*1 -> dict_set d k v = d ++ [(k, v)].
Proof.
  induction d as [|[k' v'] d IH]; simpl; intros H; [done|].
  apply not_elem_of_cons in H as [H1 H2].
  rewrite decide_False by done. by rewrite IH.
Qed.

Lemma read_rows_data rows ed all :
  NoDup (ed.*1 ++ rows.*1) ->
  (read_rows rows ed all).1 = ed ++ (row_data <$> rows).
Proof.
  revert ed all. induction rows as [|[e0 cs] rows IH]; intros ed all Hnd.
  - simpl. by rewrite app_nil_r.
  - cbn [read_rows]. rewrite IH.
    + rewrite dict_set_fresh.
      * by rewrite <- app_assoc.
      * apply NoDup_app in Hnd as (_ & Hd & _). intros H. apply (Hd _ H).
        simpl. apply elem_of_cons. auto.
    + rewrite dict_set_fresh.
      * rewrite fmap_app. simpl. rewrite <- app_assoc. done.
      * apply NoDup_app in Hnd as (_ & Hd & _). intros H. apply (Hd _ H).
        simpl. apply elem_of_cons. auto.
Qed.

Lemma entities_data_rows rows :
  NoDup rows.*1 -> entities_data rows = row_data <$> rows.
Proof. intros H. unfold entities_data. by rewrite read_rows_data. Qed.

Lemma edges_adjacent rows u v :
  NoDup rows.*1 ->
  edge_of (edges (entities_data rows)) u v <-> adjacent rows u v.
Proof.
  intros H. rewrite entities_data_rows by done.
  unfold edge_of, edges, adjacent. rewrite list_elem_of_bind. split.
  - intros ([e cs'] & Hin & Hr). apply list_elem_of_fmap in Hr as ([e0 cs] & [= -> ->] & Hr).
    apply list_elem_of_fmap in Hin as (c & [= -> ->] & Hc). simpl in *.
    exists cs. split; [done|]. by apply elem_of_omap_id.
  - intros (cs & Hr & Hv). exists (u, omap id cs). split.
    + apply list_elem_of_fmap. exists v. split; [done|]. by apply elem_of_omap_id.
    + apply list_elem_of_fmap. by exists (u, cs).
Qed.

(** *** The groups and the identifiers *)

Lemma NoDup_join_lookup (groups : list (list string)) i j gi gj e :
  NoDup (mjoin groups) ->
  groups !! i = Some gi -> groups !! j = Some gj -> e ∈ gi -> e ∈ gj -> i = j.
Proof.
  revert i j. induction groups as [|g groups IH]; intros i j Hnd Hi Hj Hei Hej;
    [done|].
  simpl in Hnd. apply NoDup_app in Hnd as (_ & Hdisj & Hnd).
  assert (forall k gk, groups !! k = Some gk -> e ∈ gk -> e ∈ mjoin groups) as Hin.
  { intros k gk Hk He. apply list_elem_of_join. exists gk. split; [done|].
    by eapply list_elem_of_lookup_2. }
  destruct i as [|i], j as [|j]; simpl in *; simplify_eq.
  - done.
  - exfalso. apply (Hdisj e); eauto.
  - exfalso. apply (Hdisj e); eauto.
  - f_equal. by apply IH.
Qed.

(** What [calculate_communities] computes, in one statement: the groups,
    their order and the identifiers. *)
Lemma calculate_communities_groups rows :
  exists p comm groups o,
    communities rows = Some comm
    /\ community_list rows = Some groups
    /\ calculate_communities rows = Some o
    /\ components_of p (edges (entities_data rows))
    /\ grouping p comm (elements (all_entities rows))
    /\ groups = sorted_desc comm.*2
    /\ NoDup (mjoin groups)
    /\ relationshipCount o = (sum_list (length <$> (entities_data rows).*2) / 2)%nat
    /\ forall e i,
         community_assignment o !! e = Some i <->
         exists g, groups !! i = Some g /\ e ∈ g.
Proof.
  destruct (communities_grouping rows) as (p & comm & Hcomm & Hc & Hg).
  assert (NoDup (mjoin (sorted_desc comm.*2))) as Hnd.
  { rewrite sorted_desc_Permutation. destruct Hg as (_ & _ & ->).
    apply NoDup_elements. }
  exists p, comm, (sorted_desc comm.*2). eexists.
  unfold calculate_communities, community_list. rewrite Hcomm. simpl.
  do 7 (split; [done|]). split; [done|]. simpl.
  intros e i. rewrite assign_loop_lookup by done. split.
  - intros [(j & g & Hj & He & ->)|[_ H]]; [by exists g | done].
  - intros (g & Hi & He). left. by exists i, g.
Qed.

Lemma group_of_member p comm l groups e i g :
  grouping p comm l -> groups = sorted_desc comm.*2 ->
  groups !! i = Some g -> e ∈ g ->
  exists r, (r, g) ∈ comm /\ root p e r /\ e ∈ l.
Proof.
  intros (Hnd & Hms & Hl) -> Hi He.
  assert (g ∈ comm.*2) as Hg.
  { rewrite <- sorted_desc_Permutation. by eapply list_elem_of_lookup_2. }
  apply list_elem_of_fmap in Hg as ([r g'] & -> & Hg). exists r. simpl in *.
  split; [done|]. split; [by apply (Hms r g')|].
  rewrite <- Hl. apply list_elem_of_join. exists g'. split; [done|].
  apply list_elem_of_fmap. by exists (r, g').
Qed.

Lemma member_of_group p comm l groups e :
  grouping p comm l -> groups = sorted_desc comm.*2 -> e ∈ l ->
  exists i g r, groups !! i = Some g /\ e ∈ g /\ (r, g) ∈ comm.
Proof.
  intros (Hnd & Hms & Hl) -> He. rewrite <- Hl in He.
  apply list_elem_of_join in He as (g & He & Hg).
  assert (g ∈ sorted_desc comm.*2) as Hg' by by rewrite sorted_desc_Permutation.
  apply list_elem_of_lookup_1 in Hg' as [i Hi].
  apply list_elem_of_fmap in Hg as ([r g'] & -> & Hg).
  by exists i, g', r.
Qed.

Lemma grouping_key_fun p comm l r g g' :
  grouping p comm l -> (r, g) ∈ comm -> (r, g') ∈ comm -> g = g'.
Proof.
  intros (Hnd & _ & _) H H'.
  apply list_elem_of_lookup_1 in H as [i Hi], H' as [j Hj].
  assert (i = j) as ->.
  { apply (NoDup_lookup _ _ _ r Hnd); rewrite list_lookup_fmap.
    - by rewrite Hi.
    - by rewrite Hj. }
  congruence.
Qed.

(** Two entities with identifiers have the same one exactly when they
    are in the same tree. *)
Lemma same_id_joined p comm l groups a b i j gi gj :
  forest p -> grouping p comm l -> groups = sorted_desc comm.*2 ->
  NoDup (mjoin groups) ->
  groups !! i = Some gi -> a ∈ gi -> groups !! j = Some gj -> b ∈ gj ->
  i = j <-> joined p a b.
Proof.
  intros Hf Hg Hs Hnd Hi Ha Hj Hb.
  destruct (group_of_member _ _ _ _ _ _ _ Hg Hs Hi Ha) as (ra & Hra & Hroota & _).
  destruct (group_of_member _ _ _ _ _ _ _ Hg Hs Hj Hb) as (rb & Hrb & Hrootb & _).
  rewrite (joined_roots p a b ra rb) by done. split.
  - intros ->. assert (gi = gj) as -> by congruence.
    destruct Hg as (_ & Hms & _). destruct (Hms _ _ Hrb) as [_ H].
    by apply (root_fun p a); [|apply H].
  - intros ->. assert (gi = gj) as -> by by eapply grouping_key_fun.
    by eapply (NoDup_join_lookup groups i j gj gj a).
Qed.

Lemma isolated_connected rows a b :
  (forall c, c <> a -> ~ adjacent rows a c /\ ~ adjacent rows c a) ->
  connected rows a b -> b = a.
Proof.
  intros Hiso H. induction H as [|a a' b Hstep _ IH]; [done|].
  destruct (decide (a' = a)) as [->|Hne]; [by apply IH|].
  destruct (Hiso a' Hne) as [H1 H2]. by destruct Hstep.
Qed.

(** C3: for every list of rows with one row per entity, as the query
    groups them, [calculate_communities] returns, and the community
    assignment is a partition: the entities with an identifier are those
    that appear as an entity row or inside some list of neighbours, each
    with one identifier; two of them have the same identifier exactly
    when a path of relationship edges connects them; and an entity
    without edge to another entity is alone under its identifier. *)
Theorem community_partition (rows : list row) :
  NoDup rows.*1 ->
  exists o,
    calculate_communities rows = Some o
    /\ (forall e, mentioned rows e <-> is_Some (community_assignment o !! e))
    /\ (forall a b i j,
          community_assignment o !! a = Some i ->
          community_assignment o !! b = Some j ->
          i = j <-> connected rows a b)
    /\ (forall a,
          mentioned rows a ->
          (forall c, c <> a -> ~ adjacent rows a c /\ ~ adjacent rows c a) ->
          exists i, community_assignment o !! a = Some i
            /\ forall b, community_assignment o !! b = Some i -> b = a).
Proof.
  intros Hrows.
  destruct (calculate_communities_groups rows)
    as (p & comm & groups & o & _ & _ & Ho & [Hf Hj] & Hg & Hs & Hnd & _ & Ha).
  exists o. split; [done|].
  assert (forall e, mentioned rows e <-> is_Some (community_assignment o !! e)) as H1.
  { intros e. rewrite <- all_entities_mentioned, <- elem_of_elements. split.
    - intros He. destruct (member_of_group _ _ _ _ _ Hg Hs He) as (i & g & r & Hi & Hin & _).
      exists i. apply Ha. by exists g.
    - intros [i Hi]. apply Ha in Hi as (g & Hi & He).
      by destruct (group_of_member _ _ _ _ _ _ _ Hg Hs Hi He) as (_ & _ & _ & ?). }
  assert (forall a b i j,
            community_assignment o !! a = Some i ->
            community_assignment o !! b = Some j ->
            i = j <-> connected rows a b) as H2.
  { intros a b i j Hi Hj'. apply Ha in Hi as (gi & Hi & Hai).
    apply Ha in Hj' as (gj & Hj' & Hbj).
    rewrite (same_id_joined p comm _ groups a b i j gi gj) by done.
    rewrite Hj. apply rtsc_iff. intros u v. by apply edges_adjacent. }
  split; [done|]. split; [done|].
  intros a Hm Hiso. destruct (proj1 (H1 a) Hm) as [i Hi]. exists i.
  split; [done|]. intros b Hb. apply (isolated_connected rows a b Hiso).
  by apply (H2 a b i i).
Qed.

(** C8: for every list of rows with one row per entity, also when the
    lists are not symmetric, [relationshipCount] is the sum over the rows
    of the number of names in the list of neighbours of the row, divided
    by two and rounded down; a list without [None] counts with its
    length. *)
Theorem relationship_count (rows : list row) :
  NoDup rows.*1 ->
  exists o,
    calculate_communities rows = Some o
    /\ relationshipCount o
       = (sum_list ((fun r : row => length (omap id r.2)) <$> rows) / 2)%nat
    /\ (Forall (fun r : row => Forall is_Some r.2) rows ->
        relationshipCount o
        = (sum_list ((fun r : row => length r.2) <$> rows) / 2)%nat).
Proof.
  intros Hrows.
  destruct (calculate_communities_groups rows)
    as (p & comm & groups & o & _ & _ & Ho & _ & _ & _ & _ & Hcount & _).
  exists o. split; [done|].
  assert (relationshipCount o
          = (sum_list ((fun r : row => length (omap id r.2)) <$> rows) / 2)%nat) as H.
  { rewrite Hcount, entities_data_rows by done. do 2 f_equal.
    rewrite <- !list_fmap_compose. done. }
  split; [done|]. intros Hall. rewrite H. do 2 f_equal.
  apply Forall_fmap_ext_1. eapply Forall_impl; [exact Hall|].
  intros [e cs] Hcs. simpl in *. induction Hcs as [|c cs [x ->] _ IH]; [done|].
  simpl. f_equal. exact IH.
Qed.


End CommunityFacts.

Section CommunityExamples.
Import Communities.
Local Open Scope nat_scope.

(** The theorem at the rows [sizes_5_3_3_1]. *)
Lemma community_partition_witness :
  NoDup sizes_5_3_3_1.*1
  /\ exists o,
       calculate_communities sizes_5_3_3_1 = Some o
       /\ (forall e, mentioned sizes_5_3_3_1 e
                     <-> is_Some (community_assignment o !! e))
       /\ (forall a b i j,
             community_assignment o !! a = Some i ->
             community_assignment o !! b = Some j ->
             i = j <-> connected sizes_5_3_3_1 a b)
       /\ (forall a,
             mentioned sizes_5_3_3_1 a ->
             (forall c, c <> a -> ~ adjacent sizes_5_3_3_1 a c
                                  /\ ~ adjacent sizes_5_3_3_1 c a) ->
             exists i, community_assignment o !! a = Some i
               /\ forall b, community_assignment o !! b = Some i -> b = a).
Proof.
  assert (NoDup sizes_5_3_3_1.*1) as H
    by (apply (bool_decide_unpack _); vm_compute; reflexivity).
  split; [exact H|]. exact (community_partition sizes_5_3_3_1 H).
Defined.

(** The theorem at the rows [asymmetric]: one name in all the lists, and
    the count is 0. *)
Lemma relationship_count_witness :
  NoDup asymmetric.*1
  /\ exists o,
       calculate_communities asymmetric = Some o /\ relationshipCount o = 0.
Proof.
  assert (NoDup asymmetric.*1) as H
    by (apply (bool_decide_unpack _); vm_compute; reflexivity).
  split; [exact H|].
  destruct (relationship_count asymmetric H) as (o & Ho & Hcount & _).
  exists o. split; [exact Ho|]. rewrite Hcount. reflexivity.
Defined.

End CommunityExamples.

(** * Further properties *)

(** ** Trimming *)

Section StripFacts.

Lemma lstrip_by_split p s :
  exists removed,
    s = removed ++ lstrip_by p s /\ Forall (fun c => p c = true) removed.
Proof.
  induction s as [|c s (removed & Hs & Hr)]; [by exists []|].
  simpl. destruct (p c) eqn:E.
  - exists (c :: removed). split; [simpl; congruence | by constructor].
  - by exists [].
Qed.

Lemma lstrip_by_idem p s : lstrip_by p (lstrip_by p s) = lstrip_by p s.
Proof.
  destruct (lstrip_by p s) as [|c t] eqn:E; [done|].
  apply lstrip_by_head in E. by apply lstrip_by_id.
Qed.

Lemma rstrip_by_prefix p s : exists removed, s = rstrip_by p s ++ removed.
Proof.
  unfold rstrip_by. destruct (lstrip_by_split p (rev s)) as (removed & Hs & _).
  exists (rev removed). rewrite <- rev_app_distr, <- Hs. by rewrite rev_involutive.
Qed.

Lemma strip_by_idem p s : strip_by p (strip_by p s) = strip_by p s.
Proof.
  unfold strip_by.
  assert (lstrip_by p (rstrip_by p (lstrip_by p s)) = rstrip_by p (lstrip_by p s))
    as ->.
  { destruct (rstrip_by_prefix p (lstrip_by p s)) as [removed Hx].
    destruct (rstrip_by p (lstrip_by p s)) as [|c t]; [done|].
    apply lstrip_by_id. by apply (lstrip_by_head p s c (t ++ removed)). }
  unfold rstrip_by. by rewrite rev_involutive, lstrip_by_idem.
Qed.

Lemma strip_idem s : strip (strip s) = strip s.
Proof. apply strip_by_idem. Qed.

End StripFacts.

(** ** [parse_extraction_output]: delimiters, shape of the result, markers *)

Section ParserExtras.
Import PyFloat Parser.

Variable float : str -> option pyfloat.

(** With an empty tuple delimiter, the first record that is not empty
    raises. *)
Lemma parse_loop_empty_delimiter records acc :
  parse_loop float [] records acc
  = if decide (Forall (fun rec => rec = []) records) then Ok acc
    else Raise ValueError.
Proof.
  revert acc. induction records as [|rec records IH]; intros acc.
  - cbn [parse_loop]. by rewrite decide_True by constructor.
  - cbn [parse_loop]. destruct rec as [|c rec].
    + simpl. rewrite IH. destruct (decide (Forall (fun rec => rec = []) records)).
      * by rewrite decide_True by by constructor.
      * rewrite decide_False; [done|]. by intros H; inversion H.
    + rewrite decide_False; [done|]. by intros H; inversion H.
Qed.

Lemma parse_empty_tuple_delimiter (text : str) (rd : option str) :
  rd <> Some [] ->
  let cleaned := strip (strip_completion text) in
  let records :=
    map strip (split_go (resolve_record_delimiter cleaned rd) 0 [] cleaned) in
  parse_extraction_output float text rd (Some [])
  = if decide (Forall (fun rec => rec = []) records) then Ok ([], [])
    else Raise ValueError.
Proof.
  intros Hrd. simpl.
  unfold parse_extraction_output, raw_records.
  rewrite split_Ok by by apply resolve_record_delimiter_nonempty.
  simpl. rewrite parse_loop_empty_delimiter. by case_decide.
Qed.

(** X1: an empty string given as a delimiter makes [str.split] raise
    [ValueError], which [parse_extraction_output] does not catch.  With an
    empty record delimiter the function raises for every text; with an
    empty tuple delimiter it raises as soon as one record is not empty
    after trimming, and returns two empty lists otherwise. *)
Theorem parse_empty_delimiter (text : str) (rd td : option str) :
  parse_extraction_output float text (Some []) td = Raise ValueError
  /\ parse_extraction_output float text rd (Some [])
     = let cleaned := strip (strip_completion text) in
       let records :=
         map strip (split_go (resolve_record_delimiter cleaned rd) 0 [] cleaned) in
       if decide (rd = Some []) then Raise ValueError
       else if decide (Forall (fun rec => rec = []) records) then Ok ([], [])
       else Raise ValueError.
Proof.
  split; [done|]. cbv zeta. destruct (decide (rd = Some [])) as [->|Hrd]; [done|].
  by apply parse_empty_tuple_delimiter.
Qed.

Lemma tokens_of_trimmed td rec : Forall (fun t => strip t = t) (tokens_of td rec).
Proof.
  unfold tokens_of. apply Forall_fmap, Forall_forall. intros x _. simpl.
  apply strip_idem.
Qed.

Lemma strength_of_SStr token x : strength_of float token = SStr x -> x = token.
Proof.
  unfold strength_of. destruct (float token) as [f|]; [|by intros [= ->]].
  destruct (is_integer f); [|done].
  destruct (int_of_float f); intros H; by simplify_eq.
Qed.

Lemma survivor_trimmed td rec r :
  survivor float td rec = Some r -> trimmed_fields r.
Proof.
  unfold survivor, select. destruct rec as [|c rec]; [done|].
  pose proof (tokens_of_trimmed td (c :: rec)) as Ht.
  destruct (tokens_of td (c :: rec)) as [|t0 ts]; [done|].
  repeat case_decide; try done; intros [= <-];
    destruct ts as [|t1 [|t2 [|t3 [|t4 [|t5 ts]]]]]; try done;
    repeat match goal with H : Forall _ (_ :: _) |- _ =>
      apply Forall_cons in H as [? H] end; simpl.
  - done.
  - repeat split; try done. intros x Hx. apply strength_of_SStr in Hx. by subst.
Qed.

(** X2: whatever the text and the delimiters, [parse_extraction_output]
    either returns two lists, the first of entity records and the second
    of relationship records, every field of which is trimmed of white
    space, or raises [ValueError]; and it raises only when a delimiter was
    given as the empty string. *)
Theorem parse_output_shape (text : str) (rd td : option str) :
  match parse_extraction_output float text rd td with
  | Ok (nodes, relationships) =>
      Forall (fun r => is_entity r = true /\ trimmed_fields r) nodes
      /\ Forall (fun r => is_relationship r = true /\ trimmed_fields r)
           relationships
  | Raise e =>
      e = ValueError /\ (rd = Some [] \/ td = Some [])
  end.
Proof.
  destruct (decide (rd = Some [])) as [->|Hrd].
  { change (parse_extraction_output float text (Some []) td)
      with (Raise (A := list record * list record) ValueError).
    split; [done | by left]. }
  destruct (decide (td = Some [])) as [->|Htd].
  - rewrite (parse_empty_tuple_delimiter text rd Hrd). cbv zeta.
    case_decide; [|by auto]. by split; constructor.
  - rewrite parse_extraction_output_survivors by done. cbv zeta.
    split; apply Forall_forall; intros r Hr;
      apply list_elem_of_filter in Hr as [Hk Hr]; (split; [done|]);
      apply list_elem_of_omap in Hr as (rec & _ & Hr);
      by eapply survivor_trimmed.
Qed.

(** *** The completion marker at the end of a text *)

Lemma startswith_overlap p t c rest :
  startswith p (t ++ c :: rest) = true -> (length t < length p)%nat -> c ∈ p.
Proof.
  revert p. induction t as [|y t IH]; intros [|p0 p] H Hl; simpl in *; try lia.
  - apply andb_true_iff in H as [H _]. apply ascii_eqb_true in H as ->.
    by apply elem_of_cons; left.
  - apply andb_true_iff in H as [_ H]. apply elem_of_cons. right.
    apply IH; [done | lia].
Qed.

(** A pattern whose first character does not come back in it is found,
    written after a text that does not contain it, where it was written. *)
Lemma delimited_of_contains c sub text :
  c ∉ sub -> contains (c :: sub) text = false -> delimited (c :: sub) text.
Proof.
  intros Hc. unfold delimited. induction text as [|x t IH]; intros Hn.
  - pose proof (startswith_app (c :: sub) []) as E. rewrite app_nil_r in E.
    change ([] ++ c :: sub) with (c :: sub). cbn [find]. by rewrite E.
  - cbn [contains] in Hn. apply orb_false_iff in Hn as [H1 H2].
    change ((x :: t) ++ c :: sub) with (x :: (t ++ c :: sub)).
    cbn [find]. destruct (startswith (c :: sub) (x :: t ++ c :: sub)) eqn:E.
    + exfalso. cbn [startswith] in E, H1.
      apply andb_true_iff in E as [Ex E]. rewrite Ex in H1. simpl in H1.
      destruct (decide (length sub <= length t)%nat) as [Hl|Hl].
      * rewrite startswith_app_long in E by done. congruence.
      * apply Hc. apply (startswith_overlap sub t c sub E). lia.
    + rewrite (IH H2). done.
Qed.

Lemma replace_go_skip old new k s :
  (k <= length s)%nat -> replace_go old new k s = replace_go old new 0 (drop k s).
Proof.
  revert s; induction k as [|k IH]; intros s Hk; [done|].
  destruct s as [|c s]; simpl in *; [lia|]. apply IH. lia.
Qed.

Lemma replace_go_prefix old new f rest :
  (forall i, (i < length f)%nat -> startswith old (drop i (f ++ rest)) = false) ->
  replace_go old new 0 (f ++ rest) = f ++ replace_go old new 0 rest.
Proof.
  induction f as [|c f IH]; intros H; [done|].
  pose proof (H 0%nat ltac:(simpl; lia)) as H0. simpl in H0.
  simpl. rewrite H0, IH; [done|].
  intros i Hi. apply (H (S i)). simpl. lia.
Qed.

Lemma replace_trailing old new text :
  old <> [] -> delimited old text -> replace old new (text ++ old) = text ++ new.
Proof.
  intros Hne Hd. unfold replace. rewrite replace_go_prefix.
  - f_equal. destruct old as [|c old]; [done|].
    pose proof (startswith_app (c :: old) []) as E. rewrite app_nil_r in E.
    cbn [replace_go]. rewrite E. rewrite replace_go_skip by (simpl; lia).
    simpl. rewrite Nat.sub_0_r, drop_all. simpl. by rewrite app_nil_r.
  - intros i Hi. pose proof (delimited_no_start old text [] i Hd Hi) as H.
    by rewrite app_nil_r in H.
Qed.

Lemma contains_app_r sub a b : contains sub b = true -> contains sub (a ++ b) = true.
Proof.
  rewrite !contains_true. intros (x & y & ->). exists (a ++ x), y.
  by rewrite <- app_assoc.
Qed.

Lemma strip_completion_trailing text :
  contains completion_marker text = false ->
  strip_completion (text ++ completion_marker) = strip_completion text.
Proof.
  intros H. unfold strip_completion. rewrite H.
  rewrite contains_app_r by (vm_compute; reflexivity).
  rewrite replace_trailing; [by rewrite app_nil_r | done |].
  apply (delimited_of_contains "{"%char (lit "completion_delimiter}")); [|done].
  intros Hin. apply list_elem_of_In in Hin. vm_compute in Hin.
  repeat (destruct Hin as [Hin|Hin]; [discriminate|]). done.
Qed.

(** X3: a completion marker written at the end of a text that holds no
    other one is removed without a trace: the text parses as it does
    without the marker, whatever the delimiters. *)
Theorem parse_ignores_trailing_marker (text : str) (rd td : option str) :
  contains completion_marker text = false ->
  parse_extraction_output float (text ++ completion_marker) rd td
  = parse_extraction_output float text rd td.
Proof.
  intros H. unfold parse_extraction_output.
  by rewrite strip_completion_trailing.
Qed.

(** *** The format of the extraction prompt, read without delimiters *)

Lemma resolve_record_delimiter_strip t :
  resolve_record_delimiter (strip t) None = detect_record_delimiter t.
Proof.
  unfold resolve_record_delimiter, detect_record_delimiter, strip.
  change record_placeholder
    with ("{"%char :: lit "record_delimiter" ++ ["}"%char]).
  rewrite contains_strip_by by done.
  change (lit "|") with ["|"%char].
  by rewrite contains_strip_by_char by done.
Qed.

Lemma resolve_tuple_delimiter_strip t :
  resolve_tuple_delimiter (strip t) None = detect_tuple_delimiter t.
Proof.
  unfold resolve_tuple_delimiter, detect_tuple_delimiter, strip.
  change tuple_placeholder
    with ("{"%char :: lit "tuple_delimiter" ++ ["}"%char]).
  rewrite contains_strip_by by done.
  change (lit ";") with [";"%char].
  by rewrite contains_strip_by_char by done.
Qed.

Lemma parse_serialized rdo tdo rd td rs :
  rd <> [] -> td <> [] ->
  Forall (well_formed rd td) rs ->
  contains completion_marker (serialize rd td rs) = false ->
  resolve_record_delimiter (serialize rd td rs) rdo = rd ->
  resolve_tuple_delimiter (serialize rd td rs) tdo = td ->
  parse_extraction_output float (serialize rd td rs) rdo tdo =
    Ok (filter (fun el => is_entity el = true) (map (expected float) rs),
        filter (fun el => is_relationship el = true) (map (expected float) rs)).
Proof.
  intros Hrd Htd Hwf Hmark Hr Ht.
  rewrite parse_extraction_output_survivors.
  - cbv zeta. unfold strip_completion. rewrite Hmark, strip_serialize, Hr, Ht.
    destruct rs as [|r rs]; [done|].
    unfold serialize. rewrite join_split; [|done|done|].
    + by rewrite (survivors_serialize float rd).
    + apply Forall_fmap. eapply Forall_impl; [exact Hwf|].
      intros x (_ & _ & _ & H). exact H.
  - intros ->. simpl in Hr. congruence.
  - intros ->. simpl in Ht. congruence.
Qed.

Lemma contains_join_delimiter sep x y l : contains sep (join sep (x :: y :: l)) = true.
Proof.
  apply contains_true. exists x, (join sep (y :: l)). done.
Qed.

Lemma contains_serialize_record td r : contains td (serialize_record td r) = true.
Proof.
  apply contains_true. unfold serialize_record, serialize_body.
  destruct r as [n t d|a b d w].
  - exists (lit "(" ++ head_token (RawEntity n t d)),
      (join td [n; t; d] ++ lit ")").
    cbn [fields]. change (join td (?h :: [n; t; d]))
      with (h ++ td ++ join td [n; t; d]).
    by rewrite <- !app_assoc.
  - exists (lit "(" ++ head_token (RawRelationship a b d w)),
      (join td [a; b; d; w] ++ lit ")").
    cbn [fields]. change (join td (?h :: [a; b; d; w]))
      with (h ++ td ++ join td [a; b; d; w]).
    by rewrite <- !app_assoc.
Qed.

Lemma contains_app_l sub a b : contains sub a = true -> contains sub (a ++ b) = true.
Proof.
  rewrite !contains_true. intros (x & y & ->). exists x, (y ++ b).
  by rewrite <- !app_assoc.
Qed.

(** X5: the format that [create_extraction_prompt] asks for, records
    between ["|"] and fields between [";"], is read back without the
    delimiters being given: for two or more well-formed records whose text
    holds no completion marker and no placeholder, the parser detects both
    delimiters and returns the records, entities and relationships apart,
    in order. *)
Theorem parse_prompt_format (rs : list raw_record) :
  (2 <= length rs)%nat ->
  Forall (well_formed (lit "|") (lit ";")) rs ->
  contains completion_marker (serialize (lit "|") (lit ";") rs) = false ->
  contains record_placeholder (serialize (lit "|") (lit ";") rs) = false ->
  contains tuple_placeholder (serialize (lit "|") (lit ";") rs) = false ->
  parse_extraction_output float (serialize (lit "|") (lit ";") rs) None None =
    Ok (filter (fun el => is_entity el = true) (map (expected float) rs),
        filter (fun el => is_relationship el = true) (map (expected float) rs)).
Proof.
  intros Hlen Hwf Hmark Hrp Htp.
  destruct rs as [|r1 [|r2 rs]]; simpl in Hlen; try lia.
  apply parse_serialized; try done.
  - unfold resolve_record_delimiter. rewrite Hrp.
    unfold serialize. cbn [map]. by rewrite contains_join_delimiter.
  - unfold resolve_tuple_delimiter. rewrite Htp.
    unfold serialize. cbn [map].
    change (join ?s (?x :: ?y :: ?l)) with (x ++ s ++ join s (y :: l)).
    by rewrite contains_app_l by apply contains_serialize_record.
Qed.

End ParserExtras.

(** ** White space around a text *)

Section WhitespaceFacts.

Local Abbreviation blank := (Forall (fun c => isspace c = true)).
Local Abbreviation solid := (Forall (fun c => isspace c = false)).

Lemma lstrip_by_blank p ws s :
  Forall (fun c => p c = true) ws -> lstrip_by p (ws ++ s) = lstrip_by p s.
Proof. induction 1 as [|c ws Hc _ IH]; [done|]. simpl. by rewrite Hc. Qed.

Lemma lstrip_by_app_blank p s ws :
  Forall (fun c => p c = true) ws ->
  lstrip_by p (s ++ ws) = match lstrip_by p s with [] => [] | l => l ++ ws end.
Proof.
  intros Hws. induction s as [|c s IH]; simpl.
  - rewrite <- (app_nil_r ws) at 1. rewrite lstrip_by_blank by done. done.
  - destruct (p c); [exact IH | done].
Qed.

Lemma strip_by_surrounded p ws s ws' :
  Forall (fun c => p c = true) ws -> Forall (fun c => p c = true) ws' ->
  strip_by p (ws ++ s ++ ws') = strip_by p s.
Proof.
  intros Hws Hws'. unfold strip_by.
  rewrite lstrip_by_blank, lstrip_by_app_blank by done.
  destruct (lstrip_by p s) as [|c l]; [done|].
  unfold rstrip_by. rewrite rev_app_distr, lstrip_by_blank; [done|].
  by apply Forall_rev.
Qed.

Lemma startswith_blank_tail old t ws :
  solid old -> blank ws -> old <> [] ->
  startswith old (t ++ ws) = startswith old t.
Proof.
  intros Ho Hws. revert t. induction old as [|x o IH]; intros t Hne; [done|].
  apply Forall_cons in Ho as [Hx Ho].
  destruct t as [|y t]; simpl.
  - destruct Hws as [|w ws Hw _]; [done|]. simpl.
    destruct (ascii_eqb x w) eqn:E; [|done].
    apply ascii_eqb_true in E as ->. congruence.
  - destruct (ascii_eqb x y); [|done]. simpl.
    destruct o as [|x' o]; [by destruct t, ws|]. by apply IH.
Qed.

Lemma startswith_blank_head old c s :
  solid old -> old <> [] -> isspace c = true -> startswith old (c :: s) = false.
Proof.
  intros Ho Hne Hc. destruct Ho as [|x o Hx _]; [done|]. simpl.
  destruct (ascii_eqb x c) eqn:E; [|done]. apply ascii_eqb_true in E as ->. congruence.
Qed.

Lemma contains_blank old ws : solid old -> old <> [] -> blank ws -> contains old ws = false.
Proof.
  intros Ho Hne. induction 1 as [|c ws Hc _ IH].
  - by destruct old.
  - cbn [contains]. by rewrite startswith_blank_head, IH.
Qed.

Lemma contains_surrounded old ws s ws' :
  solid old -> old <> [] -> blank ws -> blank ws' ->
  contains old (ws ++ s ++ ws') = contains old s.
Proof.
  intros Ho Hne Hws Hws'. induction Hws as [|c ws Hc _ IH].
  - simpl. induction s as [|y s IH].
    + simpl. rewrite contains_blank by done. by destruct old.
    + cbn [app contains]. rewrite IH.
      change (y :: s ++ ws') with ((y :: s) ++ ws').
      by rewrite (startswith_blank_tail old (y :: s) ws').
  - cbn [app contains]. by rewrite startswith_blank_head, IH.
Qed.

Lemma replace_go_blank old new ws :
  solid old -> old <> [] -> blank ws -> replace_go old new 0 ws = ws.
Proof.
  intros Ho Hne. induction 1 as [|c ws Hc _ IH]; [done|].
  cbn [replace_go]. by rewrite startswith_blank_head, IH.
Qed.

Lemma replace_go_blank_tail old new k s ws :
  solid old -> old <> [] -> blank ws -> (k <= length s)%nat ->
  replace_go old new k (s ++ ws) = replace_go old new k s ++ ws.
Proof.
  intros Ho Hne Hws. revert k. induction s as [|y s IH]; intros k Hk.
  - simpl in Hk. assert (k = 0%nat) as -> by lia. simpl.
    by apply replace_go_blank.
  - cbn [app replace_go]. destruct k as [|k].
    + change (y :: s ++ ws) with ((y :: s) ++ ws) at 1.
      rewrite (startswith_blank_tail old (y :: s) ws) by done.
      destruct (startswith old (y :: s)) eqn:E.
      * apply startswith_length in E. simpl in E.
        rewrite IH by lia. by rewrite app_assoc.
      * by rewrite IH by lia.
    + apply IH. simpl in Hk. lia.
Qed.

Lemma replace_surrounded old new ws s ws' :
  solid old -> old <> [] -> blank ws -> blank ws' ->
  replace old new (ws ++ s ++ ws') = ws ++ replace old new s ++ ws'.
Proof.
  intros Ho Hne Hws Hws'. unfold replace.
  induction Hws as [|c ws Hc _ IH].
  - simpl. apply replace_go_blank_tail; [done..|lia].
  - cbn [app replace_go]. by rewrite startswith_blank_head, IH.
Qed.

End WhitespaceFacts.

Section ParserWhitespace.
Import PyFloat Parser.
Variable float : str -> option pyfloat.

Local Abbreviation blank := (Forall (fun c => isspace c = true)).
Local Abbreviation solid := (Forall (fun c => isspace c = false)).

Lemma completion_marker_solid : solid completion_marker /\ completion_marker <> [].
Proof. split; [|done]. apply (bool_decide_unpack _). vm_compute. reflexivity. Qed.

Lemma cleaned_surrounded ws text ws' :
  blank ws -> blank ws' ->
  strip (strip_completion (ws ++ text ++ ws')) = strip (strip_completion text).
Proof.
  intros Hws Hws'. destruct completion_marker_solid as [Hs Hne].
  unfold strip_completion. rewrite contains_surrounded by done.
  destruct (contains completion_marker text).
  - rewrite replace_surrounded by done. by apply strip_by_surrounded.
  - by apply strip_by_surrounded.
Qed.

Lemma parse_of_cleaned text text' rd td :
  strip (strip_completion text) = strip (strip_completion text') ->
  parse_extraction_output float text rd td = parse_extraction_output float text' rd td.
Proof. unfold parse_extraction_output. by intros ->. Qed.

(** X4: white space before and after the output of the model, such as
    the two newlines that the prompt asks for as completion delimiter,
    does not change what [parse_extraction_output] returns. *)
Theorem parse_ignores_surrounding_whitespace (ws text ws' : str) (rd td : option str) :
  blank ws -> blank ws' ->
  parse_extraction_output float (ws ++ text ++ ws') rd td
  = parse_extraction_output float text rd td.
Proof. intros Hws Hws'. by apply parse_of_cleaned, cleaned_surrounded. Qed.

End ParserWhitespace.

(** ** [extract_entities_with_llm] *)

Section ExtractionFacts.
Import PyFloat Parser Json Extraction.

Variable float : str -> option pyfloat.
Variable create_extraction_prompt : str -> str -> str.
Variable chat_bedrock : str -> result response.

Lemma parse_default_delimiters text :
  exists kept,
    parse_extraction_output float text None None =
      Ok (filter (fun el => is_entity el = true) kept,
          filter (fun el => is_relationship el = true) kept).
Proof.
  eexists. by apply (parse_extraction_output_survivors float text None None).
Qed.

(** X6: [extract_entities_with_llm] raises [RuntimeError] when
    [utils_strand] could not be imported and raises nothing otherwise:
    without Strands, or when the call of the model raises, it returns two
    empty lists; when the model answers, it returns what
    [parse_extraction_output] makes of the answer with detected
    delimiters, the parser never raising there. *)
Theorem extract_entities_with_llm_result (utils strands : bool) (text entity_types : str) :
  extract_entities_with_llm float utils strands create_extraction_prompt
    chat_bedrock text entity_types
  = if utils then
      if strands then
        match chat_bedrock (create_extraction_prompt entity_types text) with
        | Ok response => parse_extraction_output float (to_text response) None None
        | Raise _ => Ok ([], [])
        end
      else Ok ([], [])
    else Raise RuntimeError.
Proof.
  unfold extract_entities_with_llm. destruct utils; [|done]. destruct strands; [|done].
  simpl. destruct (chat_bedrock _) as [response|e]; [|done]. simpl.
  by destruct (parse_default_delimiters (to_text response)) as [kept ->].
Qed.

(** X7: when the model answers in the format of the prompt, two or more
    well-formed records between ["|"] with fields between [";"], possibly
    surrounded by white space, [extract_entities_with_llm] returns these
    records, entities and relationships apart, in order. *)
Theorem extract_entities_prompt_format (text entity_types : str)
    (response : response) (ws ws' : str) (rs : list raw_record) :
  chat_bedrock (create_extraction_prompt entity_types text) = Ok response ->
  to_text response = ws ++ serialize (lit "|") (lit ";") rs ++ ws' ->
  Forall (fun c => isspace c = true) ws -> Forall (fun c => isspace c = true) ws' ->
  (2 <= length rs)%nat ->
  Forall (well_formed (lit "|") (lit ";")) rs ->
  contains completion_marker (serialize (lit "|") (lit ";") rs) = false ->
  contains record_placeholder (serialize (lit "|") (lit ";") rs) = false ->
  contains tuple_placeholder (serialize (lit "|") (lit ";") rs) = false ->
  extract_entities_with_llm float true true create_extraction_prompt
    chat_bedrock text entity_types
  = Ok (filter (fun el => is_entity el = true) (map (expected float) rs),
        filter (fun el => is_relationship el = true) (map (expected float) rs)).
Proof.
  intros Hchat Htext Hws Hws' Hlen Hwf Hm Hr Ht.
  unfold extract_entities_with_llm. simpl. rewrite Hchat. simpl. rewrite Htext.
  rewrite (parse_of_cleaned float _ (serialize (lit "|") (lit ";") rs))
    by by apply cleaned_surrounded.
  destruct rs as [|r1 [|r2 rs]]; simpl in Hlen; try lia.
  rewrite (parse_serialized float None None (lit "|") (lit ";")); try done.
  - unfold resolve_record_delimiter. rewrite Hr.
    unfold serialize. cbn [map]. by rewrite contains_join_delimiter.
  - unfold resolve_tuple_delimiter. rewrite Ht.
    unfold serialize. cbn [map].
    change (join ?s (?x :: ?y :: ?l)) with (x ++ s ++ join s (y :: l)).
    by rewrite contains_app_l by apply contains_serialize_record.
Qed.

End ExtractionFacts.

(** ** [chunk_text]: the two branches *)

Section ChunkExtras.
Import Chunk.

Lemma chunk_count_bounds text chunk_size :
  1 <= chunk_size ->
  len text <= Z.of_nat (chunk_count text chunk_size) * chunk_size
  /\ (Z.of_nat (chunk_count text chunk_size) - 1) * chunk_size < len text.
Proof.
  intros Hc. unfold chunk_count.
  assert (0 <= len text) as Hl by (unfold len; lia).
  pose proof (Z.div_mod (len text + chunk_size - 1) chunk_size ltac:(lia)) as Hd.
  pose proof (Z.mod_pos_bound (len text + chunk_size - 1) chunk_size ltac:(lia)) as Hm.
  assert (0 <= (len text + chunk_size - 1) / chunk_size) as Hq
    by (apply Z.div_pos; lia).
  rewrite Z2Nat.id by done. nia.
Qed.

Lemma chunk_loop_fixed text chunk_size overlap :
  1 <= chunk_size ->
  forall (m k : nat) acc fuel,
    (k + m = chunk_count text chunk_size)%nat -> (m <= fuel)%nat ->
    chunk_loop fuel text chunk_size overlap false (Z.of_nat k * chunk_size) acc
    = Some (Ok (acc ++ map (window text chunk_size overlap) (seq k m))).
Proof.
  intros Hc. destruct (chunk_count_bounds text chunk_size Hc) as [Hup Hlow].
  induction m as [|m IH]; intros k acc fuel Hk Hf.
  - assert ((Z.of_nat k * chunk_size <? len text) = false) as E
      by (apply Z.ltb_ge; nia).
    destruct fuel; cbn [chunk_loop seq map]; rewrite E; by rewrite app_nil_r.
  - assert ((Z.of_nat k * chunk_size <? len text) = true) as E
      by (apply Z.ltb_lt; nia).
    destruct fuel as [|fuel]; [lia|]. cbn [chunk_loop]. rewrite E.
    change (chunk_step text chunk_size overlap false (Z.of_nat k * chunk_size))
      with (Ok (A := str * Z) (window text chunk_size overlap k,
                Z.of_nat k * chunk_size + chunk_size)).
    replace (Z.of_nat k * chunk_size + chunk_size)
      with (Z.of_nat (S k) * chunk_size) by lia.
    rewrite IH by lia. cbn [seq map]. by rewrite <- app_assoc.
Qed.

(** X8: without [split_on_whitespace_only] and with [chunk_size >= 1],
    whatever the overlap, [chunk_text] returns the length of the text
    divided by [chunk_size], rounded up, chunks, and the chunk number [i]
    is the trimmed slice from [i * chunk_size - overlap + 1], not below 0,
    to [i * chunk_size + chunk_size + overlap], not beyond the end. *)
Theorem chunk_text_fixed_width (text : str) (chunk_size overlap : Z) (fuel : nat) :
  1 <= chunk_size ->
  (chunk_count text chunk_size <= fuel)%nat ->
  chunk_text fuel text chunk_size overlap false
  = Some (Ok (map (window text chunk_size overlap)
                (seq 0 (chunk_count text chunk_size)))).
Proof.
  intros Hc Hf. unfold chunk_text.
  exact (chunk_loop_fixed text chunk_size overlap Hc
           (chunk_count text chunk_size) 0 [] fuel eq_refl Hf).
Qed.

Lemma chunk_loop_stuck text chunk_size overlap fuel index acc :
  chunk_size <= 0 -> index < len text ->
  chunk_loop fuel text chunk_size overlap false index acc = None.
Proof.
  intros Hc. revert index acc. induction fuel as [|fuel IH]; intros index acc Hi.
  - cbn [chunk_loop]. by apply Z.ltb_lt in Hi as ->.
  - cbn [chunk_loop]. pose proof Hi as Hi'. apply Z.ltb_lt in Hi' as ->.
    unfold chunk_step. apply IH. lia.
Qed.

(** X9: without [split_on_whitespace_only], a [chunk_size] of zero or
    less on a text that is not empty never leaves the loop: no number of
    iterations is enough. *)
Theorem chunk_text_fixed_width_diverges (text : str) (chunk_size overlap : Z) :
  chunk_size <= 0 -> text <> [] ->
  forall fuel, chunk_text fuel text chunk_size overlap false = None.
Proof.
  intros Hc Ht fuel. apply chunk_loop_stuck; [done|].
  destruct text; [done|]. unfold len. simpl. lia.
Qed.

Lemma chunk_step_trimmed text chunk_size overlap flag index chunk index' :
  chunk_step text chunk_size overlap flag index = Ok (chunk, index') ->
  strip chunk = chunk.
Proof.
  unfold chunk_step. destruct flag.
  - destruct (scan_left _ _); simpl; [|done]. intros [= <- _]. apply strip_idem.
  - intros [= <- _]. apply strip_idem.
Qed.

Lemma chunk_loop_trimmed fuel text chunk_size overlap flag index acc chunks :
  Forall (fun c => strip c = c) acc ->
  chunk_loop fuel text chunk_size overlap flag index acc = Some (Ok chunks) ->
  Forall (fun c => strip c = c) chunks.
Proof.
  revert index acc. induction fuel as [|fuel IH]; intros index acc Hacc;
    cbn [chunk_loop]; destruct (index <? len text); try done.
  - by intros [= <-].
  - destruct (chunk_step _ _ _ _ _) as [[chunk index']|e] eqn:E; [|done].
    apply IH. apply Forall_app. split; [done|]. constructor; [|done].
    by eapply chunk_step_trimmed.
  - by intros [= <-].
Qed.

(** X10: in both branches, every chunk that [chunk_text] returns is
    trimmed: it has no white space at either end. *)
Theorem chunk_text_trimmed (fuel : nat) (text : str) (chunk_size overlap : Z)
    (flag : bool) (chunks : list str) :
  chunk_text fuel text chunk_size overlap flag = Some (Ok chunks) ->
  Forall (fun c => strip c = c) chunks.
Proof. by apply chunk_loop_trimmed. Qed.

(** *** The branch that cuts at blanks *)

Lemma contains_drop sub k s : contains sub s = false -> contains sub (drop k s) = false.
Proof.
  intros H. destruct (contains sub (drop k s)) eqn:E; [|done].
  rewrite <- (take_drop k s), (contains_app_r _ _ _ E) in H. done.
Qed.

Lemma startswith_char_lookup c n (s : str) :
  startswith [c] (drop n s) = true <-> s !! n = Some c.
Proof.
  rewrite startswith_true. split.
  - intros [r Hr]. rewrite <- (take_drop n s), Hr at 1.
    destruct (decide (n <= length s)%nat) as [Hn|Hn].
    + rewrite lookup_app_r by (rewrite length_take; lia).
      rewrite length_take. by replace (n - n `min` length s)%nat with 0%nat by lia.
    + rewrite drop_ge in Hr by lia. done.
  - intros H. exists (drop (S n) s). by rewrite (drop_S _ _ _ H).
Qed.

Lemma scan_left_found text n p :
  scan_left text n = Ok p ->
  0 <= p /\ (p = 0 \/ (p < Z.of_nat n /\ text !! Z.to_nat p = Some space)).
Proof.
  induction n as [|k IH]; cbn [scan_left]; [intros [= <-]; lia|].
  destruct (text !! k) as [c|] eqn:L; [|done].
  destruct (ascii_eqb c space) eqn:E.
  - intros [= <-]. apply ascii_eqb_true in E as ->.
    split; [lia|]. right. split; [lia|]. by rewrite Nat2Z.id.
  - intros H. destruct (IH H) as [H0 [H1|[H1 H2]]]; [lia|]. split; [lia|].
    right. split; [lia | done].
Qed.

Lemma find_from_found c text start r :
  find_from [c] text start = r -> r <> -1 ->
  0 <= r < len text /\ text !! Z.to_nat r = Some c /\ (0 <= start -> start <= r).
Proof.
  unfold find_from. intros <- Hr.
  set (st := if start <? 0 then Z.max 0 (start + len text) else start) in *.
  assert (0 <= st) as Hst.
  { subst st. destruct (start <? 0) eqn:E; [lia|]. apply Z.ltb_ge in E. lia. }
  assert (0 <= start -> st = start) as Hs.
  { intros H. subst st. destruct (start <? 0) eqn:E; [|done].
    apply Z.ltb_lt in E. lia. }
  destruct (len text <? st) eqn:E; [done|]. apply Z.ltb_ge in E.
  destruct (find [c] (drop (Z.to_nat st) text)) as [i|] eqn:F; [|done].
  apply find_Some in F as [F _]. rewrite drop_drop in F.
  apply startswith_char_lookup in F.
  replace (Z.to_nat (st + Z.of_nat i)) with (Z.to_nat st + i)%nat by lia.
  split; [|split; [done | lia]].
  apply lookup_lt_Some in F. unfold len. lia.
Qed.

(** X11: with [split_on_whitespace_only], one iteration cuts the text at
    blanks only: the chunk is the trimmed slice from [a] to [b], where [a]
    is 0 or the index of a blank not after [index - overlap], and [b] is
    the length of the text or the index of a blank, not before
    [index + chunk_size] when that is not negative; the next index is
    [b + 1]. *)
Theorem chunk_step_cuts_at_blanks (text : str) (chunk_size overlap index : Z)
    (chunk : str) (index' : Z) :
  chunk_step text chunk_size overlap true index = Ok (chunk, index') ->
  exists a b,
    chunk = strip (slice text a b) /\ index' = b + 1
    /\ (a = 0 \/ (0 < a <= index - overlap /\ text !! Z.to_nat a = Some space))
    /\ (b = len text
        \/ (0 <= b < len text /\ text !! Z.to_nat b = Some space
            /\ (0 <= index + chunk_size -> index + chunk_size <= b))).
Proof.
  unfold chunk_step.
  destruct (scan_left text (Z.to_nat (index - overlap + 1))) as [a|] eqn:Ha;
    [|done]. cbn [mbind result_bind].
  intros [= <- <-].
  apply scan_left_found in Ha as [Ha0 Ha].
  destruct (find_from [space] text (index + chunk_size) =? -1) eqn:E.
  - exists a, (len text). split; [done|]. split; [done|]. split; [|by left].
    destruct Ha as [->|[H1 H2]]; [by left|].
    destruct (decide (a = 0)) as [->|]; [by left|]. right. split; [lia | done].
  - apply Z.eqb_neq in E.
    destruct (find_from_found space text (index + chunk_size) _ eq_refl E)
      as (Hb & Hl & Hge).
    exists a, (find_from [space] text (index + chunk_size)).
    split; [done|]. split; [done|]. split; [|by right].
    destruct Ha as [->|[H1 H2]]; [by left|].
    destruct (decide (a = 0)) as [->|]; [by left|]. right. split; [lia | done].
Qed.

Lemma scan_left_no_blank text n :
  contains [space] text = false -> (n <= length text)%nat -> scan_left text n = Ok 0.
Proof.
  intros Hc. induction n as [|k IH]; intros Hn; cbn [scan_left]; [done|].
  destruct (text !! k) as [c|] eqn:L.
  - destruct (ascii_eqb c space) eqn:E; [|apply IH; lia].
    apply ascii_eqb_true in E as ->.
    apply startswith_char_lookup in L.
    apply (contains_drop _ k) in Hc.
    destruct (drop k text); cbn [contains] in Hc; by rewrite L in Hc.
  - apply lookup_ge_None in L. lia.
Qed.

Lemma find_from_no_blank text start :
  contains [space] text = false -> find_from [space] text start = -1.
Proof.
  intros Hc. unfold find_from.
  destruct (len text <? _); [done|].
  match goal with |- context [drop ?k text] =>
    apply (contains_drop _ k), find_None_contains in Hc; by rewrite Hc end.
Qed.

Lemma slice_all (s : str) : slice s 0 (len s) = s.
Proof.
  unfold slice, clip. simpl.
  assert ((len s <? 0) = false) as -> by (apply Z.ltb_ge; unfold len; lia).
  rewrite Z.min_id. unfold len. rewrite Nat2Z.id.
  replace (Z.to_nat (Z.min 0 (Z.of_nat (length s)))) with 0%nat by lia.
  rewrite drop_0, Nat.sub_0_r. by rewrite firstn_all.
Qed.

(** X12: with [split_on_whitespace_only] and an overlap that is not
    negative, a text without a blank comes back as one chunk, the trimmed
    text, whatever [chunk_size]. *)
Theorem chunk_text_without_blank (text : str) (chunk_size overlap : Z) (fuel : nat) :
  text <> [] -> contains [space] text = false -> 0 <= overlap ->
  chunk_text (S fuel) text chunk_size overlap true = Some (Ok [strip text]).
Proof.
  intros Ht Hc Ho. unfold chunk_text. cbn [chunk_loop].
  assert (0 < len text) as Hl by (destruct text; [done | unfold len; simpl; lia]).
  assert ((0 <? len text) = true) as -> by by apply Z.ltb_lt.
  unfold chunk_step. rewrite scan_left_no_blank; [|done|unfold len in Hl; lia].
  cbn [mbind result_bind]. rewrite find_from_no_blank by done.
  rewrite Z.eqb_refl, slice_all.
  assert ((len text + 1 <? len text) = false) as E by (apply Z.ltb_ge; lia).
  destruct fuel; cbn [chunk_loop]; by rewrite E.
Qed.

(** X13: with [split_on_whitespace_only], an overlap of minus the length
    of the text or less makes the first iteration read [text[left_index]]
    beyond the end: [chunk_text] raises [IndexError]. *)
Theorem chunk_text_negative_overlap_raises (text : str) (chunk_size overlap : Z)
    (fuel : nat) :
  text <> [] -> overlap <= - len text ->
  chunk_text (S fuel) text chunk_size overlap true = Some (Raise IndexError).
Proof.
  intros Ht Ho. unfold chunk_text. cbn [chunk_loop].
  assert (0 < len text) as Hl by (destruct text; [done | unfold len; simpl; lia]).
  assert ((0 <? len text) = true) as -> by by apply Z.ltb_lt.
  unfold chunk_step.
  replace (Z.to_nat (0 - overlap + 1)) with (S (Z.to_nat (- overlap))) by lia.
  cbn [scan_left].
  assert (text !! Z.to_nat (- overlap) = None) as ->
    by (apply lookup_ge_None; unfold len in *; lia).
  done.
Qed.

End ChunkExtras.

(** ** [extract_json]: the fence and the balanced span *)

Section JsonExtras.
Import PyFloat Json Decoder.

Variable json_loads : str -> option json.

(** *** The fence removed by the first block *)

Lemma removeprefix_app p s : removeprefix p (p ++ s) = s.
Proof. unfold removeprefix. by rewrite startswith_app, drop_app_length. Qed.

Lemma removesuffix_app p s : removesuffix p (s ++ p) = s.
Proof.
  unfold removesuffix, endswith. rewrite rev_app_distr, startswith_app.
  rewrite length_app. replace (length s + length p - length p)%nat with (length s) by lia.
  by rewrite take_app_length.
Qed.

Lemma unfenced_fenced body : unfenced (fence_json ++ body ++ fence) = strip body.
Proof. unfold unfenced. by rewrite removeprefix_app, removesuffix_app. Qed.

(** X14: a response that starts with the json fence and ends with a
    fence is decoded by the first block: when [json.loads] accepts the
    trimmed text between the fences, [extract_json] returns its value. *)
Theorem extract_json_fenced (r : response) (body : str) (v : json) :
  to_text r = fence_json ++ body ++ fence ->
  json_loads (strip body) = Some v ->
  extract_json json_loads r = Ok v.
Proof.
  intros Ht Hv. unfold extract_json. rewrite Ht, unfenced_fenced.
  unfold attempt, loads. rewrite Hv. done.
Qed.

(** *** The fenced block inside a text *)

Lemma find_at sub s n :
  startswith sub (drop n s) = true ->
  (forall i, (i < n)%nat -> startswith sub (drop i s) = false) ->
  find sub s = Some n.
Proof.
  revert s. induction n as [|n IH]; intros s Hn Hlt.
  - rewrite drop_0 in Hn. destruct s; simpl in *; by rewrite Hn.
  - pose proof (Hlt 0%nat ltac:(lia)) as H0. rewrite drop_0 in H0.
    destruct s as [|c s].
    + simpl in *. by rewrite H0 in Hn.
    + cbn [find]. rewrite H0. rewrite (IH s); [done | done |].
      intros i Hi. apply (Hlt (S i)). lia.
Qed.

Lemma find_delimited sep f rest :
  delimited sep f -> find sep (f ++ sep ++ rest) = Some (length f).
Proof.
  intros Hd. apply find_at.
  - rewrite drop_app_length. apply startswith_app.
  - intros i Hi. by apply delimited_no_start.
Qed.

Lemma fence_search_skip pre rest :
  (forall i, (i < length pre)%nat -> startswith fence_json (drop i (pre ++ rest)) = false) ->
  fence_search (pre ++ rest) = fence_search rest.
Proof.
  induction pre as [|c pre IH]; intros H; [done|].
  cbn [app fence_search]. unfold match_here.
  pose proof (H 0%nat ltac:(simpl; lia)) as H0. rewrite drop_0 in H0.
  cbn [app] in H0. rewrite H0. apply IH. intros i Hi. apply (H (S i)). simpl. lia.
Qed.

Lemma fence_search_here s g : match_here s = Some g -> fence_search s = Some g.
Proof. intros H. destruct s; cbn [fence_search]; by rewrite H. Qed.

Lemma fence_search_block pre c body post :
  delimited fence_json pre ->
  isspace c = false ->
  delimited (newline :: fence) (c :: body) ->
  fence_search (pre ++ fence_json ++ newline :: (c :: body) ++ (newline :: fence) ++ post)
  = Some (c :: body).
Proof.
  intros Hpre Hc Hbody.
  rewrite fence_search_skip by (intros i Hi; by apply delimited_no_start).
  apply fence_search_here.
  set (rest := newline :: (c :: body) ++ (newline :: fence) ++ post).
  unfold match_here. rewrite startswith_app, drop_app_length.
  assert (space_run rest = 1%nat) as ->.
  { subst rest. cbn [space_run app]. by rewrite Hc. }
  cbn [backtrack]. unfold group_after at 1.
  subst rest. cbn [drop app].
  assert (ascii_eqb c newline = false) as ->.
  { destruct (ascii_eqb c newline) eqn:E; [|done].
    apply ascii_eqb_true in E as ->. done. }
  unfold group_after. cbn [drop]. rewrite ascii_eqb_refl.
  change (c :: body ++ newline :: fence ++ post)
    with ((c :: body) ++ (newline :: fence) ++ post).
  rewrite (find_delimited (newline :: fence) (c :: body) post Hbody).
  cbn [mbind option_bind]. by rewrite take_app_length.
Qed.

(** X15: a fenced block inside a text is found by the regular expression
    of the second block: for a text with the json fence, a newline, a
    body that starts with a character that is not white space, a newline
    and a fence, where the json fence does not occur before and the body
    holds no newline followed by a fence, [extract_json] returns the value
    of the trimmed body when [json.loads] rejects the text as a whole and
    accepts the body. *)
Theorem extract_json_fenced_block (r : response) (pre body post : str) (c : ascii)
    (v : json) :
  to_text r = pre ++ fence_json ++ newline :: (c :: body) ++ (newline :: fence) ++ post ->
  delimited fence_json pre ->
  isspace c = false ->
  delimited (newline :: fence) (c :: body) ->
  json_loads (unfenced (to_text r)) = None ->
  json_loads (strip (c :: body)) = Some v ->
  extract_json json_loads r = Ok v.
Proof.
  intros Ht Hpre Hc Hbody Hnone Hv. rewrite extract_json_first_parse.
  unfold first_parse, candidates. cbn [app omap list_omap]. rewrite Hnone.
  rewrite Ht, (fence_search_block pre c body post Hpre Hc Hbody).
  change (strip <$> Some (c :: body)) with (Some (strip (c :: body))).
  change (option_list (Some ?x)) with [x].
  cbn [app omap list_omap].
  by rewrite Hv.
Qed.

(** *** The balanced span of the third and fourth blocks *)

Lemma find_char_prefix c (s : str) n :
  find [c] s = Some n -> (c ∉ take n s) /\ s !! n = Some c.
Proof.
  intros H. apply find_Some in H as [H1 H2]. split.
  - intros Hin. apply list_elem_of_lookup_1 in Hin as [i Hi].
    pose proof (lookup_lt_Some _ _ _ Hi) as Hlt. rewrite length_take in Hlt.
    rewrite lookup_take_lt in Hi by lia.
    apply startswith_char_lookup in Hi. rewrite H2 in Hi by lia. done.
  - by apply startswith_char_lookup.
Qed.

Lemma find_char_at c (pre rest : str) :
  c ∉ pre -> find [c] (pre ++ c :: rest) = Some (length pre).
Proof.
  intros Hpre. apply find_at.
  - rewrite drop_app_length. cbn [startswith]. by rewrite ascii_eqb_refl.
  - intros i Hi. destruct (startswith [c] (drop i (pre ++ c :: rest))) eqn:E; [|done].
    apply startswith_char_lookup in E. rewrite lookup_app_l in E by done.
    apply list_elem_of_lookup_2 in E. done.
Qed.

Section Scan.
Variables opening closing : ascii.

Lemma scan_balanced_sound s : forall k n,
  1 <= k -> scan_balanced opening closing k s = Some n ->
  (0 < n <= length s)%nat
  /\ k + depth opening closing (take n s) = 0
  /\ forall m, (m < n)%nat -> 1 <= k + depth opening closing (take m s).
Proof.
  induction s as [|c s IH]; intros k n Hk; cbn [scan_balanced]; [done|].
  assert (forall k' n',
            1 <= k' ->
            k' = k + (if ascii_eqb c opening then 1
                      else if ascii_eqb c closing then -1 else 0) ->
            scan_balanced opening closing k' s = Some n' ->
            (0 < S n' <= length (c :: s))%nat
            /\ k + depth opening closing (take (S n') (c :: s)) = 0
            /\ forall m, (m < S n')%nat ->
                 1 <= k + depth opening closing (take m (c :: s))) as Hstep.
  { intros k' n' Hk' Hd Hs. destruct (IH k' n' Hk' Hs) as (H1 & H2 & H3).
    split; [simpl; lia|]. cbn [take depth]. split; [lia|].
    intros [|m] Hm; cbn [take depth]; [lia|].
    specialize (H3 m ltac:(lia)). lia. }
  destruct (ascii_eqb c opening) eqn:Eo.
  - destruct (scan_balanced opening closing (k + 1) s) as [n'|] eqn:Hs; [|done].
    intros [= <-]. by apply (Hstep (k + 1)); [lia | |].
  - destruct (ascii_eqb c closing) eqn:Ec.
    + destruct (k - 1 =? 0) eqn:E0.
      * intros [= <-]. apply Z.eqb_eq in E0.
        split; [simpl; lia|]. cbn [take depth]. rewrite Eo, Ec. rewrite take_0.
        cbn [depth]. split; [lia|]. intros m Hm.
        assert (m = 0%nat) as -> by lia. cbn [take depth]. lia.
      * apply Z.eqb_neq in E0.
        destruct (scan_balanced opening closing (k - 1) s) as [n'|] eqn:Hs; [|done].
        intros [= <-]. by apply (Hstep (k - 1)); [lia | |].
    + destruct (scan_balanced opening closing k s) as [n'|] eqn:Hs; [|done].
      intros [= <-]. by apply (Hstep k); [lia | lia |].
Qed.

Lemma scan_balanced_complete s post : forall k,
  1 <= k -> k + depth opening closing s = 0 ->
  (forall m, (m < length s)%nat -> 1 <= k + depth opening closing (take m s)) ->
  scan_balanced opening closing k (s ++ post) = Some (length s).
Proof.
  induction s as [|c s IH]; intros k Hk Hd Hm; cbn [depth] in Hd; [lia|].
  cbn [app scan_balanced length].
  assert (forall k',
            k' = k + (if ascii_eqb c opening then 1
                      else if ascii_eqb c closing then -1 else 0) ->
            k' + depth opening closing s = 0
            /\ forall m, (m < length s)%nat ->
                 1 <= k' + depth opening closing (take m s)) as Hstep.
  { intros k' ->. split; [lia|]. intros m Hlt.
    specialize (Hm (S m) ltac:(simpl; lia)). cbn [take depth] in Hm. lia. }
  destruct (ascii_eqb c opening) eqn:Eo.
  - destruct (Hstep (k + 1) eq_refl) as [H1 H2].
    by rewrite IH by (done || lia).
  - destruct (ascii_eqb c closing) eqn:Ec.
    + destruct (Hstep (k - 1) ltac:(lia)) as [H1 H2].
      destruct (k - 1 =? 0) eqn:E0.
      * apply Z.eqb_eq in E0. destruct s as [|c' s]; [done|].
        specialize (Hm 1%nat ltac:(simpl; lia)). cbn [take depth] in Hm.
        rewrite Eo, Ec in Hm. lia.
      * apply Z.eqb_neq in E0. by rewrite IH by (done || lia).
    + destruct (Hstep k ltac:(lia)) as [H1 H2].
      by rewrite IH by (done || lia).
Qed.

Lemma balanced_span_elim (text s : str) :
  s <> [] ->
  balanced_span opening closing text = Some s ->
  exists pre post,
    text = pre ++ s ++ post
    /\ (opening ∉ pre)
    /\ head s = Some opening
    /\ depth opening closing s = 0
    /\ forall m, (0 < m < length s)%nat -> 0 < depth opening closing (take m s).
Proof.
  intros Hs. unfold balanced_span.
  destruct (find [opening] text) as [start|] eqn:F; [|done]. cbn [mbind option_bind].
  apply find_char_prefix in F as [Hpre Hat].
  rewrite (drop_S _ _ _ Hat). cbn [scan_balanced]. rewrite ascii_eqb_refl.
  destruct (scan_balanced opening closing (0 + 1) (drop (S start) text))
    as [n|] eqn:Hscan; cbn [fmap option_fmap option_map]; [|intros [= <-]; done].
  intros [= <-].
  apply scan_balanced_sound in Hscan as (Hn & Hd & Hm); [|lia].
  exists (take start text), (drop n (drop (S start) text)).
  cbn [take]. split.
  { cbn [app]. rewrite take_drop, <- (drop_S _ _ _ Hat). by rewrite take_drop. }
  split; [done|]. split; [done|]. cbn [depth]. rewrite ascii_eqb_refl.
  split; [lia|]. intros [|m] Hlt; [lia|]. cbn [take depth]. rewrite ascii_eqb_refl.
  cbn [length] in Hlt. rewrite length_take in Hlt.
  rewrite take_take, Nat.min_l by lia.
  specialize (Hm m ltac:(lia)). lia.
Qed.

Lemma balanced_span_intro (pre s post : str) :
  opening ∉ pre ->
  head s = Some opening ->
  depth opening closing s = 0 ->
  (forall m, (0 < m < length s)%nat -> 0 < depth opening closing (take m s)) ->
  balanced_span opening closing (pre ++ s ++ post) = Some s.
Proof.
  intros Hpre Hhead Hd Hm. unfold balanced_span.
  destruct s as [|c s]; [done|]. injection Hhead as ->.
  cbn [app]. rewrite find_char_at by done. cbn [mbind option_bind].
  rewrite drop_app_length. cbn [scan_balanced]. rewrite ascii_eqb_refl.
  cbn [depth] in Hd. rewrite ascii_eqb_refl in Hd.
  rewrite scan_balanced_complete; [| lia | lia |].
  - cbn [fmap option_fmap option_map take]. by rewrite take_app_length.
  - intros m Hlt. specialize (Hm (S m) ltac:(simpl; lia)).
    cbn [take depth] in Hm. rewrite ascii_eqb_refl in Hm. lia.
Qed.

(** X16: the text that the third and fourth blocks pass to [json.loads],
    when it is not empty, is the shortest balanced span at the first
    opener: it starts at the first occurrence of the opener, the openers
    and closers in it are equal in number, and in every shorter part of it
    the openers are more; and every such span is the one found, whatever
    follows it. *)
Theorem balanced_span_shortest (text s : str) :
  s <> [] ->
  balanced_span opening closing text = Some s <->
  exists pre post,
    text = pre ++ s ++ post
    /\ (opening ∉ pre)
    /\ head s = Some opening
    /\ depth opening closing s = 0
    /\ forall m, (0 < m < length s)%nat -> 0 < depth opening closing (take m s).
Proof.
  intros Hs. split; [by apply balanced_span_elim|].
  intros (pre & post & -> & Hpre & Hhead & Hd & Hm). by apply balanced_span_intro.
Qed.

End Scan.

(** X17: an object inside a text is found by the third block: when the
    text holds no json fence and [json.loads] rejects it as a whole, the
    value of the shortest balanced brace span at the first brace is
    returned if [json.loads] accepts that span. *)
Theorem extract_json_embedded_object (r : response) (pre s post : str) (v : json) :
  to_text r = pre ++ s ++ post ->
  "{"%char ∉ pre ->
  head s = Some "{"%char ->
  depth "{" "}" s = 0 ->
  (forall m, (0 < m < length s)%nat -> 0 < depth "{" "}" (take m s)) ->
  json_loads (unfenced (to_text r)) = None ->
  contains fence_json (to_text r) = false ->
  json_loads s = Some v ->
  extract_json json_loads r = Ok v.
Proof.
  intros Ht Hpre Hhead Hd Hm Hnone Hfence Hv. rewrite extract_json_first_parse.
  unfold first_parse, candidates. cbn [app omap list_omap]. rewrite Hnone.
  rewrite (fence_search_None _ Hfence), Ht.
  rewrite (balanced_span_intro "{" "}" pre s post Hpre Hhead Hd Hm).
  change (strip <$> None) with (@None str).
  change (option_list (Some ?x)) with [x]. change (option_list None) with (@nil str).
  cbn [app omap list_omap]. by rewrite Hv.
Qed.

End JsonExtras.

(** ** [calculate_communities]: the statistics, [find] and [union] *)

Section CommunityExtras.
Import Communities.
Local Open Scope nat_scope.

(** *** The statistics *)

Lemma calculate_communities_fields rows groups o :
  community_list rows = Some groups ->
  calculate_communities rows = Some o ->
  communityCount o = length groups
  /\ communityDistribution o = histogram (length <$> groups)
  /\ nodeCount o = size (all_entities rows)
  /\ largest_community_size o = list_max (length <$> groups)
  /\ smallest_community_size o = list_min (length <$> groups).
Proof.
  unfold calculate_communities. intros ->. simpl. by intros [= <-].
Qed.

Lemma groups_cover rows :
  exists groups o,
    community_list rows = Some groups
    /\ calculate_communities rows = Some o
    /\ StronglySorted by_size_desc groups
    /\ Forall (fun g => g <> []) groups
    /\ mjoin groups ≡ₚ elements (all_entities rows)
    /\ forall e i,
         community_assignment o !! e = Some i <->
         exists g, groups !! i = Some g /\ e ∈ g.
Proof.
  destruct (calculate_communities_groups rows)
    as (p & comm & groups & o & _ & Hl & Ho & _ & Hg & Hs & _ & _ & Ha).
  exists groups, o. do 2 (split; [done|]).
  destruct Hg as (_ & Hne & Hperm). subst groups.
  split; [apply sorted_desc_sorted|]. split; [|split; [|done]].
  - rewrite sorted_desc_Permutation. apply Forall_forall. intros g Hg.
    apply list_elem_of_fmap in Hg as ([r ms] & -> & Hin). by apply (Hne r ms).
  - by rewrite sorted_desc_Permutation.
Qed.

(** X19: for every list of rows, no community is empty, [communityCount]
    is the number of communities, and [nodeCount] is the sum of their
    sizes, which is the number of entities with an identifier; so there
    are at most as many communities as nodes. *)
Theorem community_sizes_sum (rows : list row) :
  exists groups o,
    community_list rows = Some groups
    /\ calculate_communities rows = Some o
    /\ communityCount o = length groups
    /\ Forall (fun g => 1 <= length g) groups
    /\ nodeCount o = sum_list (length <$> groups)
    /\ nodeCount o = size (dom (community_assignment o))
    /\ communityCount o <= nodeCount o.
Proof.
  destruct (groups_cover rows) as (groups & o & Hl & Ho & _ & Hne & Hperm & Ha).
  destruct (calculate_communities_fields rows groups o Hl Ho) as (Hc & _ & Hn & _).
  exists groups, o. do 3 (split; [done|]).
  assert (Forall (fun g : list string => 1 <= length g) groups) as Hpos.
  { eapply Forall_impl; [exact Hne|]. intros [|x g]; simpl; [done | lia]. }
  assert (nodeCount o = sum_list (length <$> groups)) as Hsum.
  { rewrite Hn, <- length_join, Hperm. done. }
  split; [done|]. split; [done|]. split.
  - rewrite Hn. f_equal. apply set_eq. intros e.
    rewrite elem_of_dom, <- elem_of_elements, <- Hperm. split.
    + intros Hin. apply list_elem_of_join in Hin as (g & He & Hg).
      apply list_elem_of_lookup_1 in Hg as [i Hi]. exists i. apply Ha. by exists g.
    + intros [i Hi]. apply Ha in Hi as (g & Hi & He).
      apply list_elem_of_join. exists g. split; [done|].
      by apply list_elem_of_lookup_2 in Hi.
  - rewrite Hc, Hsum. clear -Hpos. induction Hpos as [|g groups Hg _ IH]; csimpl; lia.
Qed.

Lemma histogram_foldl (sizes : list nat) (d : gmap nat nat) (n : nat) :
  foldl (fun d size => <[size := default 0 (d !! size) + 1]> d) d sizes !! n
  = let k := length (filter (fun s => s = n) sizes) in
    if decide (k = 0) then d !! n else Some (default 0 (d !! n) + k).
Proof.
  revert d. induction sizes as [|s sizes IH]; intros d; [done|].
  cbn [foldl]. rewrite IH. cbn zeta. rewrite filter_cons.
  destruct (decide (s = n)) as [->|Hne].
  - rewrite lookup_insert_eq. cbn [length default].
    destruct (decide (length (filter (fun s => s = n) sizes) = 0)) as [->|Hk].
    + rewrite decide_False by lia. f_equal; lia.
    + rewrite decide_False by lia. unfold id. f_equal; lia.
  - by rewrite lookup_insert_ne by done.
Qed.

Lemma length_filter_fmap {A B} (f : A -> B) (P : B -> Prop) `{!forall x, Decision (P x)}
    (l : list A) :
  length (filter P (f <$> l)) = length (filter (fun x => P (f x)) l).
Proof.
  induction l as [|x l IH]; [done|]. csimpl. rewrite !filter_cons.
  destruct (decide (P (f x))); simpl; by rewrite IH.
Qed.

(** X20: [communityDistribution] maps a size to the number of
    communities of that size, and has no entry for a size that no
    community has. *)
Theorem community_distribution_counts (rows : list row) :
  exists groups o,
    community_list rows = Some groups
    /\ calculate_communities rows = Some o
    /\ forall n,
         communityDistribution o !! n
         = let k := length (filter (fun g => length g = n) groups) in
           if decide (k = 0) then None else Some k.
Proof.
  destruct (groups_cover rows) as (groups & o & Hl & Ho & _).
  destruct (calculate_communities_fields rows groups o Hl Ho) as (_ & Hd & _).
  exists groups, o. do 2 (split; [done|]). intros n.
  rewrite Hd. unfold histogram. rewrite histogram_foldl. cbn zeta.
  rewrite (length_filter_fmap length (fun s => s = n)). rewrite lookup_empty.
  destruct (decide _); [done|]. done.
Qed.

Lemma list_max_ge l x : x ∈ l -> x <= list_max l.
Proof.
  unfold list_max. induction l as [|y l IH]; [by intros ?%elem_of_nil|].
  intros [->|Hin]%elem_of_cons; simpl; [lia|]. specialize (IH Hin). lia.
Qed.

Lemma list_max_elem l : l <> [] -> list_max l ∈ l.
Proof.
  unfold list_max. induction l as [|y l IH]; [done|]. intros _. simpl.
  destruct l as [|z l].
  - simpl. rewrite Nat.max_0_r. by left.
  - specialize (IH ltac:(done)).
    destruct (Nat.max_spec y (foldr Nat.max 0 (z :: l))) as [[_ ->]|[_ ->]];
      [by right | by left].
Qed.

Lemma foldr_min_le x l :
  foldr Nat.min x l <= x /\ forall y, y ∈ l -> foldr Nat.min x l <= y.
Proof.
  induction l as [|z l [IH1 IH2]]; simpl.
  - split; [lia|]. by intros y ?%elem_of_nil.
  - split; [lia|]. intros y [->|Hin]%elem_of_cons; [lia|]. specialize (IH2 y Hin). lia.
Qed.

Lemma foldr_min_elem x l : foldr Nat.min x l ∈ x :: l.
Proof.
  induction l as [|z l IH]; simpl; [by left|].
  destruct (Nat.min_spec z (foldr Nat.min x l)) as [[_ ->]|[_ ->]].
  - right. by left.
  - apply elem_of_cons in IH as [->|IH]; [by left | by do 2 right].
Qed.

Lemma list_min_le l x : x ∈ l -> list_min l <= x.
Proof.
  destruct l as [|y l]; [by intros ?%elem_of_nil|].
  destruct (foldr_min_le y l) as [H1 H2].
  intros [->|Hin]%elem_of_cons; simpl; [done | by apply H2].
Qed.

Lemma list_min_elem l : l <> [] -> list_min l ∈ l.
Proof. destruct l as [|y l]; [done|]. intros _. apply foldr_min_elem. Qed.

Lemma sorted_head_last (groups : list (list string)) g :
  StronglySorted by_size_desc groups -> g ∈ groups ->
  exists g0 gl,
    head groups = Some g0 /\ last groups = Some gl
    /\ length gl <= length g <= length g0.
Proof.
  intros Hs Hg. destruct groups as [|g0 groups]; [by apply elem_of_nil in Hg|].
  destruct (last (g0 :: groups)) as [gl|] eqn:Hl;
    [|by apply last_None in Hl].
  exists g0, gl. do 2 (split; [done|]).
  apply list_elem_of_lookup_1 in Hg as [i Hi].
  rewrite last_lookup in Hl. cbn [length pred] in Hl.
  pose proof (lookup_lt_Some _ _ _ Hi) as Hlt. cbn [length] in Hlt.
  split.
  - destruct (decide (i = length groups)) as [->|Hne]; [simplify_eq; lia|].
    by apply (StronglySorted_lookup by_size_desc _ i (length groups) g gl Hs Hi Hl
                ltac:(lia)).
  - destruct i as [|i]; [simplify_eq/=; lia|].
    by apply (StronglySorted_lookup by_size_desc _ 0 (S i) g0 g Hs eq_refl Hi
                ltac:(lia)).
Qed.

(** X21: [largest_community_size] is the size of the first community of
    the sorted list, the one with the identifier 0, and
    [smallest_community_size] the size of the last; both are 0 when there
    is no community, and otherwise every size lies between them and the
    smallest is at least 1. *)
Theorem community_size_extremes (rows : list row) :
  exists groups o,
    community_list rows = Some groups
    /\ calculate_communities rows = Some o
    /\ largest_community_size o = default 0 (length <$> head groups)
    /\ smallest_community_size o = default 0 (length <$> last groups)
    /\ (forall g, g ∈ groups ->
          1 <= smallest_community_size o <= length g
          /\ length g <= largest_community_size o).
Proof.
  destruct (groups_cover rows) as (groups & o & Hl & Ho & Hs & Hne & _).
  destruct (calculate_communities_fields rows groups o Hl Ho)
    as (_ & _ & _ & Hmax & Hmin).
  exists groups, o. do 2 (split; [done|]).
  destruct (decide (groups = [])) as [->|Hg].
  { rewrite Hmax, Hmin. do 2 (split; [done|]). by intros g ?%elem_of_nil. }
  assert (length <$> groups <> []) as Hg' by by destruct groups.
  pose proof (list_max_elem _ Hg') as Hmax_in.
  pose proof (list_min_elem _ Hg') as Hmin_in.
  rewrite <- Hmax in Hmax_in. rewrite <- Hmin in Hmin_in.
  apply list_elem_of_fmap in Hmax_in as (gmax & Hmax_eq & Hmax_in).
  apply list_elem_of_fmap in Hmin_in as (gmin & Hmin_eq & Hmin_in).
  assert (forall g, g ∈ groups ->
            smallest_community_size o <= length g <= largest_community_size o) as Hb.
  { intros g Hin. rewrite Hmax, Hmin. split.
    - apply list_min_le, list_elem_of_fmap. by exists g.
    - apply list_max_ge, list_elem_of_fmap. by exists g. }
  destruct (sorted_head_last groups gmax Hs Hmax_in) as (g0 & gl & H0 & Hlast & H1).
  destruct (sorted_head_last groups gmin Hs Hmin_in) as (? & ? & ? & ? & H2).
  simplify_eq.
  assert (g0 ∈ groups) as Hg0 by (destruct groups; simplify_eq/=; by left).
  assert (gl ∈ groups) as Hgl.
  { rewrite last_lookup in Hlast. by apply list_elem_of_lookup_2 in Hlast. }
  pose proof (Hb g0 Hg0). pose proof (Hb gl Hgl).
  rewrite H0, Hlast. cbn [fmap option_fmap option_map default]. unfold id.
  split; [lia|]. split; [lia|]. intros g Hin.
  pose proof (Hb g Hin). rewrite Forall_forall in Hne.
  pose proof (Hne gmin Hmin_in) as Hpos.
  assert (1 <= length gmin) by (destruct gmin; [done | simpl; lia]). lia.
Qed.

(** X22: the identifiers in use are exactly the numbers from 0 to
    [communityCount - 1]: each of them is the identifier of some entity,
    and no entity has another one. *)
Theorem community_ids_contiguous (rows : list row) :
  exists o,
    calculate_communities rows = Some o
    /\ forall i,
         (exists e, community_assignment o !! e = Some i) <-> i < communityCount o.
Proof.
  destruct (groups_cover rows) as (groups & o & Hl & Ho & _ & Hne & _ & Ha).
  destruct (calculate_communities_fields rows groups o Hl Ho) as (Hc & _).
  exists o. split; [done|]. intros i. rewrite Hc. split.
  - intros [e He]. apply Ha in He as (g & Hi & _). by apply lookup_lt_Some in Hi.
  - intros Hi. apply lookup_lt_is_Some in Hi as [g Hg].
    rewrite Forall_forall in Hne.
    pose proof (Hne g (list_elem_of_lookup_2 _ _ _ Hg)) as Hn.
    destruct g as [|e g]; [done|]. exists e. apply Ha. exists (e :: g).
    split; [done | by left].
Qed.

(** *** Names that are [None] *)

Lemma omap_id_filter (cs : list (option string)) :
  omap id (filter is_Some cs) = omap id cs.
Proof.
  induction cs as [|[c|] cs IH]; [done| |].
  - rewrite filter_cons_True by done.
    change (c :: omap id (filter is_Some cs) = c :: omap id cs). by f_equal.
  - rewrite filter_cons_False by by intros [? ?]. exact IH.
Qed.

Lemma read_rows_without_none rows ed all :
  read_rows ((fun r : row => (r.1, filter is_Some r.2)) <$> rows) ed all
  = read_rows rows ed all.
Proof.
  revert ed all. induction rows as [|[e cs] rows IH]; intros ed all; [done|].
  csimpl. rewrite omap_id_filter. apply IH.
Qed.

(** X23: the names that are [None] in the lists of neighbours are
    ignored: the rows without them give the same outcome. *)
Theorem calculate_communities_ignores_none (rows : list row) :
  calculate_communities ((fun r : row => (r.1, filter is_Some r.2)) <$> rows)
  = calculate_communities rows.
Proof.
  unfold calculate_communities, community_list, communities, entities_data,
    all_entities.
  by rewrite read_rows_without_none.
Qed.

(** *** [find] and [union] *)

Lemma find_rec_parent fuel p x p' r :
  find_rec fuel p x = Some (p', r) -> p' !! x = Some r.
Proof.
  destruct fuel as [|fuel]; [done|]. cbn [find_rec].
  destruct (p !! x) as [px|] eqn:Hx.
  - rewrite Hx. cbn [default]. case_decide as Hpx.
    + intros [= <- <-]. by subst.
    + unfold id. destruct (find_rec fuel p px) as [[p2 r2]|]; [|done].
      cbn [mbind option_bind]. intros [= <- <-]. apply lookup_insert_eq.
  - rewrite lookup_insert_eq. cbn [default]. rewrite decide_True by done.
    intros [= <- <-]. apply lookup_insert_eq.
Qed.

Lemma find_rec_S fuel p x :
  find_rec (S fuel) p x
  = let parent := match p !! x with None => <[x := x]> p | Some _ => p end in
    let px := default x (parent !! x) in
    if decide (px = x) then Some (parent, px)
    else '(parent, r) ← find_rec fuel parent px; Some (<[x := r]> parent, r).
Proof. reflexivity. Qed.

Lemma find_again p x r :
  p !! x = Some r -> p !! r = Some r -> find p x = Some (p, r).
Proof.
  intros Hx Hr. unfold find.
  assert (0 < size p) as Hsize.
  { destruct (decide (size p = 0)) as [H0|]; [|lia].
    apply map_size_empty_iff in H0. subst. by rewrite lookup_empty in Hx. }
  destruct (size p) as [|n]; [lia|].
  rewrite find_rec_S. cbv zeta. rewrite Hx. cbn [default]. rewrite Hx. cbn [default].
  unfold id. case_decide as Hrx; [done|].
  rewrite find_rec_S. cbv zeta. rewrite Hr. cbn [default]. rewrite Hr. cbn [default].
  unfold id.
  rewrite decide_True by done. cbn [mbind option_bind]. by rewrite insert_id.
Qed.

(** X24: on a state of [parent] without cycle, [find] returns the root of
    its argument and leaves the argument pointing at that root, the root
    pointing at itself and every name with the root it had; a second
    [find] of the same name returns the same root and changes nothing. *)
Theorem find_compresses (p : gmap string string) (x : string) :
  forest p ->
  exists p' r,
    find p x = Some (p', r)
    /\ root p x r
    /\ p' !! x = Some r /\ p' !! r = Some r
    /\ same_roots p p'
    /\ find p' x = Some (p', r).
Proof.
  intros Hf. destruct (find_root p x Hf) as (p' & r & Hfind & Hroot & Hr & Hsame & _).
  exists p', r. split; [done|]. split; [done|].
  pose proof (find_rec_parent _ _ _ _ _ Hfind) as Hx.
  do 3 (split; [done|]). by apply find_again.
Qed.

Lemma joined_refl p a : forest p -> joined p a a.
Proof. intros Hf. destruct (Hf a) as [r Hr]. by exists r. Qed.

(** X25: on a state of [parent] without cycle, [union] leaves a state
    without cycle in which its two arguments are in one tree, and two
    names are in one tree exactly when they were before or one was with
    the first argument and the other with the second. *)
Theorem union_merges (p : gmap string string) (x y : string) :
  forest p ->
  exists p',
    union p x y = Some p' /\ forest p'
    /\ joined p' x y
    /\ forall a b,
         joined p' a b <->
         joined p a b \/ (joined p a x /\ joined p y b)
         \/ (joined p a y /\ joined p x b).
Proof.
  intros Hf. destruct (union_joined p x y Hf) as (p' & Hu & Hf' & Hj).
  exists p'. do 2 (split; [done|]). split; [|done].
  apply Hj. right. left. split; by apply joined_refl.
Qed.

End CommunityExtras.

(** ** [generate_community_report_with_llm]: the availability flags *)

Section ReportAvailability.
Import PyFloat Json.

Variable json_loads : str -> option json.
Variables nodes_t relationships_t : Type.
Variable get_summarize_community_prompt : nodes_t -> relationships_t -> str.
Variable chat_bedrock : str -> result response.


End ReportAvailability.

(** ** The theorems at concrete inputs *)

Section ParserInstances.
Import PyFloat Parser Parser.Examples Json Extraction.

(** X3 at the record [("relationship";A;B;x;9)]. *)
Lemma parse_ignores_trailing_marker_witness :
  contains completion_marker one_relationship = false
  /\ parse_extraction_output float_of_str
       (one_relationship ++ completion_marker) None None
     = parse_extraction_output float_of_str one_relationship None None.
Proof.
  assert (contains completion_marker one_relationship = false) as H
    by (vm_compute; reflexivity).
  split; [exact H|].
  exact (parse_ignores_trailing_marker float_of_str one_relationship None None H).
Defined.

(** X4 at the same record, after a blank and a Parser.newline and before two
    Parser.newlines. *)
Lemma parse_ignores_surrounding_whitespace_witness :
  Forall (fun c => isspace c = true) (lit " " ++ Parser.newline)
  /\ Forall (fun c => isspace c = true) (Parser.newline ++ Parser.newline)
  /\ parse_extraction_output float_of_str
       ((lit " " ++ Parser.newline) ++ one_relationship ++ Parser.newline ++ Parser.newline) None None
     = parse_extraction_output float_of_str one_relationship None None.
Proof.
  assert (Forall (fun c => isspace c = true) (lit " " ++ Parser.newline)) as H1
    by (repeat constructor).
  assert (Forall (fun c => isspace c = true) (Parser.newline ++ Parser.newline)) as H2
    by (repeat constructor).
  split; [exact H1|]. split; [exact H2|].
  exact (parse_ignores_surrounding_whitespace float_of_str _ one_relationship _
           None None H1 H2).
Defined.

(** X5 at [two_kinds]. *)
Lemma parse_prompt_format_witness :
  (2 <= length two_kinds)%nat
  /\ Forall (well_formed (lit "|") (lit ";")) two_kinds
  /\ contains completion_marker (serialize (lit "|") (lit ";") two_kinds) = false
  /\ contains record_placeholder (serialize (lit "|") (lit ";") two_kinds) = false
  /\ contains tuple_placeholder (serialize (lit "|") (lit ";") two_kinds) = false
  /\ parse_extraction_output float_of_str
       (serialize (lit "|") (lit ";") two_kinds) None None
     = Ok ([Entity (lit "A") (lit "T") (lit "first");
            Entity (lit "B") (lit "T") (lit "second")],
           [Relationship (lit "A") (lit "B") (lit "knows")
              (SFloat (Finite 5629499534213120 (-51)));
            Relationship (lit "B") (lit "A") (lit "knows") (SInt 9)]).
Proof.
  assert (2 <= length two_kinds)%nat as H1 by (simpl; lia).
  assert (Forall (well_formed (lit "|") (lit ";")) two_kinds) as H2.
  { apply (bool_decide_unpack _). vm_compute. reflexivity. }
  assert (contains completion_marker
            (serialize (lit "|") (lit ";") two_kinds) = false) as H3
    by (vm_compute; reflexivity).
  assert (contains record_placeholder
            (serialize (lit "|") (lit ";") two_kinds) = false) as H4
    by (vm_compute; reflexivity).
  assert (contains tuple_placeholder
            (serialize (lit "|") (lit ";") two_kinds) = false) as H5
    by (vm_compute; reflexivity).
  split; [exact H1|]. split; [exact H2|]. split; [exact H3|].
  split; [exact H4|]. split; [exact H5|].
  rewrite (parse_prompt_format float_of_str two_kinds H1 H2 H3 H4 H5).
  vm_compute. reflexivity.
Defined.

(** X7 with a model that answers [prompt_answer]. *)
Lemma extract_entities_prompt_format_witness :
  Forall (fun c => isspace c = true) (Parser.newline ++ Parser.newline)
  /\ (2 <= length two_kinds)%nat
  /\ Forall (well_formed (lit "|") (lit ";")) two_kinds
  /\ contains completion_marker (serialize (lit "|") (lit ";") two_kinds) = false
  /\ contains record_placeholder (serialize (lit "|") (lit ";") two_kinds) = false
  /\ contains tuple_placeholder (serialize (lit "|") (lit ";") two_kinds) = false
  /\ extract_entities_with_llm float_of_str true true
       (fun _ _ => lit "prompt") (fun _ => Ok (Plain prompt_answer))
       (lit "text") (lit "PERSON")
     = Ok ([Entity (lit "A") (lit "T") (lit "first");
            Entity (lit "B") (lit "T") (lit "second")],
           [Relationship (lit "A") (lit "B") (lit "knows")
              (SFloat (Finite 5629499534213120 (-51)));
            Relationship (lit "B") (lit "A") (lit "knows") (SInt 9)]).
Proof.
  assert (Forall (fun c => isspace c = true) (Parser.newline ++ Parser.newline)) as H0
    by (repeat constructor).
  assert (2 <= length two_kinds)%nat as H1 by (simpl; lia).
  assert (Forall (well_formed (lit "|") (lit ";")) two_kinds) as H2.
  { apply (bool_decide_unpack _). vm_compute. reflexivity. }
  assert (contains completion_marker
            (serialize (lit "|") (lit ";") two_kinds) = false) as H3
    by (vm_compute; reflexivity).
  assert (contains record_placeholder
            (serialize (lit "|") (lit ";") two_kinds) = false) as H4
    by (vm_compute; reflexivity).
  assert (contains tuple_placeholder
            (serialize (lit "|") (lit ";") two_kinds) = false) as H5
    by (vm_compute; reflexivity).
  split; [exact H0|]. split; [exact H1|]. split; [exact H2|]. split; [exact H3|].
  split; [exact H4|]. split; [exact H5|].
  rewrite (extract_entities_prompt_format float_of_str
             (fun _ _ => lit "prompt") (fun _ => Ok (Plain prompt_answer))
             (lit "text") (lit "PERSON") (Plain prompt_answer) []
             (Parser.newline ++ Parser.newline) two_kinds eq_refl eq_refl
             (Forall_nil_2 _) H0 H1 H2 H3 H4 H5).
  vm_compute. reflexivity.
Defined.

End ParserInstances.

Section ChunkInstances.
Import Chunk.

(** X8 at the text "aa bb cc dd", chunk size 4 and overlap 1: three
    chunks. *)
Lemma chunk_text_fixed_width_witness :
  1 <= 4
  /\ (chunk_count (lit "aa bb cc dd") 4 <= 3)%nat
  /\ chunk_text 3 (lit "aa bb cc dd") 4 1 false
     = Some (Ok [lit "aa bb"; lit "b cc"; lit "dd"]).
Proof.
  assert (1 <= 4) as H1 by lia.
  assert (chunk_count (lit "aa bb cc dd") 4 <= 3)%nat as H2
    by (vm_compute; lia).
  split; [exact H1|]. split; [exact H2|].
  rewrite (chunk_text_fixed_width (lit "aa bb cc dd") 4 1 3 H1 H2).
  vm_compute. reflexivity.
Defined.

(** X9 at the text "ab" and the chunk size 0, with 7 iterations. *)
Lemma chunk_text_fixed_width_diverges_witness :
  0 <= 0 /\ lit "ab" <> [] /\ chunk_text 7 (lit "ab") 0 1 false = None.
Proof.
  assert (0 <= 0) as H1 by lia.
  assert (lit "ab" <> []) as H2 by done.
  split; [exact H1|]. split; [exact H2|].
  exact (chunk_text_fixed_width_diverges (lit "ab") 0 1 H1 H2 7%nat).
Defined.

(** X10 at the text "aa bb cc dd", chunk size 3 and overlap 1. *)
Lemma chunk_text_trimmed_witness :
  chunk_text 11 (lit "aa bb cc dd") 3 1 true
  = Some (Ok [lit "aa bb"; lit "cc dd"])
  /\ Forall (fun c => strip c = c) [lit "aa bb"; lit "cc dd"].
Proof.
  assert (chunk_text 11 (lit "aa bb cc dd") 3 1 true
          = Some (Ok [lit "aa bb"; lit "cc dd"])) as H
    by (vm_compute; reflexivity).
  split; [exact H|].
  exact (chunk_text_trimmed 11 (lit "aa bb cc dd") 3 1 true _ H).
Defined.

(** X11 at the same text and the index 6: the chunk runs from the blank
    at 5 to the end of the text. *)
Lemma chunk_step_cuts_at_blanks_witness :
  chunk_step (lit "aa bb cc dd") 3 1 true 6 = Ok (lit "cc dd", 12)
  /\ exists a b,
       lit "cc dd" = strip (slice (lit "aa bb cc dd") a b) /\ 12 = b + 1
       /\ (a = 0
           \/ (0 < a <= 6 - 1
               /\ lit "aa bb cc dd" !! Z.to_nat a = Some space))
       /\ (b = len (lit "aa bb cc dd")
           \/ (0 <= b < len (lit "aa bb cc dd")
               /\ lit "aa bb cc dd" !! Z.to_nat b = Some space
               /\ (0 <= 6 + 3 -> 6 + 3 <= b))).
Proof.
  assert (chunk_step (lit "aa bb cc dd") 3 1 true 6 = Ok (lit "cc dd", 12)) as H
    by (vm_compute; reflexivity).
  split; [exact H|].
  exact (chunk_step_cuts_at_blanks (lit "aa bb cc dd") 3 1 6 _ _ H).
Defined.

(** X12 at the text "abc". *)
Lemma chunk_text_without_blank_witness :
  lit "abc" <> [] /\ contains [space] (lit "abc") = false /\ 0 <= 1
  /\ chunk_text 1 (lit "abc") 2 1 true = Some (Ok [strip (lit "abc")]).
Proof.
  assert (lit "abc" <> []) as H1 by done.
  assert (contains [space] (lit "abc") = false) as H2 by (vm_compute; reflexivity).
  assert (0 <= 1) as H3 by lia.
  split; [exact H1|]. split; [exact H2|]. split; [exact H3|].
  exact (chunk_text_without_blank (lit "abc") 2 1 0 H1 H2 H3).
Defined.

(** X13 at the text "ab" and the overlap -2. *)
Lemma chunk_text_negative_overlap_raises_witness :
  lit "ab" <> [] /\ -2 <= - len (lit "ab")
  /\ chunk_text 1 (lit "ab") 3 (-2) true = Some (Raise IndexError).
Proof.
  assert (lit "ab" <> []) as H1 by done.
  assert (-2 <= - len (lit "ab")) as H2 by (vm_compute; discriminate).
  split; [exact H1|]. split; [exact H2|].
  exact (chunk_text_negative_overlap_raises (lit "ab") 3 (-2) 0 H1 H2).
Defined.

End ChunkInstances.

Section JsonInstances.
Import PyFloat Json Decoder.

(** The hypothesis on the parts of a span, from a list of its lengths. *)
Lemma prefixes_from_seq (P : nat -> Prop) (n : nat) :
  Forall P (seq 1 (n - 1)) -> forall m, (0 < m < n)%nat -> P m.
Proof.
  intros H m Hm. rewrite Forall_forall in H. apply H, elem_of_seq. lia.
Qed.

(** X14 at the object [title_x] between the fences, on one line. *)
Lemma extract_json_fenced_witness :
  json_decode (strip title_x) = Some title_x_value
  /\ extract_json json_decode (Plain (fence_json ++ title_x ++ fence))
     = Ok title_x_value.
Proof.
  assert (json_decode (strip title_x) = Some title_x_value) as H
    by (vm_compute; reflexivity).
  split; [exact H|].
  exact (extract_json_fenced json_decode (Plain (fence_json ++ title_x ++ fence))
           title_x title_x_value eq_refl H).
Defined.

(** X15 at [report_in_prose]: a sentence, the fenced object, a
    sentence. *)
Lemma extract_json_fenced_block_witness :
  delimited fence_json (lit "Here is the report:" ++ [newline])
  /\ isspace "{" = false
  /\ delimited (newline :: fence) title_x
  /\ json_decode (unfenced report_in_prose) = None
  /\ json_decode (strip title_x) = Some title_x_value
  /\ extract_json json_decode (Plain report_in_prose) = Ok title_x_value.
Proof.
  assert (delimited fence_json (lit "Here is the report:" ++ [newline])) as H1
    by (vm_compute; reflexivity).
  assert (isspace "{" = false) as H2 by (vm_compute; reflexivity).
  assert (delimited (newline :: fence) title_x) as H3 by (vm_compute; reflexivity).
  assert (json_decode (unfenced report_in_prose) = None) as H4
    by (vm_compute; reflexivity).
  assert (json_decode (strip title_x) = Some title_x_value) as H5
    by (vm_compute; reflexivity).
  split; [exact H1|]. split; [exact H2|]. split; [exact H3|].
  split; [exact H4|]. split; [exact H5|].
  exact (extract_json_fenced_block json_decode (Plain report_in_prose)
           (lit "Here is the report:" ++ [newline]) (tail title_x)
           (newline :: lit "Thank you.") "{" title_x_value
           eq_refl H1 H2 H3 H4 H5).
Defined.

(** X16 at the span [{a{b}}] of the text [x{a{b}}y}]. *)
Lemma balanced_span_shortest_witness :
  lit "{a{b}}" <> []
  /\ (balanced_span "{" "}" (lit "x{a{b}}y}") = Some (lit "{a{b}}") <->
      exists pre post,
        lit "x{a{b}}y}" = pre ++ lit "{a{b}}" ++ post
        /\ ("{"%char ∉ pre)
        /\ head (lit "{a{b}}") = Some "{"%char
        /\ depth "{" "}" (lit "{a{b}}") = 0
        /\ forall m, (0 < m < length (lit "{a{b}}"))%nat ->
             0 < depth "{" "}" (take m (lit "{a{b}}"))).
Proof.
  assert (lit "{a{b}}" <> []) as H by done.
  split; [exact H|].
  exact (balanced_span_shortest "{" "}" (lit "x{a{b}}y}") (lit "{a{b}}") H).
Defined.

(** X17 at the object [title_x] between two sentences. *)
Lemma extract_json_embedded_object_witness :
  ("{"%char ∉ lit "Report: ")
  /\ head title_x = Some "{"%char
  /\ depth "{" "}" title_x = 0
  /\ (forall m, (0 < m < length title_x)%nat -> 0 < depth "{" "}" (take m title_x))
  /\ json_decode (unfenced (lit "Report: " ++ title_x ++ lit " Done.")) = None
  /\ contains fence_json (lit "Report: " ++ title_x ++ lit " Done.") = false
  /\ json_decode title_x = Some title_x_value
  /\ extract_json json_decode (Plain (lit "Report: " ++ title_x ++ lit " Done."))
     = Ok title_x_value.
Proof.
  assert ("{"%char ∉ lit "Report: ") as H1.
  { apply (bool_decide_unpack _). vm_compute. reflexivity. }
  assert (head title_x = Some "{"%char) as H2 by reflexivity.
  assert (depth "{" "}" title_x = 0) as H3 by (vm_compute; reflexivity).
  assert (forall m, (0 < m < length title_x)%nat ->
            0 < depth "{" "}" (take m title_x)) as H4.
  { apply prefixes_from_seq. apply (bool_decide_unpack _). vm_compute. reflexivity. }
  assert (json_decode (unfenced (lit "Report: " ++ title_x ++ lit " Done.")) = None)
    as H5 by (vm_compute; reflexivity).
  assert (contains fence_json (lit "Report: " ++ title_x ++ lit " Done.") = false)
    as H6 by (vm_compute; reflexivity).
  assert (json_decode title_x = Some title_x_value) as H7
    by (vm_compute; reflexivity).
  split; [exact H1|]. split; [exact H2|]. split; [exact H3|]. split; [exact H4|].
  split; [exact H5|]. split; [exact H6|]. split; [exact H7|].
  exact (extract_json_embedded_object json_decode
           (Plain (lit "Report: " ++ title_x ++ lit " Done."))
           (lit "Report: ") title_x (lit " Done.") title_x_value
           eq_refl H1 H2 H3 H4 H5 H6 H7).
Defined.

End JsonInstances.

Section UnionFindInstances.
Import Communities.

Lemma forest_chain : forest chain.
Proof.
  assert (reach chain "c" "c" 0) as Hc by (apply reach_root; by right).
  assert (reach chain "b" "c" 1) as Hb by by apply (reach_step _ "b" "c" "c").
  assert (reach chain "a" "c" 2) as Ha by by apply (reach_step _ "a" "b" "c").
  intros x.
  destruct (decide (x = "a"%string)) as [->|Hxa]; [by exists "c"%string, 2%nat|].
  destruct (decide (x = "b"%string)) as [->|Hxb]; [by exists "c"%string, 1%nat|].
  destruct (decide (x = "c"%string)) as [->|Hxc]; [by exists "c"%string, 0%nat|].
  exists x, 0%nat. apply reach_root. left. unfold chain.
  rewrite !lookup_insert_ne by done. by apply lookup_singleton_ne.
Qed.

(** X24 at [chain] and the name [a]: after [find], [a] points at [c]. *)
Lemma find_compresses_witness :
  forest chain
  /\ exists p' r,
       find chain "a" = Some (p', r)
       /\ root chain "a" r
       /\ p' !! "a"%string = Some r /\ p' !! r = Some r
       /\ same_roots chain p'
       /\ find p' "a" = Some (p', r).
Proof.
  split; [exact forest_chain|].
  exact (find_compresses chain "a" forest_chain).
Defined.

(** X25 at [chain] and the names [a] and [d]. *)
Lemma union_merges_witness :
  forest chain
  /\ exists p',
       union chain "a" "d" = Some p' /\ forest p'
       /\ joined p' "a" "d"
       /\ forall a b,
            joined p' a b <->
            joined chain a b \/ (joined chain a "a" /\ joined chain "d" b)
            \/ (joined chain a "d" /\ joined chain "a" b).
Proof.
  split; [exact forest_chain|].
  exact (union_merges chain "a" "d" forest_chain).
Defined.

End UnionFindInstances.
